(** * CRYPTIC: candle aggregation, indicator gating, alerts and SL/TP

    A shallow embedding of the three dashboards of the repository

      - [btc_alerts_dashboard.py]       (Tk desktop variant,  [desktop])
      - [btc_alerts_kivy_dashboard.py]  (Kivy mobile variant, [kivy])
      - [btc_alert_dashboard_web.py]    (Flask web variant,   [web])

    and the properties that the design document states about them.

    Modelling conventions.
      - A Python [float] is an exact rational ([Q]): comparisons are the
        numeric ones ([Qle_bool], [Qeq_bool]) and arithmetic does not round.
        [round(x, 2)] rounds to the nearest hundredth, ties to even, as
        Python does on the exact value of a float. NaN and infinities are
        not modelled.
      - A pandas [Timestamp] built with [unit='ms'] is its number of
        milliseconds ([Z]); [Timedelta.total_seconds()] is that difference
        divided by 1000.
      - A [dict] with string keys that is only looked up is a
        [gmap string _]; [d[k]] on a missing key raises [KeyError], which is
        [None] in the [option] monad. A [dict] that is iterated for its
        order is an association list. A [dict] with fixed keys is a record.
      - A [set] of strings is a [gset string].
      - [socketio.emit] of an alert, [app.log] and the pop-ups are the list
        of notifications that a function returns next to the new state.
      - The [ta] package is a parameter: a record of functions that return
        a number or raise. *)

From Stdlib Require Import QArith Qround Qabs Lqa Ascii String.
From Stdlib Require Import Floats.SpecFloat.
From stdpp Require Import gmap strings list fin_maps pretty.

Open Scope Q_scope.

(** * Part I: the embedding *)

(** ** Python builtins on floats, strings and lists *)

Module Py.

(** [max(a, b)]: keeps [a] unless [b > a]. *)
Definition max (a b : Q) : Q := if Qlt_le_dec a b then b else a.

(** [min(a, b)]: keeps [a] unless [b < a]. *)
Definition min (a b : Q) : Q := if Qlt_le_dec b a then b else a.

(** [abs(x)]. *)
Definition abs (x : Q) : Q := Qabs x.

(** Rounding to the nearest integer, ties to the even one. *)
Definition round_half_even (q : Q) : Z :=
  let f := Qfloor q in
  match Qcompare (q - inject_Z f) (1 # 2) with
  | Lt => f
  | Gt => (f + 1)%Z
  | Eq => if Z.even f then f else (f + 1)%Z
  end.

(** [round(x, 2)]. *)
Definition round2 (x : Q) : Q := round_half_even (x * 100) # 100.

(** Two decimal digits of a number below 100. *)
Definition two_digits (n : Z) : string :=
  ((if (n <? 10)%Z then "0" else "") +:+ pretty n)%string.

(** [f"{x:.2f}"]. *)
Definition format_2f (x : Q) : string :=
  let cents := round_half_even (Qabs x * 100) in
  ((if Qle_bool 0 x then "" else "-")
     +:+ pretty (cents / 100)%Z +:+ "." +:+ two_digits (cents mod 100)%Z)%string.

(** [s.split(sep)] for a one-character separator. *)
Fixpoint split (sep : ascii) (s : string) : list string :=
  match s with
  | EmptyString => [EmptyString]
  | String c s' =>
      if Ascii.eqb c sep then EmptyString :: split sep s'
      else match split sep s' with
           | [] => [String c EmptyString]
           | piece :: pieces => String c piece :: pieces
           end
  end.

(** [s.split(sep, 1)]: at most one cut, at the first separator. *)
Fixpoint split1 (sep : ascii) (s : string) : list string :=
  match s with
  | EmptyString => [EmptyString]
  | String c s' =>
      if Ascii.eqb c sep then [EmptyString; s']
      else match split1 sep s' with
           | [] => [String c EmptyString]
           | piece :: pieces => String c piece :: pieces
           end
  end.

(** [c in s] for a character [c]. *)
Fixpoint contains (c : ascii) (s : string) : bool :=
  match s with
  | EmptyString => false
  | String c' s' => Ascii.eqb c' c || contains c s'
  end.

(** [s.startswith(p)]. *)
Definition startswith (s p : string) : bool := String.prefix p s.

(** [l.remove(x)]: drops the first element equal to [x]; [None] is the
    [ValueError] raised when there is none. *)
Fixpoint remove (x : Q) (l : list Q) : option (list Q) :=
  match l with
  | [] => None
  | y :: l' => if Qeq_bool y x then Some l' else cons y <$> remove x l'
  end.

End Py.

(** The outcome of a call that may raise. *)
Inductive outcome (A : Type) : Type :=
  | Returns (a : A)
  | Raises (exn : string).
Arguments Returns {A} a.
Arguments Raises {A} exn.

Definition bind_outcome {A B} (m : outcome A) (k : A → outcome B) : outcome B :=
  match m with
  | Returns a => k a
  | Raises e => Raises e
  end.

(** [try: m  except Exception: default]. *)
Definition try_except {A} (m : outcome A) (default : A) : A :=
  match m with
  | Returns a => a
  | Raises _ => default
  end.

(** ** The three variants *)

Inductive variant := desktop | kivy | web.

Definition MAX_CANDLES : nat := 250.

(** Capacity of a candle series: the literal [100], or [MAX_CANDLES]. *)
Definition capacity (v : variant) : nat :=
  match v with
  | web => MAX_CANDLES
  | desktop | kivy => 100%nat
  end.

(** The web variant wraps stored and reported values in [round(_, 2)];
    the other two store them as they are. *)
Definition rounded (v : variant) (x : Q) : Q :=
  match v with
  | web => Py.round2 x
  | desktop | kivy => x
  end.

Definition TIMEFRAMES : list string := ["1m"; "30m"; "1h"; "4h"]%string.
Definition INDICATORS : list string :=
  ["RSI"; "EMA20"; "EMA50"; "EMA200"; "BB"]%string.

(** ** Candles *)

Record Candle := mkCandle {
  time : Z;       (* 'time'  : open time, milliseconds *)
  open : Q;       (* 'open'  *)
  high : Q;       (* 'high'  *)
  low : Q;        (* 'low'   *)
  close : Q       (* 'close' *)
}.

(** [Timedelta.total_seconds()] of a difference of millisecond stamps. *)
Definition total_seconds (delta_ms : Z) : Q := delta_ms # 1000.

(** ** BinanceWebSocket: the candle aggregator

    The three variants share the code of [process_trade], [update_candles],
    [add_candle] and [update_last_candle] up to [capacity] and [rounded]. *)

Module BinanceWebSocket.

(** [{tf: [] for tf in TIMEFRAMES}] *)
Definition init_candles : gmap string (list Candle) :=
  list_to_map ((λ tf, (tf, [])) <$> TIMEFRAMES).

Definition get_seconds (tf : string) : option Z :=
  ({[ "1m" := 60; "30m" := 1800; "1h" := 3600; "4h" := 14400 ]}%Z
     : gmap string Z) !! tf.

Definition add_candle (v : variant) (candles : gmap string (list Candle))
    (tf : string) (ts : Z) (price : Q) : option (gmap string (list Candle)) :=
  cs ← candles !! tf;
  let cs1 := cs ++ [ {| time := ts;
                        open := rounded v price;
                        high := rounded v price;
                        low := rounded v price;
                        close := rounded v price |} ] in
  Some (<[tf := if decide (capacity v < length cs1)%nat
                then drop 1 cs1 else cs1]> candles).

Definition update_last_candle (v : variant) (candle : Candle) (price : Q) : Candle :=
  {| time := time candle;
     open := open candle;
     high := rounded v (Py.max (high candle) price);
     low := rounded v (Py.min (low candle) price);
     close := rounded v price |}.

Definition update_candles (v : variant) (candles : gmap string (list Candle))
    (tf : string) (ts : Z) (price : Q) : option (gmap string (list Candle)) :=
  cs ← candles !! tf;
  match last cs with
  | None => add_candle v candles tf ts price
  | Some last_candle =>
      secs ← get_seconds tf;
      if Qle_bool (inject_Z secs) (total_seconds (ts - time last_candle))
      then add_candle v candles tf ts price
      else Some (<[tf := <[pred (length cs) :=
                             update_last_candle v last_candle price]> cs]>
                   candles)
  end.

(** [for tf in self.candles: self.update_candles(tf, ts, price)]; every
    step touches the series of its own key only, so the order in which the
    keys are visited does not show in the result. *)
Definition process_trade (v : variant) (candles : gmap string (list Candle))
    (price : Q) (timestamp : Z) : option (gmap string (list Candle)) :=
  foldl (λ st tf, c ← st; update_candles v c tf timestamp price)
        (Some candles) (map_to_list candles).*1.

(** [on_message]: the trade price [data['p']] and time [data['T']] of the
    feed; returns the new [current_price] and the new candles. *)
Definition on_message (v : variant) (candles : gmap string (list Candle))
    (p : Q) (T : Z) : Q * option (gmap string (list Candle)) :=
  let price := rounded v p in
  (price, process_trade v candles price T).

(** A feed: the trades delivered one after the other. *)
Fixpoint feed (v : variant) (candles : gmap string (list Candle))
    (trades : list (Q * Z)) : option (gmap string (list Candle)) :=
  match trades with
  | [] => Some candles
  | (p, T) :: trades' =>
      candles' ← (on_message v candles p T).2;
      feed v candles' trades'
  end.

End BinanceWebSocket.

(** ** AlertManager: indicator alerts and their de-duplication memory *)

Record AlertConfig := mkAlertConfig {
  enabled : bool;       (* 'enabled'   *)
  threshold : Q         (* 'threshold' *)
}.

Record AlertManager := mkAlertManager {
  alerts : gmap string (gmap string AlertConfig);
  active_alerts : gset string
}.

(** The value of an indicator in [indicators[tf]]: a number, or for ['BB']
    the dict of its bands. Dicts that are iterated are association lists in
    insertion order. *)
Inductive IndicatorValue :=
  | Num (value : Q)
  | Bands (value : list (string * Q)).

(** Code shared by the web and the desktop variant. *)
Module Alerts.

(** [{tf: {ind: {'enabled': e, 'threshold': t} for ind in INDICATORS}
         for tf in TIMEFRAMES}] *)
Definition init_alerts (e : bool) (t : Q) : gmap string (gmap string AlertConfig) :=
  list_to_map ((λ tf, (tf, list_to_map ((λ ind, (ind, mkAlertConfig e t))
                                          <$> INDICATORS)))
                 <$> TIMEFRAMES).

(** Returns the manager and the notifications emitted ([socketio.emit] of
    an ['alert'], or the log line and the pop-up). *)
Definition trigger_alert (self : AlertManager) (message : string)
    : AlertManager * list string :=
  if decide (message ∈ active_alerts self) then (self, [])
  else ({| alerts := alerts self;
           active_alerts := active_alerts self ∪ {[ message ]} |},
        [message]).

(** [None]: the unpacking of [key.split('_', 1)] or a dict lookup raised. *)
Definition check_single_alert (self : AlertManager) (price value : Q)
    (key : string) : option (AlertManager * list string) :=
  match Py.split1 "_" key with
  | [tf; indicator] =>
      row ← alerts self !! tf;
      alert_config ← row !! hd EmptyString (Py.split "_" indicator);
      if enabled alert_config then
        let threshold := threshold alert_config in
        if Qle_bool (Py.abs (price - value)) (threshold / 100 * price)
        then Some (trigger_alert self key)
        else Some (self, [])
      else Some (self, [])
  | _ => None
  end.

(** The part of [check_single_alert] that reads the rule: [Some true] when
    the rule of the key is enabled and the value is within the threshold of
    the price, [None] when the call raises. *)
Definition rule_fires (alerts : gmap string (gmap string AlertConfig))
    (price value : Q) (key : string) : option bool :=
  match Py.split1 "_" key with
  | [tf; indicator] =>
      row ← alerts !! tf;
      alert_config ← row !! hd EmptyString (Py.split "_" indicator);
      Some (enabled alert_config
            && Qle_bool (Py.abs (price - value))
                        (threshold alert_config / 100 * price))
  | _ => None
  end.

(** One call of [check_single_alert] after the other, the notifications
    collected. *)
Fixpoint check_each (self : AlertManager) (price : Q)
    (calls : list (Q * string)) : option (AlertManager * list string) :=
  match calls with
  | [] => Some (self, [])
  | (value, key) :: calls' =>
      '(self1, out1) ← check_single_alert self price value key;
      '(self2, out2) ← check_each self1 price calls';
      Some (self2, out1 ++ out2)
  end.

(** Evaluation cycles one after the other, each with its current price and
    its calls. *)
Fixpoint check_cycles (self : AlertManager)
    (cycles : list (Q * list (Q * string))) : option (AlertManager * list string) :=
  match cycles with
  | [] => Some (self, [])
  | (price, calls) :: cycles' =>
      '(self1, out1) ← check_each self price calls;
      '(self2, out2) ← check_cycles self1 cycles';
      Some (self2, out1 ++ out2)
  end.

(** The calls [check_alerts] makes for one item of [indicators[tf].items()].
    [None]: the value does not fit the name (a number under ['BB'] has no
    [.items()], a dict elsewhere cannot be subtracted from the price);
    [calculate_indicators] builds no such item. *)
Definition calls_of_item (tf : string) (item : string * IndicatorValue)
    : option (list (Q * string)) :=
  let '(name, value) := item in
  if String.eqb name "BB" then
    match value with
    | Bands bands =>
        Some ((λ '(band, val), (val, tf +:+ "_" +:+ name +:+ "_" +:+ band)) <$> bands)
    | Num _ => None
    end
  else
    match value with
    | Num value => Some [(value, tf +:+ "_" +:+ name)]
    | Bands _ => None
    end.

Definition calls_of_timeframe (entry : string * list (string * IndicatorValue))
    : option (list (Q * string)) :=
  let '(tf, items) := entry in
  calls ← mapM (calls_of_item tf) items;
  Some (concat calls).

(** [check_alerts]: the current price is read by the caller. *)
Definition check_alerts (self : AlertManager) (current_price : Q)
    (indicators : list (string * list (string * IndicatorValue)))
    : option (AlertManager * list string) :=
  calls ← mapM calls_of_timeframe indicators;
  check_each self current_price (concat calls).

(** Desktop only: the OK button of the pop-up. [None]: [set.remove] raised
    [KeyError]. *)
Definition close_alert (self : AlertManager) (message : string)
    : option AlertManager :=
  if decide (message ∈ active_alerts self)
  then Some {| alerts := alerts self;
               active_alerts := active_alerts self ∖ {[ message ]} |}
  else None.

End Alerts.

(** ** Predicates on alert states and indicator outputs *)

(** [self.alerts] has a rule for every timeframe and indicator, as
    [__init__] makes it; the configuration routes change rules and add
    none. *)
Definition rules_total (self : AlertManager) : Prop :=
  ∀ tf, tf ∈ TIMEFRAMES →
    ∃ row, alerts self !! tf = Some row
           ∧ ∀ name, name ∈ INDICATORS → is_Some (row !! name).

(** The shape of what [calculate_indicators] returns: timeframes, and under
    each the indicators, with a dict of bands under ['BB'] and numbers
    elsewhere. *)
Definition indicators_shaped
    (indicators : list (string * list (string * IndicatorValue))) : Prop :=
  ∀ tf entry, (tf, entry) ∈ indicators →
    tf ∈ TIMEFRAMES
    ∧ ∀ name value, (name, value) ∈ entry →
        name ∈ INDICATORS
        ∧ (name = "BB"%string ↔ ∃ bands, value = Bands bands).

(** ** SLTPCalculator *)

Record SLTPCalculator := mkSLTP {
  entry_price : Q;
  position_type : string;
  sl_percent : Q;
  tp_percent : Q;
  trailing_sl : bool;
  trailing_tp : bool
}.

Module SLTP.

(** [SLTPCalculator.__init__] *)
Definition init : SLTPCalculator :=
  {| entry_price := 0; position_type := "LONG";
     sl_percent := 1; tp_percent := 2;
     trailing_sl := false; trailing_tp := false |}.

Definition set_position (v : variant) (self : SLTPCalculator)
    (entry_price : Q) (position_type : string) : SLTPCalculator :=
  {| entry_price := rounded v entry_price; position_type := position_type;
     sl_percent := sl_percent self; tp_percent := tp_percent self;
     trailing_sl := trailing_sl self; trailing_tp := trailing_tp self |}.

Definition calculate_sl (v : variant) (self : SLTPCalculator)
    (current_price : Q) : Q :=
  if String.eqb (position_type self) "LONG"
  then rounded v (entry_price self * (1 - sl_percent self / 100))
  else rounded v (entry_price self * (1 + sl_percent self / 100)).

Definition calculate_tp (v : variant) (self : SLTPCalculator)
    (current_price : Q) : Q :=
  if String.eqb (position_type self) "LONG"
  then rounded v (entry_price self * (1 + tp_percent self / 100))
  else rounded v (entry_price self * (1 - tp_percent self / 100)).

End SLTP.

(** ** The SL/TP formulas on IEEE binary64 numbers

    The formulas of the desktop and Kivy variants, operation by operation
    on Python's floats, to evaluate them on given numbers. *)

Module Binary64.

Definition prec : Z := 53.
Definition emax : Z := 1024.

(** [float(z)] for an integer that a binary64 number holds exactly. *)
Definition of_Z (z : Z) : spec_float :=
  match z with
  | Z0 => S754_zero false
  | _ => binary_normalize prec emax z 0 false
  end.

Definition calculate_sl (long : bool) (entry_price sl_percent : spec_float)
    : spec_float :=
  if long
  then SFmul prec emax entry_price
         (SFsub prec emax (of_Z 1) (SFdiv prec emax sl_percent (of_Z 100)))
  else SFmul prec emax entry_price
         (SFadd prec emax (of_Z 1) (SFdiv prec emax sl_percent (of_Z 100))).

Definition calculate_tp (long : bool) (entry_price tp_percent : spec_float)
    : spec_float :=
  if long
  then SFmul prec emax entry_price
         (SFadd prec emax (of_Z 1) (SFdiv prec emax tp_percent (of_Z 100)))
  else SFmul prec emax entry_price
         (SFsub prec emax (of_Z 1) (SFdiv prec emax tp_percent (of_Z 100))).

End Binary64.

(** ** Price-level alerts

    The pending targets are a Python list; the three variants scan it once
    per evaluation cycle. *)

Module PriceAlerts.

(** The test of the three loops:
    [diff = abs(current_price - alert_price)] and
    [diff <= tolerance * current_price]. *)
Definition near (tolerance current_price alert_price : Q) : bool :=
  let diff := Py.abs (current_price - alert_price) in
  Qle_bool diff (tolerance * current_price).

(** The targets a scan must leave pending. *)
Definition far (tolerance current_price alert_price : Q) : bool :=
  negb (near tolerance current_price alert_price).

(** [for alert_price in pending[:]: ...]: the loop runs over a copy made
    before the first removal (web and Kivy variants). [fire] is what the
    variant does with a target that is reached, before it removes it. *)
Fixpoint scan_copy (tolerance : Q)
    (fire : AlertManager → Q → AlertManager * list string) (current_price : Q)
    (copy : list Q) (manager : AlertManager) (pending : list Q)
    : option (AlertManager * list Q * list string) :=
  match copy with
  | [] => Some (manager, pending, [])
  | alert_price :: copy' =>
      if near tolerance current_price alert_price then
        let '(manager1, out1) := fire manager alert_price in
        pending1 ← Py.remove alert_price pending;
        '(manager2, pending2, out2) ←
          scan_copy tolerance fire current_price copy' manager1 pending1;
        Some (manager2, pending2, out1 ++ out2)
      else scan_copy tolerance fire current_price copy' manager pending
  end.

(** [for alert_price in pending: ...]: the loop runs over the list it
    removes from (desktop variant). A list iterator keeps an index [i] and
    stops when [i] is past the end of the list as it is at that moment.
    [fuel] bounds the number of iterations. *)
Fixpoint scan_live (fuel : nat) (tolerance : Q)
    (fire : AlertManager → Q → AlertManager * list string)
    (current_price : Q) (i : nat) (manager : AlertManager) (pending : list Q)
    : option (AlertManager * list Q * list string) :=
  match fuel with
  | O => None
  | S fuel' =>
      match pending !! i with
      | None => Some (manager, pending, [])
      | Some alert_price =>
          if near tolerance current_price alert_price then
            let '(manager1, out1) := fire manager alert_price in
            pending1 ← Py.remove alert_price pending;
            '(manager2, pending2, out2) ←
              scan_live fuel' tolerance fire current_price (S i)
                        manager1 pending1;
            Some (manager2, pending2, out1 ++ out2)
          else scan_live fuel' tolerance fire current_price (S i)
                         manager pending
      end
  end.

End PriceAlerts.

Module Web.

(** [AlertManager.__init__] *)
Definition init_manager : AlertManager :=
  {| alerts := Alerts.init_alerts true 0.1; active_alerts := ∅ |}.

Definition add_price_alert (price_alerts : list Q) (price : Q) : list Q :=
  let price := Py.round2 price in
  price_alerts ++ [price].

Definition check_price_alerts (self : AlertManager) (price_alerts : list Q)
    (current_price : Q) : option (AlertManager * list Q * list string) :=
  let current_price := Py.round2 current_price in
  PriceAlerts.scan_copy 0.001
    (λ self alert_price,
       Alerts.trigger_alert self ("Price reached " +:+ Py.format_2f alert_price))
    current_price price_alerts self price_alerts.

(** The price-alert step of [background_thread]. *)
Definition background_price_alerts (self : AlertManager)
    (price_alerts : list Q) (current_price : Q)
    : option (AlertManager * list Q * list string) :=
  if Qlt_le_dec 0 current_price
  then check_price_alerts self price_alerts current_price
  else Some (self, price_alerts, []).

End Web.

Module Desktop.

Definition init_manager : AlertManager :=
  {| alerts := Alerts.init_alerts false 0.5; active_alerts := ∅ |}.

Definition trigger_price_alert (manager : AlertManager) (price : Q)
    : AlertManager * list string :=
  let message := ("Price near " +:+ Py.format_2f price +:+ "!")%string in
  Alerts.trigger_alert manager message.

(** The price-alert step of [update_ui], once [set_price_alerts] has created
    [active_price_alerts]. *)
Definition update_ui_price_alerts (manager : AlertManager)
    (active_price_alerts : list Q) (current_price : Q)
    : option (AlertManager * list Q * list string) :=
  if Qlt_le_dec 0 current_price
  then PriceAlerts.scan_live (S (length active_price_alerts)) 0.0001
         trigger_price_alert current_price 0 manager active_price_alerts
  else Some (manager, active_price_alerts, []).

End Desktop.

Module Kivy.

Definition init_manager : AlertManager :=
  {| alerts := Alerts.init_alerts false 0.5; active_alerts := ∅ |}.

Definition check_single_alert (self : AlertManager) (price value : Q)
    (key : string) : option (AlertManager * list string) :=
  match Py.split "_" key with
  | tf :: part1 :: parts =>
      let indicator_name :=
        match parts with
        | part2 :: _ => (part1 +:+ "_" +:+ part2)%string
        | [] => part1
        end in
      let indicator_name :=
        if Py.startswith indicator_name "BB" then "BB"%string
        else indicator_name in
      row ← alerts self !! tf;
      match row !! indicator_name with
      | None => Some (self, [])
      | Some alert_config =>
          if enabled alert_config then
            let threshold := threshold alert_config in
            if Qle_bool (Py.abs (price - value)) (threshold / 100 * price)
            then Some (Alerts.trigger_alert self key)
            else Some (self, [])
          else Some (self, [])
      end
  | _ => None
  end.

(** The price-alert step of [update_ui]. *)
Definition update_ui_price_alerts (manager : AlertManager)
    (active_price_alerts : list Q) (current_price : Q)
    : option (AlertManager * list Q * list string) :=
  PriceAlerts.scan_copy 0.01
    (λ manager alert_price,
       Alerts.trigger_alert manager
         ("Price near " +:+ Py.format_2f alert_price +:+ "!"))
    current_price active_price_alerts manager active_price_alerts.

End Kivy.

(** ** Indicator computation

    The indicators come from the [ta] package ([RSIIndicator],
    [EMAIndicator], [BollingerBands]), which is not part of the repository.
    A call either returns the last value of its series or raises; the
    package is a parameter of [calculate_indicators]. *)

Record TaLibrary := mkTa {
  (* RSIIndicator(close, window).rsi().iloc[-1] *)
  rsi : nat → list Q → outcome Q;
  (* EMAIndicator(close, window).ema_indicator().iloc[-1] *)
  ema_indicator : nat → list Q → outcome Q;
  (* BollingerBands(close, window, window_dev).bollinger_hband().iloc[-1] *)
  bollinger_hband : nat → Q → list Q → outcome Q;
  (* ... .bollinger_mavg().iloc[-1] *)
  bollinger_mavg : nat → Q → list Q → outcome Q;
  (* ... .bollinger_lband().iloc[-1] *)
  bollinger_lband : nat → Q → list Q → outcome Q
}.

Module Indicators.

(** The ['BB'] entry of the web and desktop variants. *)
Definition bollinger_entry (v : variant) (ta : TaLibrary) (closes : list Q)
    : outcome IndicatorValue :=
  bind_outcome (bollinger_hband ta 20 2 closes) (λ upper,
  bind_outcome (bollinger_mavg ta 20 2 closes) (λ middle,
  bind_outcome (bollinger_lband ta 20 2 closes) (λ lower,
  Returns (Bands [("upper", rounded v upper);
                  ("middle", rounded v middle);
                  ("lower", rounded v lower)]%string)))).

(** The body of the loop of [calculate_indicators] in the web and desktop
    variants, for a timeframe that passed the gate. *)
Definition indicator_set (v : variant) (ta : TaLibrary) (closes : list Q)
    : outcome (list (string * IndicatorValue)) :=
  bind_outcome (rsi ta 14 closes) (λ rsi,
  bind_outcome (ema_indicator ta 20 closes) (λ ema20,
  bind_outcome (ema_indicator ta 50 closes) (λ ema50,
  bind_outcome (ema_indicator ta 200 closes) (λ ema200,
  bind_outcome (bollinger_entry v ta closes) (λ bb,
  Returns [("RSI", Num (rounded v rsi));
           ("EMA20", Num (rounded v ema20));
           ("EMA50", Num (rounded v ema50));
           ("EMA200", Num (rounded v ema200));
           ("BB", bb)]%string))))).

(** The same body in the Kivy variant: every indicator in its own
    [try ... except Exception], with 0 as the value of a failed one. *)
Definition indicator_set_guarded (ta : TaLibrary) (closes : list Q)
    : list (string * IndicatorValue) :=
  [("RSI", Num (try_except (rsi ta 14 closes) 0));
   ("EMA20", Num (try_except (ema_indicator ta 20 closes) 0));
   ("EMA50", Num (try_except (ema_indicator ta 50 closes) 0));
   ("EMA200", Num (try_except (ema_indicator ta 200 closes) 0));
   ("BB", try_except (bollinger_entry kivy ta closes)
            (Bands [("upper", 0); ("middle", 0); ("lower", 0)]%string))]%string.

(** The body of the loop in each variant. *)
Definition timeframe_entry (v : variant) (ta : TaLibrary) (closes : list Q)
    : outcome (list (string * IndicatorValue)) :=
  match v with
  | kivy => Returns (indicator_set_guarded ta closes)
  | desktop | web => indicator_set v ta closes
  end.

(** [for tf in TIMEFRAMES: ...] with [indicators] as accumulator. *)
Fixpoint calculate_loop (v : variant) (ta : TaLibrary)
    (candles : gmap string (list Candle)) (tfs : list string)
    (indicators : list (string * list (string * IndicatorValue)))
    : outcome (list (string * list (string * IndicatorValue))) :=
  match tfs with
  | [] => Returns indicators
  | tf :: tfs' =>
      match candles !! tf with
      | None => Raises "KeyError"
      | Some df =>
          if (length df <? 20)%nat
          then calculate_loop v ta candles tfs' indicators
          else
            bind_outcome (timeframe_entry v ta (close <$> df))
              (λ entry, calculate_loop v ta candles tfs'
                          (indicators ++ [(tf, entry)]))
      end
  end.

Definition calculate_indicators (v : variant) (ta : TaLibrary)
    (candles : gmap string (list Candle))
    : outcome (list (string * list (string * IndicatorValue))) :=
  calculate_loop v ta candles TIMEFRAMES [].

(** The design's view (§7): a timeframe with insufficient data "is simply
    omitted from that cycle's indicator output"; the others are reported in
    the order of [TIMEFRAMES]. *)
Definition reported (v : variant) (ta : TaLibrary)
    (candles : gmap string (list Candle)) (tfs : list string)
    : list (string * list (string * IndicatorValue)) :=
  tfs ≫= λ tf,
    match candles !! tf with
    | Some df =>
        if (length df <? 20)%nat then []
        else match timeframe_entry v ta (close <$> df) with
             | Returns entry => [(tf, entry)]
             | Raises _ => []
             end
    | None => []
    end.

End Indicators.

(** ** Bollinger bands as the design describes them *)

Module BollingerModel.

(** Modelled from the spec: the [rolling(window)] of pandas that the
    [BollingerBands] class of the [ta] package applies, "last window
    closes". *)
Definition lastn {A} (n : nat) (l : list A) : list A := drop (length l - n) l.

Definition sum (l : list Q) : Q := foldr Qplus 0 l.

(** Modelled from the spec: the [mean()] of that rolling window, "simple
    moving average". *)
Definition mean (l : list Q) : Q := sum l / inject_Z (Z.of_nat (length l)).

(** Modelled from the spec: the square root of the package, here on 15
    decimal places; exact on the square of a decimal number of up to 15
    places. *)
Definition Qsqrt (q : Q) : Q :=
  Z.sqrt (Qfloor (q * inject_Z (10 ^ 30))) # (10 ^ 15).

(** Modelled from the spec: the [std(ddof=0)] of that rolling window,
    "population_stddev". *)
Definition population_stddev (l : list Q) : Q :=
  let m := mean l in
  Qsqrt (mean ((λ x, (x - m) * (x - m)) <$> l)).

(** Modelled from the spec: [bollinger_mavg] of the [BollingerBands] class
    of the [ta] package, "middle = simple moving average of last window
    closes". *)
Definition middle_band (window : nat) (multiplier : Q) (closes : list Q) : Q :=
  mean (lastn window closes).

(** Modelled from the spec: [bollinger_hband] of the [BollingerBands] class
    of the [ta] package, "upper/lower = middle ± multiplier ×
    population_stddev(last window closes)", in exact arithmetic. The
    package evaluates the formula on binary64 numbers
    ([BollingerBinary64.upper_band]), where the sum is rounded. *)
Definition upper_band (window : nat) (multiplier : Q) (closes : list Q) : Q :=
  middle_band window multiplier closes
  + multiplier * population_stddev (lastn window closes).

(** Modelled from the spec: [bollinger_lband] of the [BollingerBands] class
    of the [ta] package, "upper/lower = middle ± multiplier ×
    population_stddev(last window closes)", in exact arithmetic. The
    package evaluates the formula on binary64 numbers
    ([BollingerBinary64.lower_band]), where the difference is rounded. *)
Definition lower_band (window : nat) (multiplier : Q) (closes : list Q) : Q :=
  middle_band window multiplier closes
  - multiplier * population_stddev (lastn window closes).

(** Modelled from the spec: a [ta] package with these bands; its RSI and
    EMA, which the design's properties of the bands do not depend on, are
    parameters. *)
Definition with_bands (rsi : nat → list Q → outcome Q)
    (ema_indicator : nat → list Q → outcome Q) : TaLibrary :=
  {| rsi := rsi;
     ema_indicator := ema_indicator;
     bollinger_hband := λ w m closes, Returns (upper_band w m closes);
     bollinger_mavg := λ w m closes, Returns (middle_band w m closes);
     bollinger_lband := λ w m closes, Returns (lower_band w m closes) |}.

End BollingerModel.

(** ** Predicates on aggregator states *)

(** The keys of [self.candles] are timeframes, as [__init__] makes them. *)
Definition timeframe_keys (candles : gmap string (list Candle)) : Prop :=
  ∀ tf, is_Some (candles !! tf) → tf ∈ TIMEFRAMES.

(** [low ≤ {open, close} ≤ high]. *)
Definition ohlc_ordered (c : Candle) : Prop :=
  low c <= open c ∧ open c <= high c ∧ low c <= close c ∧ close c <= high c.

(** The extremes of the candle are values that [rounded v] leaves alone:
    any value in the desktop and Kivy variants, a value with two decimals in
    the web variant. *)
Definition extremes_rounded (v : variant) (c : Candle) : Prop :=
  rounded v (high c) == high c ∧ rounded v (low c) == low c.

(** Open times strictly increase along a series. *)
Fixpoint chronological (cs : list Candle) : Prop :=
  match cs with
  | [] => True
  | c :: cs' => (∀ c', c' ∈ cs' → (time c < time c')%Z) ∧ chronological cs'
  end.

(** What identifies a candle in its series and must never change. *)
Definition birth (c : Candle) : Z * Q := (time c, open c).

(** ** The design's description of the aggregator (§4.1), per series *)

Module CandleAggregator.

Definition new_candle (price : Q) (ts : Z) : Candle :=
  {| time := ts; open := price; high := price; low := price; close := price |}.

(** "if series length exceeds capacity N, evict the oldest (index 0)". *)
Definition evict {A} (N : nat) (series : list A) : list A :=
  if decide (N < length series)%nat then drop 1 series else series.

(** "If the series is empty, or elapsed time since the last candle's bucket
    start ≥ bucket length, open a new candle ... Otherwise update the last
    candle in place." The bucket length is in seconds, times in
    milliseconds. *)
Definition ingest (bucket_length : Z) (N : nat) (series : list Candle)
    (price : Q) (ts : Z) : list Candle :=
  match last series with
  | None => evict N (series ++ [new_candle price ts])
  | Some c =>
      if decide (bucket_length * 1000 ≤ ts - time c)%Z
      then evict N (series ++ [new_candle price ts])
      else removelast series
             ++ [ {| time := time c; open := open c;
                     high := Py.max (high c) price;
                     low := Py.min (low c) price;
                     close := price |} ]
  end.

End CandleAggregator.

(** The effect of one [update_candles] on the series of its timeframe, whose
    bucket length is [secs]. *)
Definition series_step (v : variant) (secs : Z) (cs : list Candle)
    (price : Q) (ts : Z) : list Candle :=
  match last cs with
  | None =>
      CandleAggregator.evict (capacity v)
        (cs ++ [CandleAggregator.new_candle (rounded v price) ts])
  | Some c =>
      if Qle_bool (inject_Z secs) (total_seconds (ts - time c))
      then CandleAggregator.evict (capacity v)
             (cs ++ [CandleAggregator.new_candle (rounded v price) ts])
      else <[pred (length cs) := BinanceWebSocket.update_last_candle v c price]> cs
  end.

(** The state of a series that the invariants speak of. *)
Definition series_ok (v : variant) (cs : list Candle) : Prop :=
  (∀ c, c ∈ cs → ohlc_ordered c ∧ extremes_rounded v c)
  ∧ (length cs ≤ capacity v)%nat
  ∧ chronological cs.

Definition aggregator_ok (v : variant) (candles : gmap string (list Candle))
    : Prop :=
  timeframe_keys candles ∧ ∀ tf cs, candles !! tf = Some cs → series_ok v cs.


(** ** Instances used in the examples *)

Module Examples.

Definition trades1 : list (Q * Z) :=
  [(100.126, 0%Z); (101.5, 1000%Z); (99.75, 61000%Z)].

(** The web aggregator after [trades1]. *)
Definition candles1 : gmap string (list Candle) :=
  Eval vm_compute in default ∅ (BinanceWebSocket.feed web BinanceWebSocket.init_candles trades1).

(** Twenty closes: eighteen at 100.00 and two at 100.04. *)
Definition closes20 : list Q := replicate 18 100 ++ [100.04; 100.04].

(** Twenty one-minute candles with these closes in the ["1m"] series, the
    other series still empty. *)
Definition candles20 : gmap string (list Candle) :=
  <["1m" := imap (λ i x, CandleAggregator.new_candle x (Z.of_nat i * 60000)) closes20]>
    BinanceWebSocket.init_candles.

(** Twenty candles that all closed at 100.00. *)
Definition flat20 : gmap string (list Candle) :=
  <["1m" := imap (λ i x, CandleAggregator.new_candle x (Z.of_nat i * 60000))
              (replicate 20 100)]>
    BinanceWebSocket.init_candles.

(** A package with the bands of the design; its RSI is the neutral 50 and
    its EMA the last close. The statements below hold for any package, and
    the examples look at which entries are reported, and at the bands. *)
Definition ta : TaLibrary :=
  BollingerModel.with_bands (λ _ _, Returns 50)
                            (λ _ closes, Returns (default 0 (last closes))).

(** The same package, except that its RSI raises when no close of the
    series is below the one before it, i.e. when the average loss that the
    RSI divides by is zero. *)
Definition ta_rsi_raises : TaLibrary :=
  {| rsi := λ window closes,
       if forallb (λ '(a, b), Qle_bool a b) (zip closes (drop 1 closes))
       then Raises "ZeroDivisionError"
       else rsi ta window closes;
     ema_indicator := ema_indicator ta;
     bollinger_hband := bollinger_hband ta;
     bollinger_mavg := bollinger_mavg ta;
     bollinger_lband := bollinger_lband ta |}.

End Examples.

(** ** Configuration of the rules and of the position

    The handlers that the three front ends attach to their controls. What a
    text field or a JSON field holds goes through [float(_)], which raises
    [ValueError] on text that is no number: such an argument is an
    [option Q], [None] for text that does not parse. A handler returns the
    state it leaves behind and the exception that left it, if any. *)

Module Rules.

(** [self.alerts[tf][ind]['enabled'] = value], also written
    [self.alerts[tf][ind].update({'enabled': value})]; [None]: [KeyError]. *)
Definition set_enabled (self : AlertManager) (tf ind : string) (value : bool)
    : option AlertManager :=
  row ← alerts self !! tf;
  alert_config ← row !! ind;
  Some {| alerts := <[tf := <[ind := {| enabled := value;
                                        threshold := threshold alert_config |}]>
                             row]> (alerts self);
          active_alerts := active_alerts self |}.

(** [self.alerts[tf][ind]['threshold'] = value]; [None]: [KeyError]. *)
Definition set_threshold (self : AlertManager) (tf ind : string) (value : Q)
    : option AlertManager :=
  row ← alerts self !! tf;
  alert_config ← row !! ind;
  Some {| alerts := <[tf := <[ind := {| enabled := enabled alert_config;
                                        threshold := value |}]>
                             row]> (alerts self);
          active_alerts := active_alerts self |}.

(** The rule of a timeframe and an indicator, when there is one. *)
Definition rule (self : AlertManager) (tf ind : string) : option AlertConfig :=
  row ← alerts self !! tf; row !! ind.

End Rules.

(** Assignments to the attributes of the calculator. *)
Module Position.

(** [self.sl_percent = x] *)
Definition set_sl_percent (self : SLTPCalculator) (x : Q) : SLTPCalculator :=
  {| entry_price := entry_price self; position_type := position_type self;
     sl_percent := x; tp_percent := tp_percent self;
     trailing_sl := trailing_sl self; trailing_tp := trailing_tp self |}.

(** [self.tp_percent = x] *)
Definition set_tp_percent (self : SLTPCalculator) (x : Q) : SLTPCalculator :=
  {| entry_price := entry_price self; position_type := position_type self;
     sl_percent := sl_percent self; tp_percent := x;
     trailing_sl := trailing_sl self; trailing_tp := trailing_tp self |}.

(** [self.trailing_sl = a; self.trailing_tp = b] *)
Definition set_trailing (self : SLTPCalculator) (a b : bool) : SLTPCalculator :=
  {| entry_price := entry_price self; position_type := position_type self;
     sl_percent := sl_percent self; tp_percent := tp_percent self;
     trailing_sl := a; trailing_tp := b |}.

(** The body shared by the three [set_position] handlers: the entry price,
    then the two percentages, each parsed and stored in turn, then the
    trailing flags where the handler sets them. The web route rounds what it
    stores. Returns the calculator and whether [ValueError] was raised. *)
Definition submit (v : variant) (self : SLTPCalculator) (entry_text : option Q)
    (side : string) (sl_text tp_text : option Q) (flags : option (bool * bool))
    : SLTPCalculator * bool :=
  match entry_text with
  | None => (self, true)
  | Some entry =>
      let self1 := SLTP.set_position v self entry side in
      match sl_text with
      | None => (self1, true)
      | Some sl =>
          let self2 := set_sl_percent self1 (rounded v sl) in
          match tp_text with
          | None => (self2, true)
          | Some tp =>
              let self3 := set_tp_percent self2 (rounded v tp) in
              (match flags with
               | Some (a, b) => set_trailing self3 a b
               | None => self3
               end, false)
          end
      end
  end.

End Position.

(** The routes of the web variant. *)
Module Routes.

(** [/set_alert]: the flag is stored before the threshold is parsed. *)
Definition set_alert (self : AlertManager) (tf indicator : string)
    (enabled : bool) (threshold : option Q) : AlertManager * option string :=
  match Rules.set_enabled self tf indicator enabled with
  | None => (self, Some "KeyError"%string)
  | Some self1 =>
      match threshold with
      | None => (self1, Some "ValueError"%string)
      | Some t =>
          match Rules.set_threshold self1 tf indicator (Py.round2 t) with
          | Some self2 => (self2, None)
          | None => (self1, Some "KeyError"%string)
          end
      end
  end.

(** [/set_position] *)
Definition set_position (self : SLTPCalculator) (entry_text : option Q)
    (side : string) (sl_text tp_text : option Q) (trailing : bool * bool)
    : SLTPCalculator * bool :=
  Position.submit web self entry_text side sl_text tp_text (Some trailing).

End Routes.

(** The handlers of the Kivy variant. *)
Module AlertControls.

Definition on_checkbox_active (self : AlertManager) (value : bool)
    (tf ind : string) : option AlertManager :=
  Rules.set_enabled self tf ind value.

(** The loop of [on_threshold_change] over the timeframes that are left:
    a [KeyError] is not caught and leaves the thresholds already written. *)
Fixpoint set_threshold_each (self : AlertManager) (tfs : list string)
    (ind : string) (value : Q) : AlertManager * option string :=
  match tfs with
  | [] => (self, None)
  | tf :: tfs' =>
      match Rules.set_threshold self tf ind value with
      | Some self1 => set_threshold_each self1 tfs' ind value
      | None => (self, Some "KeyError"%string)
      end
  end.

(** [on_threshold_change]: text that is no number changes nothing. *)
Definition on_threshold_change (self : AlertManager) (value : option Q)
    (ind : string) : AlertManager * option string :=
  match value with
  | None => (self, None)
  | Some x => set_threshold_each self TIMEFRAMES ind x
  end.

End AlertControls.

(** [SLTPCalculatorUI.set_position]: [ValueError] is swallowed. *)
Module SLTPCalculatorUI.

Definition set_position (self : SLTPCalculator) (entry_text : option Q)
    (long_down : bool) (sl_text tp_text : option Q) (trailing : bool * bool)
    : SLTPCalculator :=
  (Position.submit kivy self entry_text (if long_down then "LONG" else "SHORT")
                   sl_text tp_text (Some trailing)).1.

End SLTPCalculatorUI.

(** The handlers of the desktop variant. *)
Module BTCAlertDashboard.

(** The loops of [setup_alert_controls]:
    [self.alert_manager.alerts[timeframe][indicator].update({'enabled': True})]
    for every indicator and timeframe. *)
Fixpoint enable_each (self : AlertManager) (pairs : list (string * string))
    : option AlertManager :=
  match pairs with
  | [] => Some self
  | (indicator, timeframe) :: pairs' =>
      self1 ← Rules.set_enabled self timeframe indicator true;
      enable_each self1 pairs'
  end.

Definition setup_alert_controls (self : AlertManager) : option AlertManager :=
  enable_each self
    (INDICATORS ≫= λ indicator, (λ timeframe, (indicator, timeframe)) <$> TIMEFRAMES).

(** [set_position]: [ValueError] ends in an error box; the trailing flags
    have their own callbacks. Returns the calculator and whether the box
    was shown. *)
Definition set_position (self : SLTPCalculator) (entry_text : option Q)
    (side : string) (sl_text tp_text : option Q) : SLTPCalculator * bool :=
  Position.submit desktop self entry_text side sl_text tp_text None.

End BTCAlertDashboard.

(** ** The evaluation cycle

    What [background_thread] does every second in the web variant, and
    [update_ui] in the other two: the indicators, the indicator alerts, the
    price alerts. The SL/TP step in between shows two numbers and changes
    no state. *)

(** [AlertManager.check_alerts] of the Kivy variant, with its own
    [check_single_alert]. *)
Module KivyAlerts.

Fixpoint check_each (self : AlertManager) (price : Q)
    (calls : list (Q * string)) : option (AlertManager * list string) :=
  match calls with
  | [] => Some (self, [])
  | (value, key) :: calls' =>
      '(self1, out1) ← Kivy.check_single_alert self price value key;
      '(self2, out2) ← check_each self1 price calls';
      Some (self2, out1 ++ out2)
  end.

Definition check_alerts (self : AlertManager) (current_price : Q)
    (indicators : list (string * list (string * IndicatorValue)))
    : option (AlertManager * list string) :=
  match indicators with
  | [] => Some (self, [])
  | _ =>
      calls ← mapM Alerts.calls_of_timeframe indicators;
      check_each self current_price (concat calls)
  end.

End KivyAlerts.

Module Evaluation.

(** The indicator alerts of a cycle; the web variant rounds the price it
    compares with. *)
Definition indicator_alerts (v : variant) (manager : AlertManager)
    (current_price : Q)
    (indicators : list (string * list (string * IndicatorValue)))
    : option (AlertManager * list string) :=
  match v with
  | web => Alerts.check_alerts manager (Py.round2 current_price) indicators
  | desktop => Alerts.check_alerts manager current_price indicators
  | kivy => KivyAlerts.check_alerts manager current_price indicators
  end.

(** The price alerts of a cycle. *)
Definition price_alerts (v : variant) (manager : AlertManager)
    (pending : list Q) (current_price : Q)
    : option (AlertManager * list Q * list string) :=
  match v with
  | web => Web.background_price_alerts manager pending current_price
  | desktop => Desktop.update_ui_price_alerts manager pending current_price
  | kivy => Kivy.update_ui_price_alerts manager pending current_price
  end.

(** One cycle; [None] when an exception leaves it. Returns the manager, the
    pending price alerts and the notifications. *)
Definition cycle (v : variant) (ta : TaLibrary)
    (candles : gmap string (list Candle)) (current_price : Q)
    (manager : AlertManager) (pending : list Q)
    : option (AlertManager * list Q * list string) :=
  match Indicators.calculate_indicators v ta candles with
  | Raises _ => None
  | Returns indicators =>
      '(manager1, out1) ← indicator_alerts v manager current_price indicators;
      '(manager2, pending2, out2) ← price_alerts v manager1 pending current_price;
      Some (manager2, pending2, out1 ++ out2)
  end.

End Evaluation.

(** ** More predicates on series *)

(** Consecutive open times are at least [gap] milliseconds apart. *)
Fixpoint spaced (gap : Z) (cs : list Candle) : Prop :=
  match cs with
  | [] => True
  | c :: cs' =>
      match cs' with
      | [] => True
      | c' :: _ => (time c + gap ≤ time c')%Z
      end ∧ spaced gap cs'
  end.

(** No target within tolerance is directly followed by another one. *)
Fixpoint near_apart (tolerance current_price : Q) (pending : list Q) : Prop :=
  match pending with
  | [] => True
  | a :: pending' =>
      match pending' with
      | [] => True
      | b :: _ =>
          PriceAlerts.near tolerance current_price a = true →
          PriceAlerts.near tolerance current_price b = false
      end ∧ near_apart tolerance current_price pending'
  end.

(** A value that [round(_, 2)] returns as it is. *)
Definition two_decimals (x : Q) : Prop := Py.round2 x = x.

(** What a run that only calls [trigger_alert] does to a manager: the rules
    stay, and the notifications are the messages that became active, each
    of them once. *)
Definition notified (manager manager' : AlertManager) (out : list string)
    : Prop :=
  alerts manager' = alerts manager
  ∧ active_alerts manager' = active_alerts manager ∪ list_to_set out
  ∧ NoDup out
  ∧ ∀ k, k ∈ out → k ∉ active_alerts manager.

(** ** A bucket of trades, as one series sees it *)

(** The steps of one series over the trades of a feed: [on_message] rounds
    the price, [update_candles] does the rest. *)
Definition series_feed (v : variant) (secs : Z) (cs : list Candle)
    (trades : list (Q * Z)) : list Candle :=
  foldl (λ cs trade, series_step v secs cs (rounded v trade.1) trade.2)
        cs trades.

(** The highest and the lowest of the prices of a bucket, from its first. *)
Definition highest (first : Q) (prices : list Q) : Q :=
  foldl Py.max first prices.

Definition lowest (first : Q) (prices : list Q) : Q :=
  foldl Py.min first prices.

(** ** What a cycle evaluates *)

(** The values that a cycle compares with the price, each with its key:
    for every timeframe of the indicator output and every indicator under
    it, its number under the key [tf_name], or, for the bands, each of the
    three under the key [tf_name_band]. *)
Definition evaluated
    (indicators : list (string * list (string * IndicatorValue)))
    (key tf name : string) (value : Q) : Prop :=
  ∃ entry, (tf, entry) ∈ indicators
    ∧ (((name, Num value) ∈ entry ∧ key = (tf +:+ "_" +:+ name)%string)
       ∨ ∃ bands band,
           (name, Bands bands) ∈ entry ∧ (band, value) ∈ bands
           ∧ key = (tf +:+ "_" +:+ name +:+ "_" +:+ band)%string).

(** ** The bands on binary64 numbers *)

Module BollingerBinary64.

(** Modelled from the spec: "upper = middle + multiplier ×
    population_stddev", on binary64 numbers, on which the [ta] package (not
    part of the repository) evaluates it, every operation rounded to the
    nearest number. *)
Definition upper_band (mavg multiplier stddev : spec_float) : spec_float :=
  SFadd Binary64.prec Binary64.emax mavg
        (SFmul Binary64.prec Binary64.emax multiplier stddev).

(** Modelled from the spec: "lower = middle − multiplier ×
    population_stddev", on binary64 numbers in the same way. *)
Definition lower_band (mavg multiplier stddev : spec_float) : spec_float :=
  SFsub Binary64.prec Binary64.emax mavg
        (SFmul Binary64.prec Binary64.emax multiplier stddev).

(** [x - y] on binary64 numbers. *)
Definition minus (x y : spec_float) : spec_float :=
  SFsub Binary64.prec Binary64.emax x y.

End BollingerBinary64.

(** ** The calls of the indicator package for one series *)

(** One of the seven calls that [calculate_indicators] makes for a series
    raises. *)
Definition call_raises (ta : TaLibrary) (closes : list Q) : Prop :=
  (∃ e, rsi ta 14 closes = Raises e)
  ∨ (∃ e, ema_indicator ta 20 closes = Raises e)
  ∨ (∃ e, ema_indicator ta 50 closes = Raises e)
  ∨ (∃ e, ema_indicator ta 200 closes = Raises e)
  ∨ (∃ e, bollinger_hband ta 20 2 closes = Raises e)
  ∨ (∃ e, bollinger_mavg ta 20 2 closes = Raises e)
  ∨ (∃ e, bollinger_lband ta 20 2 closes = Raises e).
(** * Part II: properties *)

(** Membership in a list given by its elements: one case for each element,
    each closed by [tac]. *)
Ltac each_element H tac :=
  repeat (apply elem_of_cons in H as [->|H]; [tac|]);
  by apply elem_of_nil in H.


(** ** Facts on the Python builtins *)

Section PyFacts.
Implicit Types a b x y : Q.

Lemma max_cases a b : (a < b ∧ Py.max a b = b) ∨ (b <= a ∧ Py.max a b = a).
Proof. unfold Py.max. destruct (Qlt_le_dec a b); auto. Qed.

Lemma min_cases a b : (b < a ∧ Py.min a b = b) ∨ (a <= b ∧ Py.min a b = a).
Proof. unfold Py.min. destruct (Qlt_le_dec b a); auto. Qed.

Lemma max_ge_l a b : a <= Py.max a b.
Proof. destruct (max_cases a b) as [[? ->]|[? ->]]; lra. Qed.

Lemma max_ge_r a b : b <= Py.max a b.
Proof. destruct (max_cases a b) as [[? ->]|[? ->]]; lra. Qed.

Lemma min_le_l a b : Py.min a b <= a.
Proof. destruct (min_cases a b) as [[? ->]|[? ->]]; lra. Qed.

Lemma min_le_r a b : Py.min a b <= b.
Proof. destruct (min_cases a b) as [[? ->]|[? ->]]; lra. Qed.

Lemma round_half_even_mono x y :
  x <= y → (Py.round_half_even x ≤ Py.round_half_even y)%Z.
Proof.
  intros Hxy. unfold Py.round_half_even.
  pose proof (Qfloor_resp_le _ _ Hxy) as Hf.
  pose proof (Qfloor_le x) as Hx1. pose proof (Qlt_floor x) as Hx2.
  pose proof (Qfloor_le y) as Hy1. pose proof (Qlt_floor y) as Hy2.
  destruct (Z.eq_dec (Qfloor x) (Qfloor y)) as [Heq|Hne].
  - rewrite <- Heq in *.
    destruct (Qcompare_spec (x - inject_Z (Qfloor x)) (1 # 2)) as [Hc|Hc|Hc];
    destruct (Qcompare_spec (y - inject_Z (Qfloor x)) (1 # 2)) as [Hd|Hd|Hd];
    try destruct (Z.even (Qfloor x)); try lia; exfalso; lra.
  - assert (Qfloor x + 1 ≤ Qfloor y)%Z as Hlt by lia.
    destruct (Qcompare (x - inject_Z (Qfloor x)) (1 # 2));
    destruct (Qcompare (y - inject_Z (Qfloor y)) (1 # 2));
    try destruct (Z.even (Qfloor x)); try destruct (Z.even (Qfloor y)); lia.
Qed.

Lemma round_half_even_Z (z : Z) : Py.round_half_even (inject_Z z) = z.
Proof.
  unfold Py.round_half_even. rewrite Qfloor_Z.
  destruct (Qcompare_spec (inject_Z z - inject_Z z) (1 # 2)); [lra|done|lra].
Qed.

Lemma round_half_even_comp x y :
  x == y → Py.round_half_even x = Py.round_half_even y.
Proof.
  intros H. unfold Py.round_half_even.
  rewrite (Qfloor_comp _ _ H).
  assert (x - inject_Z (Qfloor y) == y - inject_Z (Qfloor y)) as ->
    by (rewrite H; reflexivity).
  done.
Qed.

Lemma round2_comp x y : x == y → Py.round2 x = Py.round2 y.
Proof.
  intros H. unfold Py.round2. f_equal. apply round_half_even_comp.
  rewrite H. reflexivity.
Qed.

Lemma round2_idem x : Py.round2 (Py.round2 x) = Py.round2 x.
Proof.
  unfold Py.round2 at 1 3. f_equal.
  etransitivity; [|apply (round_half_even_Z (Py.round_half_even (x * 100)))].
  apply round_half_even_comp.
  unfold Py.round2, Qeq; simpl. lia.
Qed.

Lemma round2_mono x y : x <= y → Py.round2 x <= Py.round2 y.
Proof.
  intros H. unfold Py.round2, Qle; simpl.
  assert (x * 100 <= y * 100) as H' by lra.
  apply round_half_even_mono in H'. lia.
Qed.


(** [round(x, 2)] is within half a cent of [x]. *)
Lemma round2_close x : Qabs (Py.round2 x - x) <= 1 # 200.
Proof.
  assert (∀ q, Qabs (inject_Z (Py.round_half_even q) - q) <= 1 # 2) as Hr.
  { intros q. unfold Py.round_half_even.
    pose proof (Qfloor_le q) as H1. pose proof (Qlt_floor q) as H2.
    rewrite inject_Z_plus in H2.
    apply Qabs_Qle_condition.
    destruct (Qcompare_spec (q - inject_Z (Qfloor q)) (1 # 2)) as [Hc|Hc|Hc];
      try destruct (Z.even (Qfloor q));
      rewrite ?inject_Z_plus; change (inject_Z 1) with 1 in *; split; lra. }
  specialize (Hr (x * 100)).
  apply Qabs_Qle_condition in Hr. apply Qabs_Qle_condition.
  assert (Py.round2 x == inject_Z (Py.round_half_even (x * 100)) * (1 # 100)) as ->.
  { unfold Py.round2, Qeq. simpl. lia. }
  generalize dependent (inject_Z (Py.round_half_even (x * 100))). intros r Hr.
  split; lra.
Qed.

Lemma rounded_comp v x y : x == y → rounded v x == rounded v y.
Proof. intros H. destruct v; simpl; auto. by rewrite (round2_comp _ _ H). Qed.

Lemma rounded_idem v x : rounded v (rounded v x) = rounded v x.
Proof. destruct v; simpl; auto using round2_idem. Qed.

Lemma rounded_mono v x y : x <= y → rounded v x <= rounded v y.
Proof. destruct v; simpl; auto using round2_mono. Qed.

End PyFacts.

(** ** The aggregator, one series at a time *)

Section AggregatorFacts.
Import BinanceWebSocket CandleAggregator.
Implicit Types (v : variant) (candles : gmap string (list Candle)).
Implicit Types (cs : list Candle) (c : Candle) (tf : string).

Lemma get_seconds_timeframes tf :
  tf ∈ TIMEFRAMES ↔ is_Some (get_seconds tf).
Proof.
  unfold TIMEFRAMES, get_seconds. split.
  - intros H. each_element H ltac:(by eexists).
  - intros [secs H].
    repeat (apply lookup_insert_Some in H as [[<- _]|[_ H]]; [set_solver|]).
    apply lookup_singleton_Some in H as [<- _]. set_solver.
Qed.

Lemma get_seconds_values tf secs :
  get_seconds tf = Some secs → secs ∈ [60; 1800; 3600; 14400]%Z.
Proof.
  unfold get_seconds. intros H.
  repeat (apply lookup_insert_Some in H as [[_ <-]|[_ H]]; [set_solver|]).
  apply lookup_singleton_Some in H as [_ <-]. set_solver.
Qed.

Lemma get_seconds_pos tf secs : get_seconds tf = Some secs → (0 < secs)%Z.
Proof.
  intros H%get_seconds_values.
  each_element H ltac:(lia).
Qed.

(** The test of [update_candles], on integers. *)
Lemma elapsed_test secs ts t :
  Qle_bool (inject_Z secs) (total_seconds (ts - t)) = true
  ↔ (secs * 1000 ≤ ts - t)%Z.
Proof.
  rewrite Qle_bool_iff. unfold total_seconds, Qle. simpl. lia.
Qed.

End AggregatorFacts.

Section SeriesFacts.
Import BinanceWebSocket CandleAggregator.
Implicit Types (v : variant) (candles : gmap string (list Candle)).
Implicit Types (cs : list Candle) (c : Candle) (tf : string).

Lemma update_candles_series v candles tf cs secs price ts :
  candles !! tf = Some cs →
  get_seconds tf = Some secs →
  update_candles v candles tf ts price
  = Some (<[tf := series_step v secs cs price ts]> candles).
Proof.
  intros Hcs Hsecs. unfold update_candles, series_step, add_candle.
  rewrite Hcs, Hsecs. simpl.
  destruct (last cs) as [c|]; simpl; [|done].
  by destruct (Qle_bool _ _).
Qed.

(** The loop of [process_trade] over any list of distinct keys. *)
Lemma process_trade_loop v price ts (keys : list string) :
  NoDup keys →
  ∀ candles,
  (∀ tf, tf ∈ keys → is_Some (candles !! tf) ∧ is_Some (get_seconds tf)) →
  ∃ candles',
    foldl (λ st tf, c ← st; update_candles v c tf ts price) (Some candles) keys
    = Some candles'
    ∧ ∀ tf, candles' !! tf
            = if decide (tf ∈ keys)
              then (λ cs, series_step v (default 0%Z (get_seconds tf)) cs price ts)
                     <$> candles !! tf
              else candles !! tf.
Proof.
  induction 1 as [|k keys Hk Hnd IH]; intros candles Hkeys.
  - exists candles. split; [done|]. intros tf.
    case_decide as Hin; [by apply elem_of_nil in Hin|done].
  - destruct (Hkeys k) as [[cs Hcs] [secs Hsecs]]; [by left|].
    cbn [foldl mbind option_bind].
    rewrite (update_candles_series _ _ _ _ _ _ _ Hcs Hsecs).
    destruct (IH (<[k := series_step v secs cs price ts]> candles))
      as (candles' & Hfold & Hlook).
    { intros tf Htf. assert (k ≠ tf) by (intros ->; done).
      rewrite lookup_insert_ne by done. apply Hkeys. by right. }
    exists candles'. split; [done|]. intros tf. rewrite Hlook.
    destruct (decide (tf = k)) as [->|Hne].
    + rewrite lookup_insert_eq, Hcs, Hsecs.
      rewrite decide_False by done. rewrite decide_True by (by left). done.
    + rewrite lookup_insert_ne by done.
      destruct (decide (tf ∈ keys)) as [Hin|Hin].
      * rewrite decide_True by (by right). done.
      * rewrite decide_False; [done|].
        intros [?|?]%elem_of_cons; done.
Qed.

(** [process_trade] steps every series once and never raises. *)
Lemma process_trade_series v candles price ts :
  timeframe_keys candles →
  ∃ candles',
    process_trade v candles price ts = Some candles'
    ∧ timeframe_keys candles'
    ∧ ∀ tf, candles' !! tf
            = (λ cs, series_step v (default 0%Z (get_seconds tf)) cs price ts)
                <$> candles !! tf.
Proof.
  intros Hkeys. unfold process_trade.
  destruct (process_trade_loop v price ts (map_to_list candles).*1
              (NoDup_fst_map_to_list candles) candles) as (candles' & Hfold & Hlook).
  { intros tf Htf. apply list_elem_of_fmap in Htf as ([tf' cs] & -> & Hin).
    apply elem_of_map_to_list in Hin. simpl.
    split; [by eexists|]. apply get_seconds_timeframes, Hkeys. by eexists. }
  assert (∀ tf, candles' !! tf
            = (λ cs, series_step v (default 0%Z (get_seconds tf)) cs price ts)
                <$> candles !! tf) as Hall.
  { intros tf. rewrite Hlook. case_decide as Hin; [done|].
    destruct (candles !! tf) as [cs|] eqn:Hcs; [|done].
    exfalso. apply Hin. apply list_elem_of_fmap. exists (tf, cs).
    split; [done|]. by apply elem_of_map_to_list. }
  exists candles'. split; [done|]. split; [|done].
  intros tf [cs' Hcs']. apply Hkeys. rewrite Hall in Hcs'.
  destruct (candles !! tf); [by eexists|done].
Qed.

End SeriesFacts.

Section SeriesInvariants.
Import BinanceWebSocket CandleAggregator.
Implicit Types (v : variant) (cs : list Candle) (c : Candle).

Lemma evict_fmap {A B} (f : A → B) N (l : list A) :
  f <$> evict N l = evict N (f <$> l).
Proof.
  unfold evict. rewrite length_fmap. case_decide; [apply fmap_drop|done].
Qed.

Lemma evict_length {A} N (l : list A) :
  (length l ≤ S N)%nat → (length (evict N l) ≤ N)%nat.
Proof.
  unfold evict. intros H. case_decide; [rewrite length_drop|]; lia.
Qed.

Lemma evict_elem_of {A} N (l : list A) x : x ∈ evict N l → x ∈ l.
Proof.
  unfold evict. case_decide; [|done]. destruct l; simpl; [done|].
  rewrite drop_0. by right.
Qed.

Lemma insert_last cs c c' :
  last cs = Some c → ∃ init, cs = init ++ [c] ∧
    <[pred (length cs) := c']> cs = init ++ [c'].
Proof.
  intros [init ->]%last_Some. exists init. split; [done|].
  rewrite length_app. simpl.
  replace (pred (length init + 1)) with (length init + 0)%nat by lia.
  by rewrite insert_app_r.
Qed.

(** The two cases of a step, with the test on integers. *)
Lemma series_step_new v secs cs price ts :
  (cs = [] ∨ ∃ c, last cs = Some c ∧ (secs * 1000 ≤ ts - time c)%Z) →
  series_step v secs cs price ts
  = evict (capacity v) (cs ++ [new_candle (rounded v price) ts]).
Proof.
  unfold series_step. intros [->|(c & -> & Hle)]; [done|].
  apply elapsed_test in Hle. by rewrite Hle.
Qed.

Lemma series_step_update v secs cs c price ts :
  last cs = Some c → (ts - time c < secs * 1000)%Z →
  ∃ init, cs = init ++ [c] ∧
    series_step v secs cs price ts = init ++ [update_last_candle v c price].
Proof.
  intros Hlast Hlt. unfold series_step. rewrite Hlast.
  destruct (Qle_bool _ _) eqn:Hle.
  - apply elapsed_test in Hle. lia.
  - by apply insert_last.
Qed.

Lemma series_step_cases v secs cs price ts :
  series_step v secs cs price ts
  = evict (capacity v) (cs ++ [new_candle (rounded v price) ts])
    ∧ (cs = [] ∨ ∃ c, last cs = Some c ∧ (secs * 1000 ≤ ts - time c)%Z)
  ∨ ∃ init c, cs = init ++ [c] ∧ (ts - time c < secs * 1000)%Z ∧
      series_step v secs cs price ts = init ++ [update_last_candle v c price].
Proof.
  destruct (last cs) as [c|] eqn:Hlast.
  - destruct (decide (secs * 1000 ≤ ts - time c)%Z) as [Hle|Hlt].
    + left. split; [apply series_step_new|]; right; eauto.
    + right. destruct (series_step_update v secs cs c price ts) as (init & -> & ?);
        [done|lia|]. exists init, c. split; [done|]. split; [lia|done].
  - apply last_None in Hlast as ->. left. split; [|by left].
    apply series_step_new. by left.
Qed.

Lemma chronological_snoc cs c :
  chronological (cs ++ [c])
  ↔ chronological cs ∧ ∀ c', c' ∈ cs → (time c' < time c)%Z.
Proof.
  induction cs as [|c0 cs IH]; simpl.
  - split; intros _; repeat split; by intros c' ?%elem_of_nil.
  - rewrite IH. split.
    + intros (Hall & Hchr & Hlt). split.
      * split; [|done]. intros c' Hc'. apply Hall, elem_of_app. by left.
      * intros c' [->|Hc']%elem_of_cons; [|by apply Hlt].
        apply Hall, elem_of_app. right. by apply list_elem_of_singleton.
    + intros ((Hall & Hchr) & Hlt). split; [|split; [done|]].
      * intros c' [Hc'| ->%list_elem_of_singleton]%elem_of_app; [by apply Hall|].
        apply Hlt. by left.
      * intros c' Hc'. apply Hlt. by right.
Qed.

Lemma chronological_evict N cs : chronological cs → chronological (evict N cs).
Proof.
  unfold evict. case_decide; [|done]. destruct cs; simpl; [done|].
  rewrite drop_0. by intros [_ ?].
Qed.

Lemma series_step_length v secs cs price ts :
  (length cs ≤ capacity v)%nat →
  (length (series_step v secs cs price ts) ≤ capacity v)%nat.
Proof.
  intros Hlen.
  destruct (series_step_cases v secs cs price ts)
    as [[-> _]|(init & c & -> & _ & ->)].
  - apply evict_length. rewrite length_app. simpl. lia.
  - rewrite length_app in *. simpl in *. lia.
Qed.

Lemma series_step_chronological v secs cs price ts :
  (0 < secs)%Z → chronological cs →
  chronological (series_step v secs cs price ts).
Proof.
  intros Hsecs Hchr.
  destruct (series_step_cases v secs cs price ts)
    as [[-> Hnew]|(init & c & -> & _ & ->)].
  - apply chronological_evict, chronological_snoc. split; [done|].
    intros c' Hc'. simpl.
    destruct Hnew as [->|(c & [init ->]%last_Some & Hle)];
      [by apply elem_of_nil in Hc'|].
    apply chronological_snoc in Hchr as [_ Hlt].
    apply elem_of_app in Hc' as [Hc'| ->%list_elem_of_singleton]; [|lia].
    specialize (Hlt _ Hc'). lia.
  - apply chronological_snoc in Hchr as [Hchr Hlt].
    apply chronological_snoc. by split.
Qed.

Lemma new_candle_ok v price ts :
  ohlc_ordered (new_candle (rounded v price) ts)
  ∧ extremes_rounded v (new_candle (rounded v price) ts).
Proof.
  unfold ohlc_ordered, extremes_rounded. simpl.
  rewrite rounded_idem. repeat split; lra.
Qed.

Lemma update_last_candle_ok v c price :
  ohlc_ordered c → extremes_rounded v c →
  ohlc_ordered (update_last_candle v c price)
  ∧ extremes_rounded v (update_last_candle v c price).
Proof.
  intros (Hlo & Hoh & Hlc & Hch) [Hh Hl].
  unfold ohlc_ordered, extremes_rounded. simpl.
  rewrite !rounded_idem.
  pose proof (rounded_mono v _ _ (max_ge_l (high c) price)).
  pose proof (rounded_mono v _ _ (max_ge_r (high c) price)).
  pose proof (rounded_mono v _ _ (min_le_l (low c) price)).
  pose proof (rounded_mono v _ _ (min_le_r (low c) price)).
  repeat split; lra.
Qed.

Lemma series_step_candles v secs cs price ts :
  (∀ c, c ∈ cs → ohlc_ordered c ∧ extremes_rounded v c) →
  ∀ c, c ∈ series_step v secs cs price ts →
       ohlc_ordered c ∧ extremes_rounded v c.
Proof.
  intros Hcs c'.
  destruct (series_step_cases v secs cs price ts)
    as [[-> _]|(init & c & -> & _ & ->)].
  - intros [?| ->%list_elem_of_singleton]%evict_elem_of%elem_of_app; [auto|].
    apply new_candle_ok.
  - intros [?| ->%list_elem_of_singleton]%elem_of_app.
    + apply Hcs, elem_of_app. by left.
    + apply update_last_candle_ok; apply Hcs, elem_of_app; right;
        by apply list_elem_of_singleton.
Qed.

Lemma series_step_ok v secs cs price ts :
  (0 < secs)%Z → series_ok v cs → series_ok v (series_step v secs cs price ts).
Proof.
  intros Hsecs (Hcs & Hlen & Hchr). split; [|split].
  - by apply series_step_candles.
  - by apply series_step_length.
  - by apply series_step_chronological.
Qed.

(** A step keeps the open time and the open of every candle it keeps. *)
Lemma series_step_birth v secs cs price ts :
  birth <$> series_step v secs cs price ts = birth <$> cs
  ∨ birth <$> series_step v secs cs price ts
    = evict (capacity v) ((birth <$> cs) ++ [(ts, rounded v price)]).
Proof.
  destruct (series_step_cases v secs cs price ts)
    as [[-> _]|(init & c & -> & _ & ->)].
  - right. by rewrite evict_fmap, fmap_app.
  - left. by rewrite !fmap_app.
Qed.

End SeriesInvariants.

Section FeedFacts.
Import BinanceWebSocket CandleAggregator.
Implicit Types (v : variant) (candles : gmap string (list Candle)).

Lemma init_candles_ok v : aggregator_ok v init_candles.
Proof.
  assert (∀ tf cs, init_candles !! tf = Some cs → tf ∈ TIMEFRAMES ∧ cs = [])
    as Hinit.
  { intros tf cs H. unfold init_candles, TIMEFRAMES in *. simpl in H.
    repeat (apply lookup_insert_Some in H as [[<- <-]|[_ H]]; [set_solver|]).
    by rewrite lookup_empty in H. }
  split.
  - intros tf [cs H]. by apply Hinit in H as [? _].
  - intros tf cs H. apply Hinit in H as [_ ->]. split; [|split].
    + by intros c ?%elem_of_nil.
    + simpl. lia.
    + done.
Qed.

(** One message of the feed: never raises, steps every series, keeps the
    invariants. *)
Lemma on_message_step v candles p T :
  timeframe_keys candles →
  ∃ candles',
    on_message v candles p T = (rounded v p, Some candles')
    ∧ timeframe_keys candles'
    ∧ (∀ tf cs, candles !! tf = Some cs →
         ∃ secs, get_seconds tf = Some secs
                 ∧ candles' !! tf = Some (series_step v secs cs (rounded v p) T))
    ∧ (∀ tf cs', candles' !! tf = Some cs' → is_Some (candles !! tf)).
Proof.
  intros Hkeys. unfold on_message.
  destruct (process_trade_series v candles (rounded v p) T Hkeys)
    as (candles' & -> & Hkeys' & Hlook).
  exists candles'. split; [done|]. split; [done|]. split.
  - intros tf cs Hcs.
    destruct (proj1 (get_seconds_timeframes tf)) as [secs Hsecs];
      [apply Hkeys; by eexists|].
    exists secs. split; [done|]. by rewrite Hlook, Hcs, Hsecs.
  - intros tf cs'. rewrite Hlook. destruct (candles !! tf); [by eexists|done].
Qed.

Lemma on_message_ok v candles p T :
  aggregator_ok v candles →
  ∃ candles',
    (on_message v candles p T).2 = Some candles' ∧ aggregator_ok v candles'.
Proof.
  intros [Hkeys Hok].
  destruct (on_message_step v candles p T Hkeys)
    as (candles' & -> & Hkeys' & Hstep & Hdom).
  exists candles'. split; [done|]. split; [done|].
  intros tf cs' Hcs'. destruct (Hdom _ _ Hcs') as [cs Hcs].
  destruct (Hstep _ _ Hcs) as (secs & Hsecs & Hcs'').
  rewrite Hcs' in Hcs''. injection Hcs'' as ->.
  apply series_step_ok; [by eapply get_seconds_pos|by eapply Hok].
Qed.

Lemma feed_ok v trades : ∀ candles,
  aggregator_ok v candles →
  ∃ candles', feed v candles trades = Some candles' ∧ aggregator_ok v candles'.
Proof.
  induction trades as [|[p T] trades IH]; intros candles Hok; simpl.
  - by exists candles.
  - destruct (on_message_ok v candles p T Hok) as (candles1 & H1 & Hok1).
    unfold on_message in H1. simpl in H1. rewrite H1. simpl. by apply IH.
Qed.

(** In the desktop and Kivy variants a step is the design's [ingest]; in the
    web variant it is when the price and the extremes of the last candle
    are stored values. *)
Lemma series_step_ingest v secs cs price ts :
  rounded v price = price →
  (∀ c, last cs = Some c →
        rounded v (high c) = high c ∧ rounded v (low c) = low c) →
  series_step v secs cs price ts = ingest secs (capacity v) cs price ts.
Proof.
  intros Hp Hc. unfold series_step, ingest. rewrite Hp.
  destruct (last cs) as [c|] eqn:Hlast; [|done].
  destruct (Qle_bool _ _) eqn:Hle.
  - apply elapsed_test in Hle. by rewrite decide_True.
  - rewrite decide_False
      by (intros Hle'%elapsed_test; rewrite Hle' in Hle; done).
    destruct (insert_last cs c (update_last_candle v c price) Hlast)
      as (init & -> & ->).
    rewrite removelast_last. f_equal. unfold update_last_candle.
    destruct (Hc c eq_refl) as [Hh Hl].
    f_equal; f_equal; [| |done].
    + destruct (max_cases (high c) price) as [[_ ->]|[_ ->]]; done.
    + destruct (min_cases (low c) price) as [[_ ->]|[_ ->]]; done.
Qed.

End FeedFacts.

(** ** Indicator alerts *)

Section AlertFacts.
Import Alerts.
Implicit Types (self : AlertManager) (key tf name : string).

Lemma split1_prefix tf rest :
  Py.contains "_" tf = false →
  Py.split1 "_" (tf +:+ "_" +:+ rest) = [tf; rest].
Proof.
  induction tf as [|a tf IH]; simpl; [done|].
  intros [Ha Htf]%orb_false_elim. rewrite Ha.
  change (tf +:+ String "_" rest)%string with (tf +:+ "_" +:+ rest)%string.
  by rewrite (IH Htf).
Qed.

Lemma split_head name rest :
  Py.contains "_" name = false →
  (rest = EmptyString ∨ ∃ band, rest = ("_" +:+ band)%string) →
  hd EmptyString (Py.split "_" (name +:+ rest)) = name.
Proof.
  intros Hname Hrest.
  induction name as [|a name IH]; simpl.
  - destruct Hrest as [->|[band ->]]; done.
  - simpl in Hname. apply orb_false_elim in Hname as [Ha Hname].
    rewrite Ha. specialize (IH Hname).
    destruct (Py.split "_" (name +:+ rest)) as [|piece pieces]; simpl in *;
      by subst.
Qed.

Lemma timeframes_no_underscore tf :
  tf ∈ TIMEFRAMES → Py.contains "_" tf = false.
Proof.
  unfold TIMEFRAMES. intros H.
  each_element H ltac:(done).
Qed.

Lemma indicators_no_underscore name :
  name ∈ INDICATORS → Py.contains "_" name = false.
Proof.
  unfold INDICATORS. intros H.
  each_element H ltac:(done).
Qed.

(** On the key of a rule that exists, [check_single_alert] returns. *)
Lemma check_single_alert_rule self price value tf name rest row cfg :
  Py.contains "_" tf = false →
  Py.contains "_" name = false →
  (rest = EmptyString ∨ ∃ band, rest = ("_" +:+ band)%string) →
  alerts self !! tf = Some row →
  row !! name = Some cfg →
  check_single_alert self price value (tf +:+ "_" +:+ name +:+ rest)
  = Some (if enabled cfg
             && Qle_bool (Py.abs (price - value)) (threshold cfg / 100 * price)
          then trigger_alert self (tf +:+ "_" +:+ name +:+ rest)
          else (self, [])).
Proof.
  intros Htf Hname Hrest Hrow Hcfg. unfold check_single_alert.
  rewrite (split1_prefix _ _ Htf), Hrow. simpl.
  rewrite (split_head _ _ Hname Hrest), Hcfg. simpl.
  destruct (enabled cfg); [|done]. simpl. by destruct (Qle_bool _ _).
Qed.

Lemma trigger_alert_emits self message :
  message ∉ active_alerts self →
  trigger_alert self message
  = ({| alerts := alerts self;
        active_alerts := active_alerts self ∪ {[ message ]} |}, [message]).
Proof. intros H. unfold trigger_alert. by rewrite decide_False. Qed.

Lemma trigger_alert_silent self message :
  message ∈ active_alerts self → trigger_alert self message = (self, []).
Proof. intros H. unfold trigger_alert. by rewrite decide_True. Qed.

(** What a notification tells about the set, for any message. *)
Lemma trigger_alert_grows self message self' out :
  trigger_alert self message = (self', out) →
  alerts self' = alerts self
  ∧ active_alerts self ⊆ active_alerts self'
  ∧ ∀ k, k ∈ out → (k ∉ active_alerts self) ∧ (k ∈ active_alerts self').
Proof.
  unfold trigger_alert. case_decide as Hin; intros [= <- <-]; simpl.
  - split; [done|]. split; [done|]. by intros k ?%elem_of_nil.
  - split; [done|]. split; [apply union_subseteq_l|].
    intros k ->%list_elem_of_singleton. split; [done|].
    apply elem_of_union. right. by apply elem_of_singleton.
Qed.

Lemma check_single_alert_grows self price value key self' out :
  check_single_alert self price value key = Some (self', out) →
  alerts self' = alerts self
  ∧ active_alerts self ⊆ active_alerts self'
  ∧ ∀ k, k ∈ out → (k ∉ active_alerts self) ∧ (k ∈ active_alerts self').
Proof.
  assert (alerts self = alerts self ∧ active_alerts self ⊆ active_alerts self
          ∧ ∀ k, k ∈ @nil string → (k ∉ active_alerts self) ∧ (k ∈ active_alerts self))
    as Hsame.
  { split; [done|]. split; [done|]. by intros k ?%elem_of_nil. }
  unfold check_single_alert.
  destruct (Py.split1 "_" key) as [|tf [|indicator [|]]]; try done.
  destruct (alerts self !! tf) as [row|]; [|done]. simpl.
  destruct (row !! _) as [cfg|]; [|done]. simpl.
  destruct (enabled cfg); [|by intros [= <- <-]].
  destruct (Qle_bool _ _); [|by intros [= <- <-]].
  intros [= H]. by apply trigger_alert_grows in H.
Qed.

Lemma check_each_grows price calls : ∀ self self' out,
  check_each self price calls = Some (self', out) →
  alerts self' = alerts self
  ∧ active_alerts self ⊆ active_alerts self'
  ∧ ∀ k, k ∈ out → (k ∉ active_alerts self) ∧ (k ∈ active_alerts self').
Proof.
  induction calls as [|[value key] calls IH]; intros self self' out; simpl.
  - intros [= <- <-]. split; [done|]. split; [done|]. by intros k ?%elem_of_nil.
  - destruct (check_single_alert self price value key) as [[self1 out1]|] eqn:H1;
      [|done]. simpl.
    destruct (check_each self1 price calls) as [[self2 out2]|] eqn:H2; [|done].
    simpl. intros [= <- <-].
    apply check_single_alert_grows in H1 as (Ha1 & Hs1 & Ho1).
    apply IH in H2 as (Ha2 & Hs2 & Ho2).
    split; [congruence|]. split; [by etransitivity|].
    intros k [Hk|Hk]%elem_of_app.
    + destruct (Ho1 _ Hk). split; [done|]. by apply Hs2.
    + destruct (Ho2 _ Hk) as [Hn ?]. split; [|done].
      intros Hin. apply Hn. by apply Hs1.
Qed.

Lemma check_cycles_grows cycles : ∀ self self' out,
  check_cycles self cycles = Some (self', out) →
  alerts self' = alerts self
  ∧ active_alerts self ⊆ active_alerts self'
  ∧ ∀ k, k ∈ out → (k ∉ active_alerts self) ∧ (k ∈ active_alerts self').
Proof.
  induction cycles as [|[price calls] cycles IH]; intros self self' out; simpl.
  - intros [= <- <-]. split; [done|]. split; [done|]. by intros k ?%elem_of_nil.
  - destruct (check_each self price calls) as [[self1 out1]|] eqn:H1;
      [|done]. simpl.
    destruct (check_cycles self1 cycles) as [[self2 out2]|] eqn:H2; [|done].
    simpl. intros [= <- <-].
    apply check_each_grows in H1 as (Ha1 & Hs1 & Ho1).
    apply IH in H2 as (Ha2 & Hs2 & Ho2).
    split; [congruence|]. split; [by etransitivity|].
    intros k [Hk|Hk]%elem_of_app.
    + destruct (Ho1 _ Hk). split; [done|]. by apply Hs2.
    + destruct (Ho2 _ Hk) as [Hn ?]. split; [|done].
      intros Hin. apply Hn. by apply Hs1.
Qed.

End AlertFacts.

(** ** Price-level alerts *)

Section PriceAlertFacts.
Import PriceAlerts.
Variables (tolerance : Q) (current_price : Q).
Variable fire : AlertManager → Q → AlertManager * list string.
Implicit Types (manager : AlertManager) (pending copy kept : list Q).

Lemma near_comp a b :
  a == b → near tolerance current_price a = near tolerance current_price b.
Proof.
  intros H. unfold near, Py.abs. cbv zeta.
  apply Qleb_comp; [|reflexivity]. by rewrite H.
Qed.

Lemma filter_far_cons a l :
  filter (far tolerance current_price) (a :: l)
  = if near tolerance current_price a
    then filter (far tolerance current_price) l
    else a :: filter (far tolerance current_price) l.
Proof.
  rewrite filter_cons.
  case_decide as Hfar; unfold far in Hfar;
    destruct (near tolerance current_price a); simpl in Hfar; done.
Qed.

(** [remove] succeeds on an element of the list, drops one element equal
    to its argument, and keeps the order of the others. *)
Lemma remove_elem x pending :
  x ∈ pending → ∃ pending', Py.remove x pending = Some pending'.
Proof.
  induction pending as [|y pending IH]; simpl.
  - by intros ?%elem_of_nil.
  - intros [->|Hin]%elem_of_cons.
    + rewrite (proj2 (Qeq_bool_iff y y)) by reflexivity. by eexists.
    + destruct (Qeq_bool y x); [by eexists|].
      destruct (IH Hin) as [pending' ->]. by eexists.
Qed.

Lemma remove_shape x pending pending' :
  Py.remove x pending = Some pending' →
  ∃ l1 y l2, pending = l1 ++ y :: l2 ∧ pending' = l1 ++ l2 ∧ y == x
             ∧ ∀ z, z ∈ l1 → ¬ z == x.
Proof.
  revert pending'. induction pending as [|y pending IH]; intros pending'; simpl.
  - done.
  - destruct (Qeq_bool y x) eqn:Heq.
    + intros [= <-]. exists [], y, pending.
      apply Qeq_bool_iff in Heq. repeat split; try done.
      by intros z ?%elem_of_nil.
    + destruct (Py.remove x pending) as [l|] eqn:Hrem; [|done].
      simpl. intros [= <-].
      destruct (IH l eq_refl) as (l1 & y' & l2 & -> & -> & Hy' & Hl1).
      exists (y :: l1), y', l2. repeat split; try done.
      intros z [->|Hz]%elem_of_cons; [|by apply Hl1].
      intros Hz%Qeq_bool_iff. congruence.
Qed.

Lemma remove_length x pending pending' :
  Py.remove x pending = Some pending' → length pending = S (length pending').
Proof.
  intros (l1 & y & l2 & -> & -> & _)%remove_shape.
  rewrite !length_app. simpl. lia.
Qed.

Lemma remove_near_filter x pending pending' :
  near tolerance current_price x = true →
  Py.remove x pending = Some pending' →
  filter (far tolerance current_price) pending' = filter (far tolerance current_price) pending ∧ pending' `sublist_of` pending.
Proof.
  intros Hx (l1 & y & l2 & -> & -> & Hy & _)%remove_shape. split.
  - rewrite !filter_app, filter_far_cons.
    by rewrite (near_comp _ _ Hy), Hx.
  - apply sublist_app; [done|]. by apply sublist_cons.
Qed.

(** The loop over a copy: with [kept] the elements already passed and
    left in the list, the list ends as [kept] and the far elements of the
    copy. *)
Lemma scan_copy_filter copy : ∀ kept manager,
  (∀ a, a ∈ kept → near tolerance current_price a = false) →
  ∃ manager' out,
    scan_copy tolerance fire current_price copy manager (kept ++ copy)
    = Some (manager', kept ++ filter (far tolerance current_price) copy, out).
Proof.
  induction copy as [|x copy IH]; intros kept manager Hkept; simpl.
  - eexists _, _. by rewrite filter_nil.
  - destruct (near tolerance current_price x) eqn:Hx.
    + destruct (fire manager x) as [manager1 out1].
      assert (Py.remove x (kept ++ x :: copy) = Some (kept ++ copy)) as ->.
      { destruct (remove_elem x (kept ++ x :: copy)) as [l Hl].
        { apply elem_of_app. right. by left. }
        rewrite Hl. f_equal.
        apply remove_shape in Hl as (l1 & y & l2 & Hsplit & -> & Hy & Hl1).
        assert (∀ z, z ∈ kept → ¬ z == x) as Hkx.
        { intros z Hz Hzx. specialize (Hkept z Hz).
          rewrite (near_comp _ _ Hzx), Hx in Hkept. done. }
        clear -Hsplit Hy Hl1 Hkx. revert l1 Hsplit Hl1.
        induction kept as [|k kept IHk]; intros l1 Hsplit Hl1; simpl in *.
        - destruct l1 as [|z l1]; simpl in *; [by injection Hsplit as _ <-|].
          injection Hsplit as <- _. exfalso. apply (Hl1 x); [by left|reflexivity].
        - destruct l1 as [|z l1]; simpl in *.
          + injection Hsplit as <- _. exfalso. by apply (Hkx k); [left|].
          + injection Hsplit as <- Hsplit. f_equal.
            apply IHk; [|done|].
            * intros z' Hz'. apply Hkx. by right.
            * intros z' Hz'. apply Hl1. by right. }
      simpl.
      destruct (IH kept manager1 Hkept) as (manager' & out & ->). simpl.
      eexists _, _. by rewrite filter_far_cons, Hx.
    + destruct (IH (kept ++ [x]) manager) as (manager' & out & Hscan).
      { intros a [Ha| ->%list_elem_of_singleton]%elem_of_app; auto. }
      rewrite <- !app_assoc in Hscan. simpl in Hscan. rewrite Hscan.
      eexists _, _. by rewrite filter_far_cons, Hx.
Qed.

(** The loop over the list itself returns whenever the fuel covers what is
    left of the list. *)
Lemma scan_live_returns fuel : ∀ i manager pending,
  (length pending - i < fuel)%nat →
  is_Some (scan_live fuel tolerance fire current_price i manager pending).
Proof.
  induction fuel as [|fuel IH]; intros i manager pending Hfuel; [lia|].
  simpl. destruct (pending !! i) as [x|] eqn:Hi; [|done].
  pose proof (lookup_lt_Some _ _ _ Hi) as Hlt.
  destruct (near tolerance current_price x).
  - destruct (fire manager x) as [manager1 out1].
    destruct (remove_elem x pending) as [pending1 Hrem];
      [by eapply list_elem_of_lookup_2|].
    rewrite Hrem. simpl. apply remove_length in Hrem.
    destruct (IH (S i) manager1 pending1) as [[[m p] o] ->]; [lia|done].
  - apply IH. lia.
Qed.

(** It only removes near targets, and keeps the order of the others. *)
Lemma scan_live_keeps_far fuel : ∀ i manager pending manager' pending' out,
  scan_live fuel tolerance fire current_price i manager pending
  = Some (manager', pending', out) →
  filter (far tolerance current_price) pending' = filter (far tolerance current_price) pending ∧ pending' `sublist_of` pending.
Proof.
  induction fuel as [|fuel IH]; intros i manager pending manager' pending' out;
    [done|].
  simpl. destruct (pending !! i) as [x|] eqn:Hi; [|by intros [= <- <- <-]].
  destruct (near tolerance current_price x) eqn:Hx.
  - destruct (fire manager x) as [manager1 out1].
    destruct (Py.remove x pending) as [pending1|] eqn:Hrem; [|done]. simpl.
    destruct (scan_live fuel _ _ _ _ _ _) as [[[m p] o]|] eqn:Hrec; [|done].
    simpl. intros [= <- <- <-].
    apply IH in Hrec as [Hf Hs].
    destruct (remove_near_filter _ _ _ Hx Hrem) as [Hf1 Hs1].
    split; [congruence|by etransitivity].
  - apply IH.
Qed.

End PriceAlertFacts.

(** ** Indicator computation *)

Section IndicatorFacts.
Import Indicators.
Implicit Types (v : variant) (ta : TaLibrary).
Implicit Types (candles : gmap string (list Candle)) (closes : list Q).

Lemma bollinger_entry_returns v ta closes bb :
  bollinger_entry v ta closes = Returns bb →
  ∃ upper middle lower,
    bollinger_hband ta 20 2 closes = Returns upper
    ∧ bollinger_mavg ta 20 2 closes = Returns middle
    ∧ bollinger_lband ta 20 2 closes = Returns lower
    ∧ bb = Bands [("upper", rounded v upper); ("middle", rounded v middle);
                  ("lower", rounded v lower)]%string.
Proof.
  unfold bollinger_entry.
  destruct (bollinger_hband ta 20 2 closes) as [upper|]; [|done].
  destruct (bollinger_mavg ta 20 2 closes) as [middle|]; [|done].
  destruct (bollinger_lband ta 20 2 closes) as [lower|]; [|done].
  simpl. intros [= <-]. by exists upper, middle, lower.
Qed.

(** An entry that is reported names the five indicators, in order. *)
Lemma timeframe_entry_names v ta closes entry :
  timeframe_entry v ta closes = Returns entry → entry.*1 = INDICATORS.
Proof.
  assert (∀ v', indicator_set v' ta closes = Returns entry →
                entry.*1 = INDICATORS) as Hset.
  { intros v'. unfold indicator_set.
    destruct (rsi ta 14 closes); [|done].
    destruct (ema_indicator ta 20 closes); [|done].
    destruct (ema_indicator ta 50 closes); [|done].
    destruct (ema_indicator ta 200 closes); [|done].
    destruct (bollinger_entry v' ta closes); [|done].
    simpl. by intros [= <-]. }
  destruct v; simpl; [apply Hset| |apply Hset].
  by intros [= <-].
Qed.

Lemma reported_elem v ta candles tfs tf entry :
  (tf, entry) ∈ reported v ta candles tfs
  ↔ tf ∈ tfs
    ∧ ∃ df, candles !! tf = Some df ∧ (20 ≤ length df)%nat
            ∧ timeframe_entry v ta (close <$> df) = Returns entry.
Proof.
  unfold reported. rewrite list_elem_of_bind. split.
  - intros (tf' & Hin & Htf'). split.
    + destruct (candles !! tf') as [df|]; [|by apply elem_of_nil in Hin].
      destruct (length df <? 20)%nat; [by apply elem_of_nil in Hin|].
      destruct (timeframe_entry _ _ _); [|by apply elem_of_nil in Hin].
      apply list_elem_of_singleton in Hin. by injection Hin as -> _.
    + destruct (candles !! tf') as [df|] eqn:Hdf; [|by apply elem_of_nil in Hin].
      destruct (length df <? 20)%nat eqn:Hlen; [by apply elem_of_nil in Hin|].
      destruct (timeframe_entry _ _ _) eqn:He; [|by apply elem_of_nil in Hin].
      apply list_elem_of_singleton in Hin. injection Hin as -> ->.
      exists df. apply Nat.ltb_ge in Hlen. done.
  - intros (Htf & df & Hdf & Hlen & He). exists tf. split; [|done].
    rewrite Hdf. apply Nat.ltb_ge in Hlen. rewrite Hlen, He.
    by apply list_elem_of_singleton.
Qed.

Lemma reported_names v ta candles tfs tf :
  tf ∈ (reported v ta candles tfs).*1
  ↔ ∃ entry, (tf, entry) ∈ reported v ta candles tfs.
Proof.
  rewrite list_elem_of_fmap. split.
  - intros ([tf' entry] & -> & Hin). by exists entry.
  - intros [entry Hin]. by exists (tf, entry).
Qed.

Lemma reported_cons v ta candles tf tfs :
  reported v ta candles (tf :: tfs)
  = match candles !! tf with
    | Some df =>
        if (length df <? 20)%nat then []
        else match timeframe_entry v ta (close <$> df) with
             | Returns entry => [(tf, entry)]
             | Raises _ => []
             end
    | None => []
    end ++ reported v ta candles tfs.
Proof. done. Qed.

(** The loop returns when no call of a timeframe that passes the gate
    raises: what it returns is the design's output. *)
Lemma calculate_loop_returns v ta candles tfs : ∀ indicators,
  (∀ tf, tf ∈ tfs → is_Some (candles !! tf)) →
  (∀ tf df, tf ∈ tfs → candles !! tf = Some df → (20 ≤ length df)%nat →
            ∃ entry, timeframe_entry v ta (close <$> df) = Returns entry) →
  calculate_loop v ta candles tfs indicators
  = Returns (indicators ++ reported v ta candles tfs).
Proof.
  induction tfs as [|tf tfs IH]; intros indicators Hkeys Hret.
  - simpl. by rewrite app_nil_r.
  - destruct (Hkeys tf) as [df Hdf]; [by left|].
    rewrite reported_cons. cbn [calculate_loop]. rewrite Hdf.
    destruct (length df <? 20)%nat eqn:Hlen.
    + simpl. apply IH; intros; [apply Hkeys|eapply Hret]; try done; by right.
    + apply Nat.ltb_ge in Hlen.
      destruct (Hret tf df) as [entry He]; [by left|done|done|].
      rewrite He. simpl. rewrite IH.
      * by rewrite <- app_assoc.
      * intros. apply Hkeys. by right.
      * intros. eapply Hret; try done. by right.
Qed.

(** The loop raises as soon as a call of a timeframe that passes the gate
    does: the variants without [try] report nothing then. *)
Lemma calculate_loop_raises v ta candles tfs : ∀ indicators tf df e,
  (∀ tf, tf ∈ tfs → is_Some (candles !! tf)) →
  tf ∈ tfs → candles !! tf = Some df → (20 ≤ length df)%nat →
  timeframe_entry v ta (close <$> df) = Raises e →
  ∃ e', calculate_loop v ta candles tfs indicators = Raises e'.
Proof.
  induction tfs as [|tf0 tfs IH]; intros indicators tf df e Hkeys Htf Hdf Hlen He.
  - by apply elem_of_nil in Htf.
  - simpl. destruct (Hkeys tf0) as [df0 Hdf0]; [by left|]. rewrite Hdf0.
    destruct (decide (tf = tf0)) as [->|Hne].
    + rewrite Hdf in Hdf0. injection Hdf0 as <-.
      apply Nat.ltb_ge in Hlen. rewrite Hlen, He. simpl. by eexists.
    + apply elem_of_cons in Htf as [?|Htf]; [done|].
      assert (∀ tf', tf' ∈ tfs → is_Some (candles !! tf')) as Hkeys'
        by (intros; apply Hkeys; by right).
      destruct (length df0 <? 20)%nat; [by eapply IH|].
      destruct (timeframe_entry v ta (close <$> df0)) as [entry0|e0];
        simpl; [by eapply IH|by eexists].
Qed.

(** The Kivy body never raises, and a failed call counts as 0. *)
Lemma guarded_entry ta closes :
  indicator_set_guarded ta closes
  = [("RSI", Num (try_except (rsi ta 14 closes) 0));
     ("EMA20", Num (try_except (ema_indicator ta 20 closes) 0));
     ("EMA50", Num (try_except (ema_indicator ta 50 closes) 0));
     ("EMA200", Num (try_except (ema_indicator ta 200 closes) 0));
     ("BB", try_except (bollinger_entry kivy ta closes)
              (Bands [("upper", 0); ("middle", 0); ("lower", 0)]%string))]%string.
Proof. done. Qed.

End IndicatorFacts.

(** ** A whole cycle of indicator alerts *)

Section CycleFacts.
Import Alerts.
Implicit Types (self : AlertManager) (key : string).

Lemma check_single_alert_fires self price value key :
  check_single_alert self price value key
  = b ← rule_fires (alerts self) price value key;
    Some (if b : bool then trigger_alert self key else (self, [])).
Proof.
  unfold check_single_alert, rule_fires.
  destruct (Py.split1 "_" key) as [|tf [|indicator [|]]]; try done.
  destruct (alerts self !! tf) as [row|]; [|done]. simpl.
  destruct (row !! _) as [cfg|]; [|done]. simpl.
  destruct (enabled cfg); [|done]. simpl. by destruct (Qle_bool _ _).
Qed.

Lemma rule_fires_rule alerts price value tf name rest row cfg :
  Py.contains "_" tf = false →
  Py.contains "_" name = false →
  (rest = EmptyString ∨ ∃ band, rest = ("_" +:+ band)%string) →
  alerts !! tf = Some row →
  row !! name = Some cfg →
  rule_fires alerts price value (tf +:+ "_" +:+ name +:+ rest)
  = Some (enabled cfg
          && Qle_bool (Py.abs (price - value)) (threshold cfg / 100 * price)).
Proof.
  intros Htf Hname Hrest Hrow Hcfg. unfold rule_fires.
  rewrite (split1_prefix _ _ Htf), Hrow. simpl.
  by rewrite (split_head _ _ Hname Hrest), Hcfg.
Qed.

(** What one cycle emits: each key once, and exactly the keys that were not
    active when the cycle began and that some call of the cycle fires. *)
Lemma check_each_emits price calls : ∀ self self' out,
  check_each self price calls = Some (self', out) →
  NoDup out
  ∧ ∀ k, k ∈ out
         ↔ (k ∉ active_alerts self)
           ∧ ∃ value, (value, k) ∈ calls
                      ∧ rule_fires (alerts self) price value k = Some true.
Proof.
  induction calls as [|[value key] calls IH]; intros self self' out; simpl.
  - intros [= <- <-]. split; [constructor|]. intros k. split.
    + by intros ?%elem_of_nil.
    + by intros (_ & v & ?%elem_of_nil & _).
  - destruct (check_single_alert self price value key) as [[self1 out1]|] eqn:H1;
      [|done]. simpl.
    destruct (check_each self1 price calls) as [[self2 out2]|] eqn:H2; [|done].
    simpl. intros [= <- <-].
    pose proof (check_single_alert_grows _ _ _ _ _ _ H1) as (Ha1 & Hs1 & Ho1).
    destruct (IH _ _ _ H2) as [Hnd2 Hout2]. rewrite Ha1 in Hout2.
    rewrite check_single_alert_fires in H1.
    destruct (rule_fires (alerts self) price value key) as [b|] eqn:Hb; [|done].
    simpl in H1.
    destruct (decide (b = true ∧ key ∉ active_alerts self)) as [[-> Hnin]|Hno].
    + rewrite (trigger_alert_emits _ _ Hnin) in H1. injection H1 as <- <-.
      simpl in *. split.
      * constructor; [|done]. intros [Hk _]%Hout2. apply Hk.
        apply elem_of_union. right. by apply elem_of_singleton.
      * intros k. rewrite elem_of_cons, Hout2. split.
        -- intros [->|(Hk & v & Hv & Hf)].
           ++ split; [done|]. exists value. split; [by left|done].
           ++ split; [|exists v; split; [by right|done]].
              intros Hin. apply Hk, elem_of_union. by left.
        -- intros (Hk & v & [[= -> ->]|Hv]%elem_of_cons & Hf); [by left|].
           destruct (decide (k = key)) as [->|Hne]; [by left|]. right.
           split; [|by exists v].
           intros [?| ->%elem_of_singleton]%elem_of_union; done.
    + assert (self1 = self ∧ out1 = []) as [-> ->].
      { destruct b.
        - destruct (decide (key ∈ active_alerts self)) as [Hin|Hnin];
            [|by destruct Hno].
          rewrite (trigger_alert_silent _ _ Hin) in H1. by injection H1.
        - by injection H1. }
      simpl. split; [done|]. intros k. rewrite Hout2. split.
      * intros (Hk & v & Hv & Hf). split; [done|]. exists v.
        split; [by right|done].
      * intros (Hk & v & [[= -> ->]|Hv]%elem_of_cons & Hf); [|by eauto].
        destruct Hno. split; [congruence|done].
Qed.

End CycleFacts.

(** ** The Kivy reading of a key *)

Section KivyFacts.
Implicit Types (self : AlertManager) (key tf name : string).

Lemma append_empty_r s : (s +:+ "")%string = s.
Proof.
  induction s as [|a s IH]; [done|].
  change (String a (s +:+ "") = String a s). by rewrite IH.
Qed.

Lemma split_prefix tf rest :
  Py.contains "_" tf = false →
  Py.split "_" (tf +:+ "_" +:+ rest) = tf :: Py.split "_" rest.
Proof.
  induction tf as [|a tf IH]; simpl; [done|].
  intros [Ha Htf]%orb_false_elim. rewrite Ha.
  change (tf +:+ String "_" rest)%string with (tf +:+ "_" +:+ rest)%string.
  by rewrite (IH Htf).
Qed.

Lemma split_nonempty s : ∃ piece pieces, Py.split "_" s = piece :: pieces.
Proof.
  induction s as [|a s (piece & pieces & IH)]; simpl; [by eexists _, _|].
  destruct (Ascii.eqb a "_"); [by eexists _, _|]. rewrite IH. by eexists _, _.
Qed.

Lemma split_no_separator name :
  Py.contains "_" name = false → Py.split "_" name = [name].
Proof.
  induction name as [|a name IH]; simpl; [done|].
  intros [Ha Hname]%orb_false_elim. by rewrite Ha, (IH Hname).
Qed.

(** On the keys that [check_alerts] builds, the Kivy variant reads the same
    rule as the other two, and does the same with it. *)
Lemma kivy_check_single_alert_agrees self price value tf name rest row :
  tf ∈ TIMEFRAMES →
  name ∈ INDICATORS →
  (name ≠ "BB"%string ∧ rest = EmptyString)
  ∨ (name = "BB"%string ∧ ∃ band, rest = ("_" +:+ band)%string) →
  alerts self !! tf = Some row →
  is_Some (row !! name) →
  Kivy.check_single_alert self price value (tf +:+ "_" +:+ name +:+ rest)
  = Alerts.check_single_alert self price value (tf +:+ "_" +:+ name +:+ rest).
Proof.
  intros Htf Hname Hrest Hrow [cfg Hcfg].
  pose proof (timeframes_no_underscore _ Htf) as Htf'.
  pose proof (indicators_no_underscore _ Hname) as Hname'.
  rewrite (check_single_alert_rule self price value tf name rest row cfg);
    [|done|done| |done|done].
  2:{ destruct Hrest as [[_ ->]|[_ [band ->]]]; eauto. }
  unfold Kivy.check_single_alert. rewrite (split_prefix _ _ Htf').
  destruct Hrest as [[Hne ->]|[-> [band ->]]].
  - rewrite append_empty_r, (split_no_separator _ Hname').
    assert (Py.startswith name "BB" = false) as ->.
    { unfold INDICATORS in Hname.
      each_element Hname ltac:(done). }
    rewrite Hrow. simpl. rewrite Hcfg.
    destruct (enabled cfg); [|done]. simpl. by destruct (Qle_bool _ _).
  - rewrite (split_prefix "BB" band eq_refl).
    destruct (split_nonempty band) as (piece & pieces & ->).
    change (Py.startswith ("BB" +:+ "_" +:+ piece) "BB") with true.
    cbn iota. rewrite Hrow. simpl. rewrite Hcfg.
    destruct (enabled cfg); [|done]. simpl. by destruct (Qle_bool _ _).
Qed.

End KivyFacts.

(** ** From the indicators of a cycle to its alerts *)

Section CycleReturns.
Import Alerts Indicators.
Implicit Types (self : AlertManager) (key tf name : string).

Lemma init_alerts_total e t :
  rules_total {| alerts := init_alerts e t; active_alerts := ∅ |}.
Proof.
  intros tf Htf. simpl. unfold init_alerts, TIMEFRAMES in *.
  each_element Htf
    ltac:(eexists; split; [reflexivity|];
          intros name Hname; unfold INDICATORS in Hname;
          each_element Hname ltac:(by eexists)).
Qed.

Lemma check_each_returns price calls : ∀ self,
  (∀ value key, (value, key) ∈ calls →
                is_Some (rule_fires (alerts self) price value key)) →
  is_Some (check_each self price calls).
Proof.
  induction calls as [|[value key] calls IH]; intros self Hcalls; simpl.
  - by eexists.
  - destruct (Hcalls value key) as [b Hb]; [by left|].
    destruct (check_single_alert self price value key) as [[self1 out1]|] eqn:H1.
    + simpl. apply check_single_alert_grows in H1 as (Ha & _).
      destruct (IH self1) as [[self2 out2] ->]; [|by eexists].
      intros v k Hin. rewrite Ha. apply Hcalls. by right.
    + rewrite check_single_alert_fires, Hb in H1. done.
Qed.

Lemma calls_of_item_shaped tf name value :
  (name = "BB"%string ↔ ∃ bands, value = Bands bands) →
  ∃ calls,
    calls_of_item tf (name, value) = Some calls
    ∧ ∀ val key, (val, key) ∈ calls →
        ∃ rest, key = (tf +:+ "_" +:+ name +:+ rest)%string
                ∧ (rest = EmptyString ∨ ∃ band, rest = ("_" +:+ band)%string).
Proof.
  intros Hbb. unfold calls_of_item.
  destruct (String.eqb name "BB") eqn:Hname.
  - apply String.eqb_eq in Hname.
    destruct (proj1 Hbb Hname) as [bands ->].
    eexists. split; [done|]. intros val key Hin.
    apply list_elem_of_fmap in Hin as ([band v] & [= -> ->] & _).
    exists ("_" +:+ band)%string. split; [done|]. right. by eexists.
  - apply String.eqb_neq in Hname. destruct value as [x|bands].
    + eexists. split; [done|].
      intros val key [= -> ->]%list_elem_of_singleton.
      exists EmptyString. by rewrite append_empty_r; auto.
    + destruct Hname. apply Hbb. by eexists.
Qed.

(** [check_alerts] returns on the output of [calculate_indicators]. *)
Lemma check_alerts_returns self current_price indicators :
  rules_total self →
  indicators_shaped indicators →
  is_Some (check_alerts self current_price indicators).
Proof.
  intros Hrules Hshape. unfold check_alerts.
  assert (∃ calls, mapM calls_of_timeframe indicators = Some calls
            ∧ ∀ value key, (value, key) ∈ concat calls →
                is_Some (rule_fires (alerts self) current_price value key))
    as (calls & -> & Hcalls).
  { induction indicators as [|[tf entry] indicators IH].
    - exists []. split; [done|]. by intros value key ?%elem_of_nil.
    - destruct IH as (calls & Hcalls & Hfires).
      { intros tf' entry' Hin. apply Hshape. by right. }
      destruct (Hshape tf entry) as [Htf Hentry]; [by left|].
      assert (∃ cs, mapM (calls_of_item tf) entry = Some cs
                ∧ ∀ value key, (value, key) ∈ concat cs →
                    is_Some (rule_fires (alerts self) current_price value key))
        as (cs & Hcs & Hcsf).
      { clear -Hrules Htf Hentry.
        induction entry as [|[name value] entry IHe].
        - exists []. split; [done|]. by intros value key ?%elem_of_nil.
        - destruct IHe as (cs & Hcs & Hcsf).
          { intros n x Hin. apply Hentry. by right. }
          destruct (Hentry name value) as [Hname Hbb]; [by left|].
          destruct (calls_of_item_shaped tf name value Hbb) as (c & Hc & Hkeys).
          exists (c :: cs). split.
          + apply mapM_Some. constructor; [done|by apply mapM_Some].
          + intros v k [Hin|Hin]%elem_of_app; [|by apply Hcsf].
            destruct (Hkeys _ _ Hin) as (rest & -> & Hrest).
            destruct (Hrules tf Htf) as (row & Hrow & Hrowtotal).
            destruct (Hrowtotal name Hname) as [cfg Hcfg].
            rewrite (rule_fires_rule _ _ _ tf name rest row cfg);
              [by eexists| | |done|done|done].
            * by apply timeframes_no_underscore.
            * by apply indicators_no_underscore. }
      exists (concat cs :: calls). split.
      + apply mapM_Some. constructor; [|by apply mapM_Some].
        unfold calls_of_timeframe. by rewrite Hcs.
      + intros v k [Hin|Hin]%elem_of_app; auto. }
  simpl. by apply check_each_returns.
Qed.

Lemma bollinger_entry_shaped v ta closes bb :
  bollinger_entry v ta closes = Returns bb → ∃ bands, bb = Bands bands.
Proof.
  intros (upper & middle & lower & _ & _ & _ & ->)%bollinger_entry_returns.
  by eexists.
Qed.

Lemma timeframe_entry_shaped v ta closes entry name value :
  timeframe_entry v ta closes = Returns entry →
  (name, value) ∈ entry →
  name ∈ INDICATORS ∧ (name = "BB"%string ↔ ∃ bands, value = Bands bands).
Proof.
  assert (∀ r20 r50 r200 x bb,
            (∃ bands, bb = Bands bands) →
            (name, value) ∈ [("RSI", Num x); ("EMA20", Num r20);
                             ("EMA50", Num r50); ("EMA200", Num r200);
                             ("BB", bb)]%string →
            name ∈ INDICATORS
            ∧ (name = "BB"%string ↔ ∃ bands, value = Bands bands)) as Hlist.
  { intros r20 r50 r200 x bb [bands ->] Hin. unfold INDICATORS.
    repeat (apply elem_of_cons in Hin as [[= -> ->]|Hin];
            [split; [set_solver|];
             (split; [done|]; by intros [? [=]]) || (split; [|done]; by eexists)|]).
    by apply elem_of_nil in Hin. }
  assert (∀ v', indicator_set v' ta closes = Returns entry →
                (name, value) ∈ entry →
                name ∈ INDICATORS
                ∧ (name = "BB"%string ↔ ∃ bands, value = Bands bands)) as Hset.
  { intros v'. unfold indicator_set.
    destruct (rsi ta 14 closes); [|done].
    destruct (ema_indicator ta 20 closes); [|done].
    destruct (ema_indicator ta 50 closes); [|done].
    destruct (ema_indicator ta 200 closes); [|done].
    destruct (bollinger_entry v' ta closes) as [bb|] eqn:Hbb; [|done].
    simpl. intros [= <-]. apply Hlist. by eapply bollinger_entry_shaped. }
  destruct v; simpl; [apply Hset| |apply Hset].
  intros [= <-]. apply Hlist.
  destruct (bollinger_entry kivy ta closes) as [bb|] eqn:Hbb; simpl.
  - by eapply bollinger_entry_shaped.
  - by eexists.
Qed.

Lemma calculate_indicators_shaped v ta candles indicators :
  (∀ tf, tf ∈ TIMEFRAMES → is_Some (candles !! tf)) →
  calculate_indicators v ta candles = Returns indicators →
  indicators_shaped indicators.
Proof.
  intros Hkeys Hret.
  assert (∀ tfs acc, calculate_loop v ta candles tfs acc = Returns indicators →
            ∀ tf entry, (tf, entry) ∈ indicators →
              (tf, entry) ∈ acc
              ∨ tf ∈ tfs ∧ ∃ closes, timeframe_entry v ta closes = Returns entry)
    as Hloop.
  { induction tfs as [|tf0 tfs IH]; intros acc; simpl.
    - intros [= <-]. by left.
    - destruct (candles !! tf0) as [df|]; [|done].
      destruct (length df <? 20)%nat.
      + intros Hl tf entry Hin.
        destruct (IH _ Hl _ _ Hin) as [?|[? ?]]; [by left|right].
        split; [by right|done].
      + destruct (timeframe_entry v ta (close <$> df)) as [e0|] eqn:He0; [|done].
        simpl. intros Hl tf entry Hin.
        destruct (IH _ Hl _ _ Hin) as [[?|[= -> ->]%list_elem_of_singleton]%elem_of_app|[? ?]].
        * by left.
        * right. split; [by left|by eexists].
        * right. split; [by right|done]. }
  intros tf entry Hin.
  destruct (Hloop _ _ Hret _ _ Hin) as [?%elem_of_nil|[Htf [closes He]]]; [done|].
  split; [done|]. intros name value Hnv. by eapply timeframe_entry_shaped.
Qed.

End CycleReturns.

(** ** The example instances *)

Section ExampleFacts.
Import BinanceWebSocket Indicators.

Lemma candles1_ok : aggregator_ok web Examples.candles1.
Proof.
  destruct (feed_ok web Examples.trades1 _ (init_candles_ok web))
    as (candles' & Hfeed & Hok).
  vm_compute in Hfeed. injection Hfeed as <-. exact Hok.
Qed.

Lemma candles1_last_rounded tf cs c :
  Examples.candles1 !! tf = Some cs → last cs = Some c →
  extremes_rounded web c.
Proof.
  intros Hcs Hlast. destruct candles1_ok as [_ Hok].
  destruct (Hok _ _ Hcs) as (Hall & _).
  by destruct (Hall c (last_Some_elem_of _ _ Hlast)).
Qed.

Lemma candles20_keys tf :
  tf ∈ TIMEFRAMES → is_Some (Examples.candles20 !! tf).
Proof.
  unfold TIMEFRAMES. intros H.
  each_element H ltac:(by eexists).
Qed.

Lemma flat20_keys tf :
  tf ∈ TIMEFRAMES → is_Some (Examples.flat20 !! tf).
Proof.
  unfold TIMEFRAMES. intros H.
  each_element H ltac:(by eexists).
Qed.

Lemma examples_ta_returns v closes :
  ∃ entry, timeframe_entry v Examples.ta closes = Returns entry.
Proof. destruct v; by eexists. Qed.

End ExampleFacts.

(** ** More of the aggregator, the rules, the scans and the indicators *)

Section MoreSeriesFacts.
Import BinanceWebSocket CandleAggregator.
Implicit Types (v : variant) (cs : list Candle) (c : Candle).

Lemma evict_last {A} N (l : list A) :
  (1 ≤ N)%nat → last (evict N l) = last l.
Proof.
  unfold evict. intros HN. case_decide as Hlen; [|done].
  destruct l as [|x [|y l]]; simpl in *; try lia. done.
Qed.

Lemma capacity_pos v : (1 ≤ capacity v)%nat.
Proof. destruct v; simpl; unfold MAX_CANDLES; lia. Qed.

(** After a step the series ends with a candle that closes at the price of
    the step and has it between its extremes, when the price is a stored
    value. *)
Lemma series_step_last v secs cs price ts :
  rounded v price = price →
  ∃ c, last (series_step v secs cs price ts) = Some c
       ∧ close c = price ∧ low c <= price ∧ price <= high c.
Proof.
  intros Hp.
  destruct (series_step_cases v secs cs price ts)
    as [[-> _]|(init & c & -> & _ & ->)].
  - exists (new_candle (rounded v price) ts).
    rewrite evict_last by apply capacity_pos. rewrite last_snoc.
    simpl. rewrite Hp. repeat split; lra.
  - exists (update_last_candle v c price). rewrite last_snoc. simpl.
    pose proof (rounded_mono v _ _ (max_ge_r (high c) price)) as Hh.
    pose proof (rounded_mono v _ _ (min_le_r (low c) price)) as Hl.
    rewrite Hp in *. done.
Qed.

Lemma spaced_snoc gap cs c :
  spaced gap (cs ++ [c])
  ↔ spaced gap cs ∧ ∀ l, last cs = Some l → (time l + gap ≤ time c)%Z.
Proof.
  induction cs as [|c0 cs IH].
  - simpl. split; [|done]. intros _. split; [done|]. by intros l [=].
  - destruct cs as [|c1 cs].
    + simpl. split.
      * intros [H _]. split; [done|]. by intros l [= <-].
      * intros [_ H]. split; [|done]. by apply H.
    + change (spaced gap ((c0 :: c1 :: cs) ++ [c]))
        with ((time c0 + gap ≤ time c1)%Z ∧ spaced gap ((c1 :: cs) ++ [c])).
      change (spaced gap (c0 :: c1 :: cs))
        with ((time c0 + gap ≤ time c1)%Z ∧ spaced gap (c1 :: cs)).
      rewrite IH.
      change (last (c0 :: c1 :: cs)) with (last (c1 :: cs)). tauto.
Qed.

Lemma spaced_tail gap c cs : spaced gap (c :: cs) → spaced gap cs.
Proof. simpl. tauto. Qed.

Lemma spaced_evict gap N cs : spaced gap cs → spaced gap (evict N cs).
Proof.
  unfold evict. case_decide; [|done]. destruct cs; [done|].
  simpl drop. apply spaced_tail.
Qed.

Lemma series_step_spaced v secs cs price ts :
  spaced (secs * 1000) cs → spaced (secs * 1000) (series_step v secs cs price ts).
Proof.
  intros Hsp.
  destruct (series_step_cases v secs cs price ts)
    as [[-> Hnew]|(init & c & -> & _ & ->)].
  - apply spaced_evict, spaced_snoc. split; [done|].
    intros l Hl. simpl.
    destruct Hnew as [->|(c & Hc & Hle)]; [done|].
    rewrite Hl in Hc. injection Hc as <-. lia.
  - apply spaced_snoc in Hsp as [Hsp Hlast]. apply spaced_snoc. by split.
Qed.

End MoreSeriesFacts.

Section MoreAlertFacts.
Import Alerts.
Implicit Types (self : AlertManager) (key tf ind : string).

Lemma check_single_alert_silent self price value key self' :
  check_single_alert self price value key = Some (self', []) → self' = self.
Proof.
  rewrite check_single_alert_fires.
  destruct (rule_fires _ _ _ _) as [[|]|]; simpl; [|congruence|done].
  unfold trigger_alert. case_decide; congruence.
Qed.

Lemma check_each_silent price calls : ∀ self self',
  check_each self price calls = Some (self', []) → self' = self.
Proof.
  induction calls as [|[value key] calls IH]; intros self self'; simpl.
  - congruence.
  - destruct (check_single_alert self price value key) as [[self1 out1]|] eqn:H1;
      [|done]. simpl.
    destruct (check_each self1 price calls) as [[self2 out2]|] eqn:H2; [|done].
    simpl. intros [= <- Hout]. apply app_eq_nil in Hout as [-> ->].
    apply check_single_alert_silent in H1 as ->. by apply IH.
Qed.

(** A cycle that returned has read a rule at every call. *)
Lemma check_each_reads price calls : ∀ self self' out,
  check_each self price calls = Some (self', out) →
  ∀ value key, (value, key) ∈ calls →
    is_Some (rule_fires (alerts self) price value key).
Proof.
  induction calls as [|[value key] calls IH]; intros self self' out; simpl.
  - by intros _ value key ?%elem_of_nil.
  - destruct (check_single_alert self price value key) as [[self1 out1]|] eqn:H1;
      [|done]. simpl.
    destruct (check_each self1 price calls) as [[self2 out2]|] eqn:H2; [|done].
    simpl. intros _ value' key' [[= -> ->]|Hin]%elem_of_cons.
    + rewrite check_single_alert_fires in H1.
      by destruct (rule_fires _ _ _ _).
    + apply check_single_alert_grows in H1 as (Ha & _). rewrite <-Ha.
      by eapply IH.
Qed.

(** The set after a cycle: what was active, and what the cycle emitted. *)
Lemma check_each_active price calls : ∀ self self' out,
  check_each self price calls = Some (self', out) →
  active_alerts self' = active_alerts self ∪ list_to_set out.
Proof.
  induction calls as [|[value key] calls IH]; intros self self' out; simpl.
  - intros [= <- <-]. simpl. by rewrite (right_id_L ∅ (∪)).
  - destruct (check_single_alert self price value key) as [[self1 out1]|] eqn:H1;
      [|done]. simpl.
    destruct (check_each self1 price calls) as [[self2 out2]|] eqn:H2; [|done].
    simpl. intros [= <- <-]. rewrite (IH _ _ _ H2), list_to_set_app_L.
    rewrite (assoc_L (∪)). f_equal.
    rewrite check_single_alert_fires in H1.
    destruct (rule_fires _ _ _ _) as [[|]|]; simpl in H1; [| |done].
    + unfold trigger_alert in H1. case_decide; injection H1 as <- <-; simpl.
      * by rewrite (right_id_L ∅ (∪)).
      * by rewrite (right_id_L ∅ (∪)).
    + injection H1 as <- <-. simpl. by rewrite (right_id_L ∅ (∪)).
Qed.

Lemma rule_insert_eq self tf ind row cfg :
  Rules.rule {| alerts := <[tf := <[ind := cfg]> row]> (alerts self);
                active_alerts := active_alerts self |} tf ind = Some cfg.
Proof. unfold Rules.rule. simpl. by rewrite lookup_insert_eq; simpl; rewrite lookup_insert_eq. Qed.

Lemma rule_insert_ne self tf ind row cfg tf' ind' :
  alerts self !! tf = Some row →
  (tf', ind') ≠ (tf, ind) →
  Rules.rule {| alerts := <[tf := <[ind := cfg]> row]> (alerts self);
                active_alerts := active_alerts self |} tf' ind'
  = Rules.rule self tf' ind'.
Proof.
  intros Hrow Hne. unfold Rules.rule. simpl.
  destruct (decide (tf' = tf)) as [->|Htf].
  - rewrite lookup_insert_eq, Hrow. simpl.
    rewrite lookup_insert_ne; [done|]. congruence.
  - by rewrite lookup_insert_ne.
Qed.

(** What [set_enabled] and [set_threshold] do to the rules. *)
Lemma set_enabled_rule self tf ind value :
  match Rules.rule self tf ind with
  | None => Rules.set_enabled self tf ind value = None
  | Some cfg =>
      ∃ self', Rules.set_enabled self tf ind value = Some self'
        ∧ Rules.rule self' tf ind
          = Some {| enabled := value; threshold := threshold cfg |}
        ∧ (∀ tf' ind', (tf', ind') ≠ (tf, ind) →
             Rules.rule self' tf' ind' = Rules.rule self tf' ind')
        ∧ active_alerts self' = active_alerts self
  end.
Proof.
  unfold Rules.rule, Rules.set_enabled.
  destruct (alerts self !! tf) as [row|] eqn:Hrow; simpl; [|done].
  destruct (row !! ind) as [cfg|] eqn:Hcfg; simpl; [|done].
  eexists. split; [done|]. split; [apply rule_insert_eq|]. split; [|done].
  intros tf' ind' Hne. by apply rule_insert_ne.
Qed.

Lemma set_threshold_rule self tf ind value :
  match Rules.rule self tf ind with
  | None => Rules.set_threshold self tf ind value = None
  | Some cfg =>
      ∃ self', Rules.set_threshold self tf ind value = Some self'
        ∧ Rules.rule self' tf ind
          = Some {| enabled := enabled cfg; threshold := value |}
        ∧ (∀ tf' ind', (tf', ind') ≠ (tf, ind) →
             Rules.rule self' tf' ind' = Rules.rule self tf' ind')
        ∧ active_alerts self' = active_alerts self
  end.
Proof.
  unfold Rules.rule, Rules.set_threshold.
  destruct (alerts self !! tf) as [row|] eqn:Hrow; simpl; [|done].
  destruct (row !! ind) as [cfg|] eqn:Hcfg; simpl; [|done].
  eexists. split; [done|]. split; [apply rule_insert_eq|]. split; [|done].
  intros tf' ind' Hne. by apply rule_insert_ne.
Qed.

(** [check_single_alert] on the key of a rule, in terms of [Rules.rule]. *)
Lemma check_single_alert_of_rule self price value tf name rest cfg :
  Py.contains "_" tf = false →
  Py.contains "_" name = false →
  (rest = EmptyString ∨ ∃ band, rest = ("_" +:+ band)%string) →
  Rules.rule self tf name = Some cfg →
  check_single_alert self price value (tf +:+ "_" +:+ name +:+ rest)
  = Some (if enabled cfg
             && Qle_bool (Py.abs (price - value)) (threshold cfg / 100 * price)
          then trigger_alert self (tf +:+ "_" +:+ name +:+ rest)
          else (self, [])).
Proof.
  intros Htf Hname Hrest Hrule. unfold Rules.rule in Hrule.
  destruct (alerts self !! tf) as [row|] eqn:Hrow; [|done].
  by eapply check_single_alert_rule.
Qed.

Lemma rules_total_rule self :
  rules_total self
  ↔ ∀ tf ind, tf ∈ TIMEFRAMES → ind ∈ INDICATORS →
      is_Some (Rules.rule self tf ind).
Proof.
  unfold rules_total, Rules.rule. split.
  - intros H tf ind Htf Hind. destruct (H tf Htf) as (row & -> & Hrow).
    simpl. by apply Hrow.
  - intros H tf Htf.
    destruct (H tf "RSI"%string Htf) as [cfg Hcfg]; [unfold INDICATORS; by left|].
    destruct (alerts self !! tf) as [row|] eqn:Hrow; [|done].
    exists row. split; [done|]. intros name Hname.
    specialize (H tf name Htf Hname). by rewrite Hrow in H.
Qed.

End MoreAlertFacts.

Section HandlerFacts.
Import Alerts.
Implicit Types (self : AlertManager) (key tf ind : string).

Lemma elem_of_concat {A} (x : A) (ls : list (list A)) :
  x ∈ concat ls ↔ ∃ l, x ∈ l ∧ l ∈ ls.
Proof.
  induction ls as [|l ls IH]; simpl.
  - split; [by intros ?%elem_of_nil|by intros (l & _ & ?%elem_of_nil)].
  - rewrite elem_of_app, IH. split.
    + intros [Hin|(l' & Hin & Hl')]; [exists l; split; [done|by left]|].
      exists l'. split; [done|by right].
    + intros (l' & Hin & [->|Hl']%elem_of_cons); [by left|]. right. by exists l'.
Qed.

(** The loop of [on_threshold_change] over timeframes that have the rule. *)
Lemma set_threshold_each_rules ind x tfs : ∀ self,
  (∀ tf, tf ∈ tfs → is_Some (Rules.rule self tf ind)) →
  ∃ self',
    AlertControls.set_threshold_each self tfs ind x = (self', None)
    ∧ active_alerts self' = active_alerts self
    ∧ ∀ tf ind',
        Rules.rule self' tf ind'
        = if decide (tf ∈ tfs ∧ ind' = ind)
          then (λ cfg, {| enabled := enabled cfg; threshold := x |})
                 <$> Rules.rule self tf ind'
          else Rules.rule self tf ind'.
Proof.
  induction tfs as [|tf tfs IH]; intros self Hrules;
    cbn [AlertControls.set_threshold_each].
  - exists self. split; [done|]. split; [done|]. intros tf ind'.
    destruct (decide (tf ∈ [] ∧ ind' = ind)) as [[?%elem_of_nil _]|]; done.
  - destruct (Hrules tf) as [cfg Hcfg]; [by left|].
    pose proof (set_threshold_rule self tf ind x) as Hset. rewrite Hcfg in Hset.
    destruct Hset as (self1 & -> & Heq & Hne & Hact).
    destruct (IH self1) as (self' & -> & Hact' & Hrule').
    { intros tf' Htf'. destruct (decide (tf' = tf)) as [->|Hd].
      - by rewrite Heq.
      - rewrite Hne by congruence. apply Hrules. by right. }
    exists self'. split; [done|]. split; [congruence|].
    intros tf0 ind'. rewrite Hrule'.
    destruct (decide ((tf0, ind') = (tf, ind))) as [[= -> ->]|Hd].
    + rewrite Heq, Hcfg. rewrite (decide_True (P := tf ∈ tf :: tfs ∧ ind = ind));
        [|by split; [left|]].
      by case_decide.
    + rewrite (Hne _ _ Hd).
      destruct (decide (tf0 ∈ tfs ∧ ind' = ind)) as [[Hin ->]|Hno].
      * rewrite decide_True; [done|]. split; [by right|done].
      * rewrite decide_False; [done|].
        intros [[->|Hin]%elem_of_cons ->]; [done|]. by apply Hno.
Qed.

(** The loops of [setup_alert_controls] over pairs that have their rule. *)
Lemma enable_each_rules pairs : ∀ self,
  (∀ ind tf, (ind, tf) ∈ pairs → is_Some (Rules.rule self tf ind)) →
  ∃ self',
    BTCAlertDashboard.enable_each self pairs = Some self'
    ∧ active_alerts self' = active_alerts self
    ∧ ∀ tf ind,
        Rules.rule self' tf ind
        = if decide ((ind, tf) ∈ pairs)
          then (λ cfg, {| enabled := true; threshold := threshold cfg |})
                 <$> Rules.rule self tf ind
          else Rules.rule self tf ind.
Proof.
  induction pairs as [|[ind tf] pairs IH]; intros self Hrules;
    cbn [BTCAlertDashboard.enable_each].
  - exists self. split; [done|]. split; [done|]. intros tf ind.
    destruct (decide ((ind, tf) ∈ [])) as [?%elem_of_nil|]; done.
  - destruct (Hrules ind tf) as [cfg Hcfg]; [by left|].
    pose proof (set_enabled_rule self tf ind true) as Hset. rewrite Hcfg in Hset.
    destruct Hset as (self1 & -> & Heq & Hne & Hact). simpl.
    destruct (IH self1) as (self' & -> & Hact' & Hrule').
    { intros ind' tf' Hin. destruct (decide ((tf', ind') = (tf, ind))) as [[= -> ->]|Hd].
      - by rewrite Heq.
      - rewrite Hne by done. apply Hrules. by right. }
    exists self'. split; [done|]. split; [congruence|].
    intros tf0 ind0. rewrite Hrule'.
    destruct (decide ((tf0, ind0) = (tf, ind))) as [[= -> ->]|Hd].
    + rewrite Heq, Hcfg. rewrite (decide_True (P := (ind, tf) ∈ (ind, tf) :: pairs));
        [|by left].
      by case_decide.
    + rewrite (Hne _ _ Hd).
      destruct (decide ((ind0, tf0) ∈ pairs)) as [Hin|Hno].
      * rewrite decide_True; [done|]. by right.
      * rewrite decide_False; [done|].
        intros [[= -> ->]|Hin]%elem_of_cons; [done|]. by apply Hno.
Qed.

(** The keys that [check_alerts] builds for one item. *)
Lemma calls_of_item_keys tf name value calls :
  calls_of_item tf (name, value) = Some calls →
  ∀ val key, (val, key) ∈ calls →
    ∃ rest, key = (tf +:+ "_" +:+ name +:+ rest)%string
      ∧ ((name ≠ "BB"%string ∧ rest = EmptyString)
         ∨ (name = "BB"%string ∧ ∃ band, rest = ("_" +:+ band)%string)).
Proof.
  unfold calls_of_item. destruct (String.eqb name "BB") eqn:Hname.
  - apply String.eqb_eq in Hname. destruct value as [x|bands]; [done|].
    intros [= <-] val key Hin.
    apply list_elem_of_fmap in Hin as ([band v] & [= -> ->] & _).
    exists ("_" +:+ band)%string. split; [done|]. right. split; [done|]. by eexists.
  - apply String.eqb_neq in Hname. destruct value as [x|bands]; [|done].
    intros [= <-] val key [= -> ->]%list_elem_of_singleton.
    exists EmptyString. rewrite append_empty_r. split; [done|]. by left.
Qed.

Lemma calls_of_timeframe_keys tf entry calls :
  calls_of_timeframe (tf, entry) = Some calls →
  ∀ val key, (val, key) ∈ calls →
    ∃ name value rest, (name, value) ∈ entry
      ∧ key = (tf +:+ "_" +:+ name +:+ rest)%string
      ∧ ((name ≠ "BB"%string ∧ rest = EmptyString)
         ∨ (name = "BB"%string ∧ ∃ band, rest = ("_" +:+ band)%string)).
Proof.
  unfold calls_of_timeframe.
  destruct (mapM (calls_of_item tf) entry) as [cs|] eqn:Hcs; [|done]. simpl.
  intros [= <-] val key Hin.
  apply elem_of_concat in Hin as (c & Hin & Hc).
  apply mapM_Some in Hcs.
  apply list_elem_of_lookup in Hc as [i Hi].
  destruct (Forall2_lookup_r _ _ _ _ _ Hcs Hi) as ([name value] & Hitem & Hcall).
  destruct (calls_of_item_keys _ _ _ _ Hcall _ _ Hin) as (rest & -> & Hrest).
  exists name, value, rest. split; [|done]. by eapply list_elem_of_lookup_2.
Qed.

(** The calls of [check_alerts] on an output of the shape that
    [calculate_indicators] gives. *)
Lemma calls_of_shaped indicators calls :
  indicators_shaped indicators →
  mapM calls_of_timeframe indicators = Some calls →
  ∀ val key, (val, key) ∈ concat calls →
    ∃ tf name rest, tf ∈ TIMEFRAMES ∧ name ∈ INDICATORS
      ∧ key = (tf +:+ "_" +:+ name +:+ rest)%string
      ∧ ((name ≠ "BB"%string ∧ rest = EmptyString)
         ∨ (name = "BB"%string ∧ ∃ band, rest = ("_" +:+ band)%string)).
Proof.
  intros Hshape Hcalls val key Hin.
  apply elem_of_concat in Hin as (c & Hin & Hc).
  apply mapM_Some in Hcalls.
  apply list_elem_of_lookup in Hc as [i Hi].
  destruct (Forall2_lookup_r _ _ _ _ _ Hcalls Hi) as ([tf entry] & Hentry & Hcall).
  apply list_elem_of_lookup_2 in Hentry.
  destruct (Hshape _ _ Hentry) as [Htf Hnames].
  destruct (calls_of_timeframe_keys _ _ _ Hcall _ _ Hin)
    as (name & value & rest & Hitem & -> & Hrest).
  exists tf, name, rest. split; [done|]. split; [by eapply Hnames|done].
Qed.

(** On such calls the loop of the Kivy variant is the loop of the other
    two. *)
Lemma kivy_check_each_agrees price calls : ∀ self,
  rules_total self →
  (∀ val key, (val, key) ∈ calls →
     ∃ tf name rest, tf ∈ TIMEFRAMES ∧ name ∈ INDICATORS
       ∧ key = (tf +:+ "_" +:+ name +:+ rest)%string
       ∧ ((name ≠ "BB"%string ∧ rest = EmptyString)
          ∨ (name = "BB"%string ∧ ∃ band, rest = ("_" +:+ band)%string))) →
  KivyAlerts.check_each self price calls = check_each self price calls.
Proof.
  induction calls as [|[value key] calls IH]; intros self Hrules Hcalls; simpl.
  - done.
  - destruct (Hcalls value key) as (tf & name & rest & Htf & Hname & -> & Hrest);
      [by left|].
    destruct (Hrules tf Htf) as (row & Hrow & Hnames).
    rewrite (kivy_check_single_alert_agrees self price value tf name rest row
               Htf Hname Hrest Hrow (Hnames _ Hname)).
    destruct (check_single_alert self price value _) as [[self1 out1]|] eqn:H1;
      [|done]. simpl.
    apply check_single_alert_grows in H1 as (Ha & _).
    rewrite IH; [done| |].
    + intros tf' Htf'. rewrite Ha. by apply Hrules.
    + intros val k Hin. apply (Hcalls val k). by right.
Qed.

End HandlerFacts.

Section MorePriceAlertFacts.
Import PriceAlerts Alerts.
Variables (tolerance : Q) (current_price : Q).
Implicit Types (manager : AlertManager) (pending copy kept rest : list Q).

(** [remove] of a near target that comes after far ones only. *)
Lemma remove_first_near x kept rest :
  (∀ a, a ∈ kept → near tolerance current_price a = false) →
  near tolerance current_price x = true →
  Py.remove x (kept ++ x :: rest) = Some (kept ++ rest).
Proof.
  intros Hkept Hx.
  induction kept as [|k kept IH]; simpl.
  - by rewrite (proj2 (Qeq_bool_iff x x)) by reflexivity.
  - destruct (Qeq_bool k x) eqn:Hkx.
    + apply Qeq_bool_iff in Hkx.
      rewrite <-(near_comp _ _ _ _ Hkx), (Hkept k) in Hx; [done|by left].
    + rewrite IH; [done|]. intros a Ha. apply Hkept. by right.
Qed.

Lemma near_apart_tail a rest :
  near_apart tolerance current_price (a :: rest) →
  near_apart tolerance current_price rest.
Proof. simpl. tauto. Qed.

(** The loop over the list itself, when no near target directly follows
    another one: the target after a removed one is skipped, and it is one
    that would have been kept. *)
Lemma scan_live_apart fire fuel : ∀ kept rest manager,
  (length rest < fuel)%nat →
  (∀ a, a ∈ kept → near tolerance current_price a = false) →
  near_apart tolerance current_price rest →
  ∃ manager' out,
    scan_live fuel tolerance fire current_price (length kept) manager
              (kept ++ rest)
    = Some (manager', kept ++ filter (far tolerance current_price) rest, out).
Proof.
  induction fuel as [|fuel IH]; intros kept rest manager Hfuel Hkept Hapart;
    [lia|].
  cbn [scan_live].
  destruct rest as [|a rest].
  - rewrite lookup_ge_None_2 by (rewrite length_app; simpl; lia).
    by eexists _, _.
  - rewrite lookup_app_r, Nat.sub_diag by lia. cbn [lookup list_lookup].
    rewrite filter_far_cons.
    destruct (near tolerance current_price a) eqn:Ha.
    + destruct (fire manager a) as [manager1 out1].
      rewrite (remove_first_near _ _ _ Hkept Ha). cbn [mbind option_bind].
      destruct rest as [|b rest].
      * destruct fuel as [|fuel]; [simpl in Hfuel; lia|]. cbn [scan_live].
        rewrite lookup_ge_None_2 by (rewrite length_app; simpl; lia).
        by eexists _, _.
      * assert (near tolerance current_price b = false) as Hb.
        { destruct Hapart as [Hab _]. by apply Hab. }
        destruct (IH (kept ++ [b]) rest manager1) as (manager' & out & Hscan).
        { simpl in Hfuel. lia. }
        { intros c [Hc| ->%list_elem_of_singleton]%elem_of_app; auto. }
        { by do 2 apply near_apart_tail in Hapart. }
        rewrite length_app, Nat.add_1_r, <-app_assoc in Hscan. simpl in Hscan.
        rewrite Hscan. cbn [mbind option_bind].
        rewrite filter_far_cons, Hb, <-app_assoc. by eexists _, _.
    + destruct (IH (kept ++ [a]) rest manager) as (manager' & out & Hscan).
      { simpl in Hfuel. lia. }
      { intros c [Hc| ->%list_elem_of_singleton]%elem_of_app; auto. }
      { by apply near_apart_tail in Hapart. }
      rewrite length_app, Nat.add_1_r, <-app_assoc in Hscan. simpl in Hscan.
      rewrite Hscan, <-app_assoc. by eexists _, _.
Qed.

(** What a scan over a copy notifies, when a reached target is reported by
    [trigger_alert] under a message of its own. *)
Lemma scan_copy_notifies (message : Q → string) copy :
  ∀ manager pending manager' pending' out,
  scan_copy tolerance (λ m a, trigger_alert m (message a)) current_price
            copy manager pending
  = Some (manager', pending', out) →
  alerts manager' = alerts manager
  ∧ active_alerts manager' = active_alerts manager ∪ list_to_set out
  ∧ NoDup out
  ∧ ∀ k, k ∈ out
         ↔ (k ∉ active_alerts manager)
           ∧ ∃ a, a ∈ copy ∧ near tolerance current_price a = true
                  ∧ message a = k.
Proof.
  induction copy as [|a copy IH]; intros manager pending manager' pending' out;
    cbn [scan_copy].
  - intros [= <- <- <-]. split; [done|]. simpl.
    split; [by rewrite (right_id_L ∅ (∪))|]. split; [constructor|].
    intros k. split; [by intros ?%elem_of_nil|].
    by intros (_ & a & ?%elem_of_nil & _).
  - destruct (near tolerance current_price a) eqn:Ha.
    + destruct (trigger_alert manager (message a)) as [manager1 out1] eqn:Hfire.
      destruct (Py.remove a pending) as [pending1|]; [|done].
      cbn [mbind option_bind].
      destruct (scan_copy _ _ _ copy manager1 pending1) as [[[m p] o]|] eqn:Hrec;
        [|done].
      cbn [mbind option_bind]. intros [= <- <- <-].
      destruct (IH _ _ _ _ _ Hrec) as (Ha2 & Hact2 & Hnd2 & Hiff2).
      unfold trigger_alert in Hfire. case_decide as Hin; injection Hfire as <- <-.
      * simpl. split; [done|]. split; [done|]. split; [done|].
        intros k. rewrite Hiff2. split.
        -- intros (Hk & b & Hb & Hnear & Hmsg). split; [done|].
           exists b. split; [by right|done].
        -- intros (Hk & b & [->|Hb]%elem_of_cons & Hnear & Hmsg).
           ++ by subst k.
           ++ split; [done|]. by exists b.
      * simpl in *. split; [done|].
        split; [by rewrite Hact2, (assoc_L (∪))|].
        split.
        -- constructor; [|done]. rewrite Hiff2. intros [Hk _]. apply Hk.
           apply elem_of_union. right. by apply elem_of_singleton.
        -- intros k. rewrite elem_of_cons, Hiff2. split.
           ++ intros [->|(Hk & b & Hb & Hnear & Hmsg)].
              ** split; [done|]. exists a. split; [by left|done].
              ** split.
                 { intros Hk'. apply Hk. apply elem_of_union. by left. }
                 exists b. split; [by right|done].
           ++ intros (Hk & b & Hb & Hnear & Hmsg).
              destruct (decide (k = message a)) as [->|Hne]; [by left|].
              right. split.
              ** intros [Hk'| ->%elem_of_singleton]%elem_of_union; done.
              ** apply elem_of_cons in Hb as [->|Hb]; [done|]. by exists b.
    + intros Hrec. destruct (IH _ _ _ _ _ Hrec) as (Ha2 & Hact2 & Hnd2 & Hiff2).
      split; [done|]. split; [done|]. split; [done|].
      intros k. rewrite Hiff2. split.
      * intros (Hk & b & Hb & Hnear & Hmsg). split; [done|].
        exists b. split; [by right|done].
      * intros (Hk & b & [->|Hb]%elem_of_cons & Hnear & Hmsg); [congruence|].
        split; [done|]. by exists b.
Qed.

End MorePriceAlertFacts.

Section NotifiedFacts.
Import Alerts PriceAlerts.
Implicit Types (manager : AlertManager) (out : list string).

Lemma notified_refl manager : notified manager manager [].
Proof.
  split; [done|]. simpl. split; [by rewrite (right_id_L ∅ (∪))|].
  split; [constructor|]. by intros k ?%elem_of_nil.
Qed.

Lemma notified_app manager manager1 manager2 out1 out2 :
  notified manager manager1 out1 →
  notified manager1 manager2 out2 →
  notified manager manager2 (out1 ++ out2).
Proof.
  intros (Ha1 & Hs1 & Hnd1 & Hout1) (Ha2 & Hs2 & Hnd2 & Hout2).
  split; [congruence|].
  split; [by rewrite Hs2, Hs1, list_to_set_app_L, (assoc_L (∪))|].
  split.
  - apply NoDup_app. split; [done|]. split; [|done].
    intros k Hk1 Hk2. apply (Hout2 k Hk2). rewrite Hs1.
    apply elem_of_union. right. by apply elem_of_list_to_set.
  - intros k [Hk|Hk]%elem_of_app; [by apply Hout1|].
    intros Hin. apply (Hout2 k Hk). rewrite Hs1. apply elem_of_union. by left.
Qed.

Lemma trigger_alert_notified manager message :
  notified manager (trigger_alert manager message).1
                   (trigger_alert manager message).2.
Proof.
  unfold trigger_alert. case_decide as Hin; simpl; [apply notified_refl|].
  split; [done|]. simpl.
  split; [by rewrite (right_id_L ∅ (∪))|]. split.
  - apply NoDup_singleton.
  - by intros k ->%list_elem_of_singleton.
Qed.

Lemma check_each_notified price calls manager manager' out :
  check_each manager price calls = Some (manager', out) →
  notified manager manager' out.
Proof.
  intros H.
  pose proof (check_each_grows _ _ _ _ _ H) as (Ha & _ & Hout).
  pose proof (check_each_emits _ _ _ _ _ H) as [Hnd _].
  split; [done|]. split; [by eapply check_each_active|]. split; [done|].
  intros k Hk. by apply Hout.
Qed.

Section Scans.
Variables (tolerance current_price : Q).
Variable fire : AlertManager → Q → AlertManager * list string.
Hypothesis fire_notified :
  ∀ manager a, notified manager (fire manager a).1 (fire manager a).2.

Lemma scan_copy_notified copy : ∀ manager pending manager' pending' out,
  scan_copy tolerance fire current_price copy manager pending
  = Some (manager', pending', out) →
  notified manager manager' out.
Proof.
  induction copy as [|a copy IH]; intros manager pending manager' pending' out;
    cbn [scan_copy].
  - intros [= <- <- <-]. apply notified_refl.
  - destruct (near tolerance current_price a); [|by apply IH].
    pose proof (fire_notified manager a) as Hfire.
    destruct (fire manager a) as [manager1 out1].
    destruct (Py.remove a pending) as [pending1|]; [|done].
    cbn [mbind option_bind].
    destruct (scan_copy _ _ _ copy manager1 pending1) as [[[m p] o]|] eqn:Hrec;
      [|done].
    cbn [mbind option_bind]. intros [= <- <- <-].
    eapply notified_app; [exact Hfire|by eapply IH].
Qed.

Lemma scan_live_notified fuel : ∀ i manager pending manager' pending' out,
  scan_live fuel tolerance fire current_price i manager pending
  = Some (manager', pending', out) →
  notified manager manager' out.
Proof.
  induction fuel as [|fuel IH]; intros i manager pending manager' pending' out;
    cbn [scan_live]; [done|].
  destruct (pending !! i) as [a|]; [|intros [= <- <- <-]; apply notified_refl].
  destruct (near tolerance current_price a); [|by apply IH].
  pose proof (fire_notified manager a) as Hfire.
  destruct (fire manager a) as [manager1 out1].
  destruct (Py.remove a pending) as [pending1|]; [|done].
  cbn [mbind option_bind].
  destruct (scan_live fuel _ _ _ _ manager1 pending1) as [[[m p] o]|] eqn:Hrec;
    [|done].
  cbn [mbind option_bind]. intros [= <- <- <-].
  eapply notified_app; [exact Hfire|by eapply IH].
Qed.

(** A scan over a copy removes from the list only what it took from the
    copy. *)
Lemma scan_copy_sublist copy : ∀ manager pending manager' pending' out,
  scan_copy tolerance fire current_price copy manager pending
  = Some (manager', pending', out) →
  pending' `sublist_of` pending.
Proof.
  induction copy as [|a copy IH]; intros manager pending manager' pending' out;
    cbn [scan_copy].
  - by intros [= <- <- <-].
  - destruct (near tolerance current_price a) eqn:Ha; [|by apply IH].
    destruct (fire manager a) as [manager1 out1].
    destruct (Py.remove a pending) as [pending1|] eqn:Hrem; [|done].
    cbn [mbind option_bind].
    destruct (scan_copy _ _ _ copy manager1 pending1) as [[[m p] o]|] eqn:Hrec;
      [|done].
    cbn [mbind option_bind]. intros [= <- <- <-].
    apply IH in Hrec.
    destruct (remove_near_filter _ _ _ _ _ Ha Hrem) as [_ Hsub].
    by etransitivity.
Qed.

End Scans.

End NotifiedFacts.

Section MoreIndicatorFacts.
Import Indicators.
Implicit Types (v : variant) (ta : TaLibrary).
Implicit Types (candles : gmap string (list Candle)).

(** What the loop returns, when it returns, is the design's output. *)
Lemma calculate_loop_inv v ta candles tfs : ∀ acc indicators,
  calculate_loop v ta candles tfs acc = Returns indicators →
  indicators = acc ++ reported v ta candles tfs.
Proof.
  induction tfs as [|tf tfs IH]; intros acc indicators.
  - simpl. intros [= <-]. by rewrite app_nil_r.
  - rewrite reported_cons. cbn [calculate_loop].
    destruct (candles !! tf) as [df|]; [|done].
    destruct (length df <? 20)%nat; [by apply IH|].
    destruct (timeframe_entry v ta (close <$> df)) as [entry|]; [|done].
    simpl. intros ->%IH. by rewrite <-app_assoc.
Qed.

Lemma reported_sublist v ta candles tfs :
  (reported v ta candles tfs).*1 `sublist_of` tfs.
Proof.
  induction tfs as [|tf tfs IH]; [done|].
  rewrite reported_cons, fmap_app.
  destruct (candles !! tf) as [df|]; [|by apply sublist_cons].
  destruct (length df <? 20)%nat; [by apply sublist_cons|].
  destruct (timeframe_entry v ta (close <$> df)) as [entry|];
    [|by apply sublist_cons].
  by apply sublist_skip.
Qed.

(** The loop reads the closes of the series, and nothing else of them. *)
Lemma calculate_loop_closes v ta candles1 candles2 tfs : ∀ acc,
  (∀ tf, tf ∈ tfs →
     fmap close <$> candles1 !! tf = fmap close <$> candles2 !! tf) →
  calculate_loop v ta candles1 tfs acc = calculate_loop v ta candles2 tfs acc.
Proof.
  induction tfs as [|tf tfs IH]; intros acc Hsame; [done|].
  cbn [calculate_loop].
  assert (∀ acc', calculate_loop v ta candles1 tfs acc'
                  = calculate_loop v ta candles2 tfs acc') as Hrec.
  { intros acc'. apply IH. intros tf' Htf'. apply Hsame. by right. }
  specialize (Hsame tf (list_elem_of_here _ _)).
  destruct (candles1 !! tf) as [df1|], (candles2 !! tf) as [df2|]; try done.
  simpl in Hsame. injection Hsame as Hsame.
  assert (length df1 = length df2) as ->.
  { by rewrite <-(length_fmap close df1), Hsame, length_fmap. }
  rewrite Hsame.
  destruct (length df2 <? 20)%nat; [done|].
  destruct (timeframe_entry v ta (close <$> df2)); [|done]. simpl. apply Hrec.
Qed.

(** The values of an entry of the web variant. *)
Lemma web_entry_two_decimals ta closes entry name value :
  timeframe_entry web ta closes = Returns entry →
  (name, value) ∈ entry →
  match value with
  | Num x => two_decimals x
  | Bands bands => ∀ band x, (band, x) ∈ bands → two_decimals x
  end.
Proof.
  simpl. unfold indicator_set.
  destruct (rsi ta 14 closes); [|done].
  destruct (ema_indicator ta 20 closes); [|done].
  destruct (ema_indicator ta 50 closes); [|done].
  destruct (ema_indicator ta 200 closes); [|done].
  destruct (bollinger_entry web ta closes) as [bb|] eqn:Hbb; [|done].
  apply bollinger_entry_returns in Hbb as (upper & middle & lower & _ & _ & _ & ->).
  cbn [bind_outcome rounded]. intros [= <-] Hin.
  repeat (apply elem_of_cons in Hin as [[= -> ->]|Hin];
          [first [apply round2_idem
                 |intros band x Hx;
                  repeat (apply elem_of_cons in Hx as [[= -> ->]|Hx];
                          [apply round2_idem|]);
                  by apply elem_of_nil in Hx]|]).
  by apply elem_of_nil in Hin.
Qed.

(** In the Kivy variant the loop returns whenever the series are there. *)
Lemma kivy_calculate_indicators_returns ta candles :
  (∀ tf, tf ∈ TIMEFRAMES → is_Some (candles !! tf)) →
  calculate_indicators kivy ta candles
  = Returns (reported kivy ta candles TIMEFRAMES).
Proof.
  intros Hkeys. unfold calculate_indicators.
  rewrite (calculate_loop_returns kivy ta candles TIMEFRAMES []); [done|done|].
  intros tf df _ _ _. by eexists.
Qed.

End MoreIndicatorFacts.

Section BucketFacts.
Import BinanceWebSocket CandleAggregator.
Implicit Types (v : variant) (candles : gmap string (list Candle)).
Implicit Types (cs : list Candle) (c : Candle).

(** A feed, one series at a time. *)
Lemma feed_series v trades : ∀ candles,
  timeframe_keys candles →
  ∃ candles',
    feed v candles trades = Some candles'
    ∧ timeframe_keys candles'
    ∧ ∀ tf cs, candles !! tf = Some cs →
        ∃ secs, get_seconds tf = Some secs
                ∧ candles' !! tf = Some (series_feed v secs cs trades).
Proof.
  induction trades as [|[p T] trades IH]; intros candles Hkeys.
  - exists candles. split; [done|]. split; [done|]. intros tf cs Hcs.
    destruct (proj1 (get_seconds_timeframes tf)) as [secs Hsecs];
      [apply Hkeys; by eexists|].
    by exists secs.
  - destruct (on_message_step v candles p T Hkeys)
      as (candles1 & Hmsg & Hkeys1 & Hstep & _).
    destruct (IH candles1 Hkeys1) as (candles' & Hfeed & Hkeys' & Hseries).
    exists candles'. split.
    { cbn [feed]. rewrite Hmsg. simpl. exact Hfeed. }
    split; [done|]. intros tf cs Hcs.
    destruct (Hstep _ _ Hcs) as (secs & Hsecs & Hcs1).
    destruct (Hseries _ _ Hcs1) as (secs' & Hsecs' & Hcs').
    rewrite Hsecs in Hsecs'. injection Hsecs' as <-.
    by exists secs.
Qed.

Lemma rounded_max v a b :
  rounded v a = a → rounded v b = b → rounded v (Py.max a b) = Py.max a b.
Proof. unfold Py.max. by destruct (Qlt_le_dec a b). Qed.

Lemma rounded_min v a b :
  rounded v a = a → rounded v b = b → rounded v (Py.min a b) = Py.min a b.
Proof. unfold Py.min. by destruct (Qlt_le_dec b a). Qed.

Lemma default_last_cons {A} (d x : A) (l : list A) :
  default d (last (x :: l)) = default x (last l).
Proof.
  destruct l as [|y l]; [done|].
  change (last (x :: y :: l)) with (last (y :: l)).
  destruct (last (y :: l)) eqn:H; [done|]. by apply last_None in H.
Qed.

(** Trades that fall in the bucket of the last candle leave its time and
    its open, and make it the summary of their prices. *)
Lemma series_feed_bucket v secs trades : ∀ cs c,
  last cs = Some c →
  rounded v (high c) = high c →
  rounded v (low c) = low c →
  (∀ trade, trade ∈ trades → (trade.2 - time c < secs * 1000)%Z) →
  last (series_feed v secs cs trades)
  = Some {| time := time c;
            open := open c;
            high := highest (high c) (rounded v <$> trades.*1);
            low := lowest (low c) (rounded v <$> trades.*1);
            close := default (close c) (last (rounded v <$> trades.*1)) |}.
Proof.
  induction trades as [|[p T] trades IH]; intros cs c Hlast Hhigh Hlow Hin.
  - simpl. rewrite Hlast. by destruct c.
  - unfold series_feed. cbn [foldl fst snd].
    destruct (series_step_update v secs cs c (rounded v p) T Hlast)
      as (init & -> & ->); [by apply (Hin (p, T)); left|].
    fold (series_feed v secs
            (init ++ [update_last_candle v c (rounded v p)]) trades).
    rewrite (IH _ (update_last_candle v c (rounded v p)));
      [|by rewrite last_snoc
       |by simpl; rewrite !rounded_idem
       |by simpl; rewrite !rounded_idem
       |by intros trade Htrade; apply Hin; right].
    rewrite !fmap_cons. unfold highest, lowest.
    cbn [fst foldl update_last_candle time open high low close].
    rewrite !rounded_idem.
    rewrite (rounded_max v (high c) (rounded v p) Hhigh (rounded_idem v p)).
    rewrite (rounded_min v (low c) (rounded v p) Hlow (rounded_idem v p)).
    by rewrite default_last_cons.
Qed.

End BucketFacts.

(** ** The bucket table, the calls of a cycle and the reported bands *)

Section TableFacts.
Import BinanceWebSocket.

(** The bucket length of each timeframe. *)
Lemma get_seconds_table tf secs :
  get_seconds tf = Some secs
  ↔ (tf, secs) ∈ [("1m", 60); ("30m", 1800); ("1h", 3600);
                  ("4h", 14400)]%string%Z.
Proof.
  unfold get_seconds. split.
  - intros H.
    repeat (apply lookup_insert_Some in H as [[<- <-]|[_ H]];
            [repeat first [by left|right]|]).
    apply lookup_singleton_Some in H as [<- <-].
    repeat first [by left|right].
  - intros H.
    repeat (apply elem_of_cons in H as [[= -> ->]|H]; [done|]).
    by apply elem_of_nil in H.
Qed.

End TableFacts.

Section CycleCalls.
Import Alerts.
Implicit Types (self : AlertManager).
Implicit Types (indicators : list (string * list (string * IndicatorValue))).

Lemma mapM_elem_of {A B} (f : A → option B) (l : list A) (k : list B) :
  mapM f l = Some k →
  (∀ x, x ∈ l → ∃ y, f x = Some y ∧ y ∈ k)
  ∧ (∀ y, y ∈ k → ∃ x, x ∈ l ∧ f x = Some y).
Proof.
  intros H%mapM_Some. induction H as [|x y l k Hxy H IH].
  - split; intros ? ?%elem_of_nil; done.
  - destruct IH as [IH1 IH2]. split.
    + intros x' [->|Hin]%elem_of_cons.
      * exists y. split; [done|by left].
      * destruct (IH1 _ Hin) as (y' & ? & ?). exists y'. split; [done|by right].
    + intros y' [->|Hin]%elem_of_cons.
      * exists x. split; [by left|done].
      * destruct (IH2 _ Hin) as (x' & ? & ?). exists x'. split; [by right|done].
Qed.

(** The calls of [check_alerts] for one item. *)
Lemma calls_of_item_elem tf name value calls val key :
  calls_of_item tf (name, value) = Some calls →
  (val, key) ∈ calls
  ↔ (value = Num val ∧ key = (tf +:+ "_" +:+ name)%string)
    ∨ ∃ bands band, value = Bands bands ∧ (band, val) ∈ bands
        ∧ key = (tf +:+ "_" +:+ name +:+ "_" +:+ band)%string.
Proof.
  unfold calls_of_item. destruct (String.eqb name "BB").
  - destruct value as [x|bands]; [done|]. intros [= <-].
    rewrite list_elem_of_fmap. split.
    + intros ([band v] & [= -> ->] & Hin). right. by exists bands, band.
    + intros [[[=] _]|(bands' & band & [= <-] & Hin & ->)].
      by exists (band, val).
  - destruct value as [x|bands]; [|done]. intros [= <-].
    rewrite list_elem_of_singleton. split.
    + intros [= -> ->]. by left.
    + intros [[[= ->] ->]|(bands & band & [=] & _)]. done.
Qed.

(** The calls of a cycle are the values it has to evaluate. *)
Lemma calls_evaluated indicators calls val key :
  mapM calls_of_timeframe indicators = Some calls →
  (val, key) ∈ concat calls ↔ ∃ tf name, evaluated indicators key tf name val.
Proof.
  intros Hcalls. destruct (mapM_elem_of _ _ _ Hcalls) as [Hfwd Hbwd].
  rewrite elem_of_concat. unfold evaluated. split.
  - intros (c & Hin & Hc).
    destruct (Hbwd _ Hc) as ([tf entry] & Hentry & Hcall).
    unfold calls_of_timeframe in Hcall.
    destruct (mapM (calls_of_item tf) entry) as [cs|] eqn:Hcs; [|done].
    injection Hcall as <-. apply elem_of_concat in Hin as (c' & Hin & Hc').
    destruct (proj2 (mapM_elem_of _ _ _ Hcs) _ Hc') as ([name value] & Hitem & Hc'').
    exists tf, name, entry. split; [done|].
    apply (calls_of_item_elem _ _ _ _ val key Hc'') in Hin
      as [[-> ->]|(bands & band & -> & Hband & ->)]; [by left|].
    right. by exists bands, band.
  - intros (tf & name & entry & Hentry & Hitem).
    destruct (Hfwd _ Hentry) as (c & Hcall & Hc).
    exists c. split; [|done].
    unfold calls_of_timeframe in Hcall.
    destruct (mapM (calls_of_item tf) entry) as [cs|] eqn:Hcs; [|done].
    injection Hcall as <-. apply elem_of_concat.
    destruct Hitem as [[Hin ->]|(bands & band & Hin & Hband & ->)].
    + destruct (proj1 (mapM_elem_of _ _ _ Hcs) _ Hin) as (c' & Hc' & Hin').
      exists c'. split; [|done].
      apply (calls_of_item_elem _ _ _ _ val _ Hc'). by left.
    + destruct (proj1 (mapM_elem_of _ _ _ Hcs) _ Hin) as (c' & Hc' & Hin').
      exists c'. split; [|done].
      apply (calls_of_item_elem _ _ _ _ val _ Hc'). right. by exists bands, band.
Qed.

(** The alert check of a cycle in the three variants: what it notifies. *)
Lemma indicator_alerts_emits v self price indicators :
  rules_total self →
  indicators_shaped indicators →
  ∃ self' out,
    Evaluation.indicator_alerts v self price indicators = Some (self', out)
    ∧ notified self self' out
    ∧ ∀ k, k ∈ out
        ↔ (k ∉ active_alerts self)
          ∧ ∃ tf name value row cfg,
              evaluated indicators k tf name value
              ∧ alerts self !! tf = Some row
              ∧ row !! name = Some cfg
              ∧ enabled cfg = true
              ∧ Py.abs (rounded v price - value)
                <= threshold cfg / 100 * rounded v price.
Proof.
  intros Hrules Hshape.
  assert (∀ price',
    ∃ self' out,
      check_alerts self price' indicators = Some (self', out)
      ∧ notified self self' out
      ∧ ∀ k, k ∈ out
          ↔ (k ∉ active_alerts self)
            ∧ ∃ tf name value row cfg,
                evaluated indicators k tf name value
                ∧ alerts self !! tf = Some row
                ∧ row !! name = Some cfg
                ∧ enabled cfg = true
                ∧ Py.abs (price' - value) <= threshold cfg / 100 * price')
    as Hcheck.
  { intros price'.
    destruct (check_alerts_returns self price' indicators Hrules Hshape)
      as [[self' out] Hret].
    exists self', out. split; [done|]. unfold check_alerts in Hret.
    destruct (mapM calls_of_timeframe indicators) as [calls|] eqn:Hcalls;
      [|done].
    simpl in Hret. split; [by eapply check_each_notified|].
    destruct (check_each_emits _ _ _ _ _ Hret) as [_ Hiff].
    assert (∀ k tf name value,
              evaluated indicators k tf name value →
              ∃ row cfg, alerts self !! tf = Some row ∧ row !! name = Some cfg
                ∧ rule_fires (alerts self) price' value k
                  = Some (enabled cfg
                          && Qle_bool (Py.abs (price' - value))
                                      (threshold cfg / 100 * price')))
      as Hrule.
    { intros k tf name value (entry & Hentry & Hitem).
      destruct (Hshape _ _ Hentry) as [Htf Hnames].
      destruct (Hrules tf Htf) as (row & Hrow & Hrowtotal).
      assert (name ∈ INDICATORS
              ∧ ∃ rest, k = (tf +:+ "_" +:+ name +:+ rest)%string
                  ∧ (rest = EmptyString ∨ ∃ band, rest = ("_" +:+ band)%string))
        as (Hname & rest & -> & Hrest).
      { destruct Hitem as [[Hin ->]|(bands & band & Hin & _ & ->)].
        - split; [by eapply Hnames|]. exists EmptyString.
          rewrite append_empty_r. split; [done|by left].
        - split; [by eapply Hnames|]. exists ("_" +:+ band)%string.
          split; [done|]. right. by eexists. }
      destruct (Hrowtotal name Hname) as [cfg Hcfg].
      exists row, cfg. split; [done|]. split; [done|].
      apply (rule_fires_rule _ _ _ tf name rest row cfg); try done.
      - by apply timeframes_no_underscore.
      - by apply indicators_no_underscore. }
    intros k. rewrite Hiff. split.
    - intros (Hk & value & Hcall & Hfires). split; [done|].
      apply (calls_evaluated _ _ _ _ Hcalls) in Hcall as (tf & name & Heval).
      destruct (Hrule _ _ _ _ Heval) as (row & cfg & Hrow & Hcfg & Hf).
      rewrite Hf in Hfires. injection Hfires as Hfires.
      apply andb_true_iff in Hfires as [He Hle].
      apply Qle_bool_iff in Hle.
      by exists tf, name, value, row, cfg.
    - intros (Hk & tf & name & value & row & cfg & Heval & Hrow & Hcfg & He & Hle).
      split; [done|]. exists value. split.
      + apply (calls_evaluated _ _ _ _ Hcalls). by exists tf, name.
      + destruct (Hrule _ _ _ _ Heval) as (row' & cfg' & Hrow' & Hcfg' & ->).
        rewrite Hrow in Hrow'. injection Hrow' as <-.
        rewrite Hcfg in Hcfg'. injection Hcfg' as <-.
        rewrite He. apply Qle_bool_iff in Hle. by rewrite Hle. }
  destruct v; cbn [Evaluation.indicator_alerts rounded]; [apply Hcheck| |apply Hcheck].
  destruct (Hcheck price) as (self' & out & Hret & Hrest).
  exists self', out. split; [|done]. rewrite <-Hret.
  unfold KivyAlerts.check_alerts, check_alerts.
  destruct indicators as [|item indicators]; [done|].
  destruct (mapM calls_of_timeframe (item :: indicators)) as [calls|] eqn:Hcalls;
    [|done].
  simpl. apply kivy_check_each_agrees; [done|].
  by apply calls_of_shaped with (item :: indicators).
Qed.

End CycleCalls.

Section BandsFacts.
Import Indicators.

(** On binary64 numbers the two bands are not at the same distance from
    the average: with the average at 65530.0 and the deviation the number
    nearest to 10.3, the upper band falls among the numbers above 65536,
    which are twice as far apart as those below, and [upper - mavg] is
    larger than [mavg - lower]. *)
Lemma binary64_bands_not_symmetric :
  let mavg := Binary64.of_Z 65530 in
  let stddev := S754_finite false 5798384520239514 (-49) in
  let upper := BollingerBinary64.upper_band mavg (Binary64.of_Z 2) stddev in
  let lower := BollingerBinary64.lower_band mavg (Binary64.of_Z 2) stddev in
  SFcompare (BollingerBinary64.minus upper mavg)
            (BollingerBinary64.minus mavg lower) = Some Gt.
Proof. by vm_compute. Qed.

(** A loop that returned had every series, and an entry for every series
    that passes the gate. *)
Lemma calculate_loop_entries v ta candles tfs : ∀ acc indicators,
  calculate_loop v ta candles tfs acc = Returns indicators →
  ∀ tf, tf ∈ tfs →
    ∃ df, candles !! tf = Some df
      ∧ ((20 ≤ length df)%nat →
         ∃ entry, timeframe_entry v ta (close <$> df) = Returns entry).
Proof.
  induction tfs as [|tf0 tfs IH]; intros acc indicators Hret tf Htf.
  - by apply elem_of_nil in Htf.
  - cbn [calculate_loop] in Hret.
    destruct (candles !! tf0) as [df0|] eqn:Hdf0; [|done].
    destruct (length df0 <? 20)%nat eqn:Hlen.
    + apply elem_of_cons in Htf as [->|Htf]; [|by eapply IH].
      exists df0. split; [done|]. apply Nat.ltb_lt in Hlen. lia.
    + destruct (timeframe_entry v ta (close <$> df0)) as [entry|] eqn:He;
        [|done].
      simpl in Hret.
      apply elem_of_cons in Htf as [->|Htf]; [|by eapply IH].
      exists df0. split; [done|]. intros _. by exists entry.
Qed.

(** The bands of an entry are the three numbers of the package, each
    rounded on its own in the web variant. *)
Lemma timeframe_entry_bands v ta closes entry u m l :
  timeframe_entry v ta closes = Returns entry →
  bollinger_hband ta 20 2 closes = Returns u →
  bollinger_mavg ta 20 2 closes = Returns m →
  bollinger_lband ta 20 2 closes = Returns l →
  ("BB"%string, Bands [("upper", rounded v u); ("middle", rounded v m);
                       ("lower", rounded v l)]%string) ∈ entry.
Proof.
  intros Hentry Hu Hm Hl.
  assert (∀ v', bollinger_entry v' ta closes
                = Returns (Bands [("upper", rounded v' u);
                                  ("middle", rounded v' m);
                                  ("lower", rounded v' l)]%string)) as Hbb.
  { intros v'. unfold bollinger_entry. by rewrite Hu, Hm, Hl. }
  assert (∀ v', indicator_set v' ta closes = Returns entry →
            ("BB"%string, Bands [("upper", rounded v' u);
                                 ("middle", rounded v' m);
                                 ("lower", rounded v' l)]%string) ∈ entry)
    as Hset.
  { intros v'. unfold indicator_set. rewrite Hbb.
    destruct (rsi ta 14 closes); [|done].
    destruct (ema_indicator ta 20 closes); [|done].
    destruct (ema_indicator ta 50 closes); [|done].
    destruct (ema_indicator ta 200 closes); [|done].
    simpl. intros [= <-]. repeat first [by left|right]. }
  destruct v; simpl in Hentry; [by apply Hset| |by apply Hset].
  injection Hentry as <-. unfold indicator_set_guarded. rewrite Hbb. simpl.
  repeat first [by left|right].
Qed.

(** Rounding moves a value by half a cent at most. *)
Lemma rounded_close v x : Qabs (rounded v x - x) <= 1 # 200.
Proof.
  destruct v; cbn [rounded]; [|
                              |apply round2_close];
    (assert (x - x == 0) as -> by ring); by vm_compute.
Qed.

Lemma lastn_length {A} (n : nat) (l : list A) :
  (n ≤ length l)%nat → length (BollingerModel.lastn n l) = n.
Proof. intros H. unfold BollingerModel.lastn. rewrite length_drop. lia. Qed.

End BandsFacts.

Section CallFacts.
Import Indicators.
Implicit Types (v : variant) (ta : TaLibrary) (closes : list Q).


(** Without a guard, a call that raises makes the body of the loop raise. *)
Lemma indicator_set_raises v ta closes :
  call_raises ta closes → ∃ e, indicator_set v ta closes = Raises e.
Proof.
  intros Hraise. unfold indicator_set, bollinger_entry.
  destruct (rsi ta 14 closes) eqn:Hr; [|by eexists].
  destruct (ema_indicator ta 20 closes) eqn:H20; [|by eexists].
  destruct (ema_indicator ta 50 closes) eqn:H50; [|by eexists].
  destruct (ema_indicator ta 200 closes) eqn:H200; [|by eexists].
  destruct (bollinger_hband ta 20 2 closes) eqn:Hu; [|by eexists].
  destruct (bollinger_mavg ta 20 2 closes) eqn:Hm; [|by eexists].
  destruct (bollinger_lband ta 20 2 closes) eqn:Hl; [|by eexists].
  destruct Hraise as [[e H]|[[e H]|[[e H]|[[e H]|[[e H]|[[e H]|[e H]]]]]]];
    congruence.
Qed.

End CallFacts.

(** * Part III: the claims of the specification *)

Section Claims_aggregator.
Import BinanceWebSocket CandleAggregator.

(** C1. Every message of the feed is applied to every timeframe. The
    bucket length of a timeframe is the one [get_seconds] has for it: 60
    seconds for 1m, 1800 for 30m, 3600 for 1h and 14400 for 4h, and there is
    no other timeframe. When the series is empty, or at least the bucket
    length of its timeframe has elapsed since the open time of the last
    candle, a candle with open = high = low = close = the tick price and the
    tick's time stamp is appended (and the oldest dropped when the capacity
    is exceeded); otherwise the last candle is updated in place: close =
    price, high = max(high, price), low = min(low, price), open and open
    time unchanged. The tick price is the price [on_message] records, which
    the web variant has rounded to two decimals; there the extremes of the
    last candle are two-decimal values, as every value the aggregator
    stores. *)
Theorem ingest_opens_or_updates (v : variant)
    (candles : gmap string (list Candle)) (p : Q) (T : Z) :
  timeframe_keys candles →
  (∀ tf cs c, candles !! tf = Some cs → last cs = Some c →
              extremes_rounded v c) →
  let price := rounded v p in
  ∃ candles',
    on_message v candles p T = (price, Some candles')
    ∧ (∀ tf secs,
         get_seconds tf = Some secs
         ↔ (tf, secs) ∈ [("1m", 60); ("30m", 1800); ("1h", 3600);
                         ("4h", 14400)]%string%Z)
    ∧ (∀ tf, tf ∈ TIMEFRAMES ↔ tf ∈ ["1m"; "30m"; "1h"; "4h"]%string)
    ∧ ∀ tf cs, candles !! tf = Some cs →
        ∃ secs, get_seconds tf = Some secs
          ∧ (tf, secs) ∈ [("1m", 60); ("30m", 1800); ("1h", 3600);
                          ("4h", 14400)]%string%Z
          ∧ secs ∈ [60; 1800; 3600; 14400]%Z
          ∧ ((cs = [] ∨ ∃ c, last cs = Some c ∧ (secs * 1000 ≤ T - time c)%Z) →
               candles' !! tf
               = Some (evict (capacity v) (cs ++ [new_candle price T])))
          ∧ (∀ c, last cs = Some c → (T - time c < secs * 1000)%Z →
               ∃ init c', cs = init ++ [c]
                 ∧ candles' !! tf = Some (init ++ [c'])
                 ∧ time c' = time c ∧ open c' = open c
                 ∧ close c' = price
                 ∧ high c' == Py.max (high c) price
                 ∧ low c' == Py.min (low c) price).
Proof.
  intros Hkeys Hok price.
  destruct (on_message_step v candles p T Hkeys)
    as (candles' & Hmsg & _ & Hstep & _).
  exists candles'. split; [done|].
  split; [apply get_seconds_table|]. split; [done|]. intros tf cs Hcs.
  destruct (Hstep _ _ Hcs) as (secs & Hsecs & Hcs').
  exists secs. split; [done|]. split; [by apply get_seconds_table|].
  split; [by eapply get_seconds_values|].
  fold price in Hcs'. split.
  - intros Hnew. rewrite Hcs'. f_equal.
    rewrite (series_step_new _ _ _ _ _ Hnew). unfold price.
    by rewrite rounded_idem.
  - intros c Hlast Hlt.
    destruct (series_step_update v secs cs c price T Hlast Hlt)
      as (init & -> & Hupd).
    exists init, (update_last_candle v c price).
    rewrite Hcs', Hupd. repeat split; simpl.
    + unfold price. by rewrite rounded_idem.
    + destruct (Hok _ _ c Hcs Hlast) as [Hh _].
      destruct (max_cases (high c) price) as [[_ ->]|[_ ->]]; [|done].
      unfold price. by rewrite rounded_idem.
    + destruct (Hok _ _ c Hcs Hlast) as [_ Hl].
      destruct (min_cases (low c) price) as [[_ ->]|[_ ->]]; [|done].
      unfold price. by rewrite rounded_idem.
Qed.

(** C2. After any feed every candle of every series has
    low ≤ open ≤ high and low ≤ close ≤ high, in the three variants; and a
    message never changes the open (nor the open time) of a candle that is
    already there: the list of (open time, open) pairs of a series is left
    as it is, or gets the new candle's pair at its end and loses its head
    when the capacity is exceeded. *)
Theorem candles_stay_ordered_and_keep_open (v : variant)
    (candles : gmap string (list Candle)) :
  aggregator_ok v candles →
  (∀ trades, ∃ candles',
      feed v candles trades = Some candles'
      ∧ ∀ tf cs c, candles' !! tf = Some cs → c ∈ cs →
          low c <= open c ∧ open c <= high c
          ∧ low c <= close c ∧ close c <= high c)
  ∧ (∀ p T, ∃ candles',
      (on_message v candles p T).2 = Some candles'
      ∧ ∀ tf cs, candles !! tf = Some cs →
          ∃ cs', candles' !! tf = Some cs'
            ∧ (birth <$> cs' = birth <$> cs
               ∨ birth <$> cs'
                 = evict (capacity v) ((birth <$> cs) ++ [(T, rounded v p)]))).
Proof.
  intros Hok. split.
  - intros trades. destruct (feed_ok v trades candles Hok) as (candles' & Hfeed & Hok').
    exists candles'. split; [done|]. intros tf cs c Hcs Hc.
    destruct Hok' as [_ Hser]. destruct (Hser _ _ Hcs) as (Hall & _).
    by destruct (Hall _ Hc) as [? _].
  - intros p T. destruct Hok as [Hkeys _].
    destruct (on_message_step v candles p T Hkeys)
      as (candles' & -> & _ & Hstep & _).
    exists candles'. split; [done|]. intros tf cs Hcs.
    destruct (Hstep _ _ Hcs) as (secs & _ & Hcs').
    eexists. split; [done|].
    pose proof (series_step_birth v secs cs (rounded v p) T) as Hb.
    by rewrite rounded_idem in Hb.
Qed.

(** C3. The capacity is 250 ([MAX_CANDLES]) in the web variant and 100 in
    the other two; after any feed no series is longer than the capacity and
    open times still increase along it; and when a message creates a candle
    in a series that is full, the series becomes its tail followed by the
    new candle: the candle at index 0, and only it, is dropped. *)
Theorem series_bounded_and_fifo (v : variant)
    (candles : gmap string (list Candle)) :
  aggregator_ok v candles →
  (capacity web = 250 ∧ capacity desktop = 100 ∧ capacity kivy = 100)%nat
  ∧ (∀ trades, ∃ candles',
      feed v candles trades = Some candles'
      ∧ ∀ tf cs, candles' !! tf = Some cs →
          (length cs ≤ capacity v)%nat ∧ chronological cs)
  ∧ (∀ p T tf cs, candles !! tf = Some cs →
      ∃ candles' cs' secs,
        (on_message v candles p T).2 = Some candles'
        ∧ candles' !! tf = Some cs'
        ∧ get_seconds tf = Some secs
        ∧ ((cs = [] ∨ ∃ c, last cs = Some c ∧ (secs * 1000 ≤ T - time c)%Z) →
             cs' = (if decide (length cs = capacity v) then drop 1 cs else cs)
                   ++ [new_candle (rounded v p) T])
        ∧ (∀ c, last cs = Some c → (T - time c < secs * 1000)%Z →
             length cs' = length cs)).
Proof.
  intros Hok. split; [done|]. split.
  - intros trades. destruct (feed_ok v trades candles Hok) as (candles' & Hfeed & Hok').
    exists candles'. split; [done|]. intros tf cs Hcs.
    destruct Hok' as [_ Hser]. by destruct (Hser _ _ Hcs) as (_ & ? & ?).
  - intros p T tf cs Hcs. destruct Hok as [Hkeys Hser].
    destruct (on_message_step v candles p T Hkeys)
      as (candles' & -> & _ & Hstep & _).
    destruct (Hstep _ _ Hcs) as (secs & Hsecs & Hcs').
    exists candles', (series_step v secs cs (rounded v p) T), secs.
    repeat split; try done.
    + intros Hnew. rewrite (series_step_new _ _ _ _ _ Hnew), rounded_idem.
      destruct (Hser _ _ Hcs) as (_ & Hlen & _).
      unfold evict. rewrite length_app. simpl.
      destruct (decide (length cs = capacity v)) as [Heq|Hne].
      * rewrite decide_True by lia. destruct cs; [|done].
        destruct v; discriminate Heq.
      * by rewrite decide_False by lia.
    + intros c Hlast Hlt.
      destruct (series_step_update v secs cs c (rounded v p) T Hlast Hlt)
        as (init & -> & ->).
      by rewrite !length_app.
Qed.

(** C10. A tick older than the open time of the last candle of a non-empty
    series does not raise and creates no candle: the last candle is updated
    in place, and the series that results is the one any tick of the same
    price inside the candle's bucket gives. *)
Theorem out_of_order_tick_updates_in_place (v : variant)
    (candles : gmap string (list Candle)) (p : Q) (T : Z)
    (tf : string) (cs : list Candle) (c : Candle) :
  timeframe_keys candles →
  candles !! tf = Some cs →
  last cs = Some c →
  (T < time c)%Z →
  ∃ candles' init secs,
    on_message v candles p T = (rounded v p, Some candles')
    ∧ cs = init ++ [c]
    ∧ candles' !! tf
      = Some (init ++ [update_last_candle v c (rounded v p)])
    ∧ get_seconds tf = Some secs
    ∧ Qle_bool (inject_Z secs) (total_seconds (T - time c)) = false
    ∧ ∀ T', (time c ≤ T' < time c + secs * 1000)%Z →
        ∃ candles'', on_message v candles p T' = (rounded v p, Some candles'')
                     ∧ candles'' !! tf = candles' !! tf.
Proof.
  intros Hkeys Hcs Hlast Hlt.
  destruct (on_message_step v candles p T Hkeys)
    as (candles' & Hmsg & _ & Hstep & _).
  destruct (Hstep _ _ Hcs) as (secs & Hsecs & Hcs').
  pose proof (get_seconds_pos _ _ Hsecs) as Hpos.
  destruct (series_step_update v secs cs c (rounded v p) T Hlast)
    as (init & Hinit & Hupd); [lia|].
  exists candles', init, secs. rewrite Hcs', Hupd.
  repeat split; try done.
  { destruct (Qle_bool _ _) eqn:Hle; [|done].
    apply elapsed_test in Hle. lia. }
  intros T' HT'.
  destruct (on_message_step v candles p T' Hkeys)
    as (candles'' & Hmsg' & _ & Hstep' & _).
  destruct (Hstep' _ _ Hcs) as (secs' & Hsecs' & Hcs'').
  rewrite Hsecs in Hsecs'. injection Hsecs' as <-.
  exists candles''. split; [done|]. rewrite Hcs''.
  destruct (series_step_update v secs cs c (rounded v p) T' Hlast)
    as (init' & Hinit' & ->); [lia|].
  rewrite Hinit in Hinit'. apply app_inj_tail in Hinit' as [<- _]. done.
Qed.

End Claims_aggregator.

Section Claims_alerts.
Import Alerts.

(** C4. For a key [tf_name] or [tf_name_band] whose rule is enabled, one
    evaluation by [check_single_alert] emits a notification for the key if
    and only if |price − value| ≤ threshold/100 × price and the key is not
    in [active_alerts]; the notification is the key alone and puts the key
    in the set; evaluating the same key again right after emits nothing,
    whatever the price; and as long as the key is in the set no later
    evaluation cycle emits it, since evaluations never remove a key. A
    whole cycle of evaluations emits each key at most once, and exactly the
    keys that were not in the set before the cycle and that one of its
    evaluations triggers; and [check_alerts] returns on every output of
    [calculate_indicators] when the rule table is the full one. What a
    cycle evaluates is the whole indicator output: in each variant the
    alert check of a cycle compares its current price (rounded to two
    decimals in the web variant) with every number of the output under the
    key [tf_name] and with each of the three bands under [tf_name_band]; it
    notifies exactly the keys that were not in the set and whose rule is
    enabled and triggered, each of them once, and the set after the cycle
    is the set before it and these keys. *)
Theorem indicator_alert_fires_once (self : AlertManager) (price value : Q)
    (tf name rest : string) (row : gmap string AlertConfig) (cfg : AlertConfig) :
  tf ∈ TIMEFRAMES →
  name ∈ INDICATORS →
  (rest = EmptyString ∨ ∃ band, rest = ("_" +:+ band)%string) →
  alerts self !! tf = Some row →
  row !! name = Some cfg →
  enabled cfg = true →
  let key := (tf +:+ "_" +:+ name +:+ rest)%string in
  let triggered := Py.abs (price - value) <= threshold cfg / 100 * price in
  ∃ self' out,
    check_single_alert self price value key = Some (self', out)
    ∧ (out = [key] ∨ out = [])
    ∧ (out = [key] ↔ triggered ∧ key ∉ active_alerts self)
    ∧ (out = [key] →
         self' = {| alerts := alerts self;
                    active_alerts := active_alerts self ∪ {[ key ]} |}
         ∧ ∀ price2 value2,
             check_single_alert self' price2 value2 key = Some (self', []))
    ∧ (out = [] → self' = self)
    ∧ (key ∈ active_alerts self →
         ∀ cycles self2 out2,
           check_cycles self cycles = Some (self2, out2) →
           (key ∉ out2) ∧ (key ∈ active_alerts self2))
    ∧ rule_fires (alerts self) price value key
      = Some (Qle_bool (Py.abs (price - value)) (threshold cfg / 100 * price))
    ∧ (∀ calls self2 out2,
         check_each self price calls = Some (self2, out2) →
         NoDup out2
         ∧ ∀ k, k ∈ out2
                ↔ (k ∉ active_alerts self)
                  ∧ ∃ value, (value, k) ∈ calls
                      ∧ rule_fires (alerts self) price value k = Some true)
    ∧ (rules_total self →
       ∀ indicators, indicators_shaped indicators →
         is_Some (check_alerts self price indicators))
    ∧ (rules_total self →
       ∀ v indicators, indicators_shaped indicators →
         ∃ self2 out2,
           Evaluation.indicator_alerts v self price indicators
           = Some (self2, out2)
           ∧ alerts self2 = alerts self
           ∧ active_alerts self2 = active_alerts self ∪ list_to_set out2
           ∧ NoDup out2
           ∧ ∀ k, k ∈ out2
               ↔ (k ∉ active_alerts self)
                 ∧ ∃ tf' name' value' row' cfg',
                     evaluated indicators k tf' name' value'
                     ∧ alerts self !! tf' = Some row'
                     ∧ row' !! name' = Some cfg'
                     ∧ enabled cfg' = true
                     ∧ Py.abs (rounded v price - value')
                       <= threshold cfg' / 100 * rounded v price).
Proof.
  intros Htf%timeframes_no_underscore Hname%indicators_no_underscore
         Hrest Hrow Hcfg Hen key triggered.
  pose proof (check_single_alert_rule self price value tf name rest row cfg
                Htf Hname Hrest Hrow Hcfg) as Hcall.
  fold key in Hcall. rewrite Hen in Hcall. cbn [andb] in Hcall.
  assert (∀ s, alerts s = alerts self → key ∈ active_alerts s →
               ∀ price2 value2,
                 check_single_alert s price2 value2 key = Some (s, []))
    as Hsilent.
  { intros s Hs Hin price2 value2. unfold key.
    rewrite (check_single_alert_rule s price2 value2 tf name rest row cfg);
      [|done|done|done|by rewrite Hs|done].
    fold key. rewrite (trigger_alert_silent _ _ Hin).
    by destruct (_ && _). }
  assert (key ∈ active_alerts self →
          ∀ cycles self2 out2,
            check_cycles self cycles = Some (self2, out2) →
            (key ∉ out2) ∧ (key ∈ active_alerts self2)) as Hnever.
  { intros Hin cycles self2 out2 Hcycles.
    apply check_cycles_grows in Hcycles as (_ & Hsub & Hout).
    split; [|by apply Hsub]. intros Hk. by destruct (Hout _ Hk). }
  assert (rule_fires (alerts self) price value key
          = Some (Qle_bool (Py.abs (price - value))
                           (threshold cfg / 100 * price))) as Hfires.
  { unfold key.
    rewrite (rule_fires_rule _ price value tf name rest row cfg) by done.
    by rewrite Hen. }
  pose proof (check_each_emits price) as Hcycle.
  assert (rules_total self →
          ∀ v indicators, indicators_shaped indicators →
            ∃ self2 out2,
              Evaluation.indicator_alerts v self price indicators
              = Some (self2, out2)
              ∧ alerts self2 = alerts self
              ∧ active_alerts self2 = active_alerts self ∪ list_to_set out2
              ∧ NoDup out2
              ∧ ∀ k, k ∈ out2
                  ↔ (k ∉ active_alerts self)
                    ∧ ∃ tf' name' value' row' cfg',
                        evaluated indicators k tf' name' value'
                        ∧ alerts self !! tf' = Some row'
                        ∧ row' !! name' = Some cfg'
                        ∧ enabled cfg' = true
                        ∧ Py.abs (rounded v price - value')
                          <= threshold cfg' / 100 * rounded v price) as Hcyc.
  { intros Hrules v indicators Hshape.
    destruct (indicator_alerts_emits v self price indicators Hrules Hshape)
      as (self2 & out2 & Hret & (Ha & Hs & Hnd & _) & Hiff).
    by exists self2, out2. }
  destruct (Qle_bool (Py.abs (price - value)) (threshold cfg / 100 * price))
    eqn:Hle.
  - apply Qle_bool_iff in Hle.
    destruct (decide (key ∈ active_alerts self)) as [Hin|Hnin].
    + rewrite (trigger_alert_silent _ _ Hin) in Hcall.
      exists self, []. split; [exact Hcall|]. split; [by right|]. split.
      { split; [done|]. by intros [_ ?]. }
      split; [done|]. split; [done|]. split; [done|]. split; [done|].
      split; [intros calls self2 out2; apply Hcycle|].
      split; [intros Hrules indicators Hshape; by apply check_alerts_returns|].
      exact Hcyc.
    + rewrite (trigger_alert_emits _ _ Hnin) in Hcall.
      eexists _, [key]. split; [exact Hcall|]. split; [by left|]. split.
      { split; [|done]. by intros _. }
      split; [|split; [done|split; [done|split; [done|split]]];
               [intros calls self2 out2; apply Hcycle|];
               (split; [intros Hrules indicators Hshape; by apply check_alerts_returns
                      |exact Hcyc])].
      intros _. split; [done|]. apply Hsilent; [done|]. simpl.
      apply elem_of_union. right. by apply elem_of_singleton.
  - exists self, []. split; [exact Hcall|]. split; [by right|]. split.
    { split; [done|]. intros [Htrig _]. apply Qle_bool_iff in Htrig.
      rewrite Htrig in Hle. done. }
    split; [done|]. split; [done|]. split; [done|]. split; [done|].
      split; [intros calls self2 out2; apply Hcycle|].
      split; [intros Hrules indicators Hshape; by apply check_alerts_returns|].
      exact Hcyc.
Qed.

Lemma indicator_alert_fires_once_witness :
  ("1m" ∈ TIMEFRAMES ∧ "RSI" ∈ INDICATORS)
  ∧ (∃ self',
       check_single_alert Web.init_manager 100 100.05 "1m_RSI"
       = Some (self', ["1m_RSI"%string])
       ∧ check_single_alert self' 100 100.05 "1m_RSI" = Some (self', []))
  ∧ ∃ self2,
      Evaluation.indicator_alerts web Web.init_manager 100.002
        [("1m", [("RSI", Num 100.05); ("EMA20", Num 99.5);
                 ("BB", Bands [("upper", 100.1); ("middle", 100.3);
                               ("lower", 99.9)])])]%string
      = Some (self2, ["1m_RSI"; "1m_BB_upper"; "1m_BB_lower"]%string)
      ∧ active_alerts self2
        = list_to_set ["1m_RSI"; "1m_BB_upper"; "1m_BB_lower"]%string.
Proof.
  assert ("1m" ∈ TIMEFRAMES) as Htf by (by left).
  assert ("RSI" ∈ INDICATORS) as Hname by (by left).
  split; [done|].
  destruct (indicator_alert_fires_once Web.init_manager 100 100.05
              "1m" "RSI" EmptyString
              (list_to_map ((λ ind, (ind, mkAlertConfig true 0.1)) <$> INDICATORS))
              (mkAlertConfig true 0.1)
              Htf Hname (or_introl eq_refl) eq_refl eq_refl eq_refl)
    as (self' & out & Hcall & _ & Hiff & Hset & _).
  assert (out = ["1m_RSI"%string]) as ->.
  { apply Hiff. split; [by vm_compute|]. apply not_elem_of_empty. }
  split; [exists self'; split; [exact Hcall|by apply Hset]|].
  set (indicators :=
         [("1m", [("RSI", Num 100.05); ("EMA20", Num 99.5);
                  ("BB", Bands [("upper", 100.1); ("middle", 100.3);
                                ("lower", 99.9)])])]%string).
  assert (indicators_shaped indicators) as Hshape.
  { intros tf entry [= -> ->]%list_elem_of_singleton. split; [by left|].
    intros name value Hin.
    repeat (apply elem_of_cons in Hin as [[= -> ->]|Hin];
            [split; [unfold INDICATORS; repeat first [by left|right]|];
             first [by split; [|intros [? [=]]]|by split; [eexists|]]|]).
    by apply elem_of_nil in Hin. }
  destruct (indicator_alert_fires_once Web.init_manager 100.002 100.05
              "1m" "RSI" EmptyString
              (list_to_map ((λ ind, (ind, mkAlertConfig true 0.1)) <$> INDICATORS))
              (mkAlertConfig true 0.1)
              Htf Hname (or_introl eq_refl) eq_refl eq_refl eq_refl)
    as (_ & _ & _ & _ & _ & _ & _ & _ & _ & _ & _ & Hcycle).
  destruct (Hcycle (init_alerts_total true 0.1) web indicators Hshape)
    as (self2 & out2 & Hret & _ & Hact & _).
  assert (out2 = ["1m_RSI"; "1m_BB_upper"; "1m_BB_lower"]%string) as Hout.
  { assert (Evaluation.indicator_alerts web Web.init_manager 100.002 indicators
            = Some ((default (Web.init_manager, [])
                       (Evaluation.indicator_alerts web Web.init_manager 100.002
                          indicators)).1,
                    ["1m_RSI"; "1m_BB_upper"; "1m_BB_lower"]%string)) as Hrun
      by (by vm_compute).
    rewrite Hret in Hrun. apply (f_equal (fmap snd)) in Hrun.
    by injection Hrun as ->. }
  subst out2. exists self2. split; [exact Hret|].
  rewrite Hact. simpl. by rewrite (left_id_L ∅ (∪)).
Defined.

End Claims_alerts.

Section Claims_price_and_sltp.

(** C5. In the desktop variant the scan of the pending price alerts runs
    over the list it removes from: with the targets 50000 and 50001 pending
    and the price at 50000, both within the tolerance, one cycle fires and
    removes the first and leaves the second pending, unfired. The Kivy and
    web variants, which scan a copy, consume both in that cycle; in general
    they leave pending exactly the targets that are not within tolerance.
    The desktop scan always returns, removes only targets within tolerance
    and keeps the others in their order. *)
Theorem desktop_scan_skips_a_near_target :
  PriceAlerts.near 0.0001 50000 50000 = true
  ∧ PriceAlerts.near 0.0001 50000 50001 = true
  ∧ (∃ manager,
       Desktop.update_ui_price_alerts Desktop.init_manager [50000; 50001] 50000
       = Some (manager, [50001], ["Price near 50000.00!"%string]))
  ∧ (∃ manager,
       Kivy.update_ui_price_alerts Kivy.init_manager [50000; 50001] 50000
       = Some (manager, [],
               ["Price near 50000.00!"; "Price near 50001.00!"]%string))
  ∧ (∃ manager,
       Web.check_price_alerts Web.init_manager [50000; 50001] 50000
       = Some (manager, [],
               ["Price reached 50000.00"; "Price reached 50001.00"]%string))
  ∧ (∀ manager pending price, ∃ manager' out,
       Kivy.update_ui_price_alerts manager pending price
       = Some (manager', filter (PriceAlerts.far 0.01 price) pending, out))
  ∧ (∀ manager pending price, ∃ manager' out,
       Web.check_price_alerts manager pending price
       = Some (manager',
               filter (PriceAlerts.far 0.001 (Py.round2 price)) pending, out))
  ∧ (∀ manager pending price, ∃ manager' pending' out,
       Desktop.update_ui_price_alerts manager pending price
       = Some (manager', pending', out)
       ∧ filter (PriceAlerts.far 0.0001 price) pending'
         = filter (PriceAlerts.far 0.0001 price) pending
       ∧ pending' `sublist_of` pending).
Proof.
  split; [done|]. split; [done|].
  split; [eexists; vm_compute; reflexivity|].
  split; [eexists; vm_compute; reflexivity|].
  split; [eexists; vm_compute; reflexivity|].
  split; [|split].
  - intros manager pending price. unfold Kivy.update_ui_price_alerts.
    by destruct (scan_copy_filter 0.01 price
                   (λ manager alert_price,
                      Alerts.trigger_alert manager
                        ("Price near " +:+ Py.format_2f alert_price +:+ "!"))
                   pending [] manager)
      as (manager' & out & H); [by intros a ?%elem_of_nil|eexists _, _].
  - intros manager pending price. unfold Web.check_price_alerts.
    by destruct (scan_copy_filter 0.001 (Py.round2 price)
                   (λ self alert_price,
                      Alerts.trigger_alert self
                        ("Price reached " +:+ Py.format_2f alert_price))
                   pending [] manager)
      as (manager' & out & H); [by intros a ?%elem_of_nil|eexists _, _].
  - intros manager pending price. unfold Desktop.update_ui_price_alerts.
    destruct (Qlt_le_dec 0 price); [|by eexists _, _, _].
    destruct (scan_live_returns 0.0001 price Desktop.trigger_price_alert
                (S (length pending)) 0 manager pending)
      as [[[manager' pending'] out] Hscan]; [lia|].
    exists manager', pending', out. split; [done|].
    by eapply scan_live_keeps_far.
Qed.

(** C6. In the desktop and Kivy variants [calculate_sl] is
    entry × (1 − sl/100) for a LONG position and entry × (1 + sl/100) for a
    SHORT one (any position that is not LONG), and [calculate_tp] is
    entry × (1 + tp/100) for LONG and entry × (1 − tp/100) for SHORT, for
    every entry price and percentage. With entry 100, sl 1 and tp 2 this
    gives 99 and 102 for LONG, 101 and 98 for SHORT: in every variant (the
    web one rounds the same products to two decimals), and also when the
    operations are those of binary64 numbers. *)
Theorem sltp_formulas (entry sl tp current_price : Q)
    (side : string) (trailing_sl trailing_tp : bool) :
  let long := mkSLTP entry "LONG" sl tp trailing_sl trailing_tp in
  let short := mkSLTP entry side sl tp trailing_sl trailing_tp in
  (∀ v, v ≠ web →
     SLTP.calculate_sl v long current_price = entry * (1 - sl / 100)
     ∧ SLTP.calculate_tp v long current_price = entry * (1 + tp / 100)
     ∧ (side ≠ "LONG"%string →
          SLTP.calculate_sl v short current_price = entry * (1 + sl / 100)
          ∧ SLTP.calculate_tp v short current_price = entry * (1 - tp / 100)))
  ∧ (∀ v,
       let long := mkSLTP 100 "LONG" 1 2 trailing_sl trailing_tp in
       let short := mkSLTP 100 "SHORT" 1 2 trailing_sl trailing_tp in
       SLTP.calculate_sl v long current_price == 99
       ∧ SLTP.calculate_tp v long current_price == 102
       ∧ SLTP.calculate_sl v short current_price == 101
       ∧ SLTP.calculate_tp v short current_price == 98)
  ∧ (let f := Binary64.of_Z in
     SFcompare (Binary64.calculate_sl true (f 100%Z) (f 1%Z)) (f 99%Z) = Some Eq
     ∧ SFcompare (Binary64.calculate_tp true (f 100%Z) (f 2%Z)) (f 102%Z) = Some Eq
     ∧ SFcompare (Binary64.calculate_sl false (f 100%Z) (f 1%Z)) (f 101%Z) = Some Eq
     ∧ SFcompare (Binary64.calculate_tp false (f 100%Z) (f 2%Z)) (f 98%Z) = Some Eq).
Proof.
  intros long short. split; [|split].
  - intros v Hv.
    assert (∀ x, rounded v x = x) as Hr by (by destruct v).
    unfold SLTP.calculate_sl, SLTP.calculate_tp. simpl. rewrite !Hr.
    split; [done|]. split; [done|]. intros Hside.
    by rewrite (proj2 (String.eqb_neq side "LONG")).
  - intros v. by destruct v.
  - done.
Qed.

Lemma sltp_formulas_witness :
  desktop ≠ web
  ∧ SLTP.calculate_sl desktop (mkSLTP 250 "SHORT" 4 10 false false) 260
    = 250 * (1 + 4 / 100).
Proof.
  assert (desktop ≠ web) as Hv by done.
  split; [exact Hv|].
  destruct (sltp_formulas 250 4 10 260 "SHORT" false false)
    as [Hformulas _].
  destruct (Hformulas desktop Hv) as (_ & _ & Hshort).
  by destruct Hshort.
Defined.

End Claims_price_and_sltp.

Section Claims_indicators.
Import Indicators.

(** C7, as the code has it. The gate is 20 candles, whatever the windows
    of the indicators: when no call for a timeframe with at least 20
    candles raises (none can in the Kivy variant), [calculate_indicators]
    returns; a timeframe with fewer than 20 candles is not in its output,
    whatever the package would do on its closes; a timeframe with at least
    20 candles, also one with fewer than 50 or 200, is there with its five
    indicators. *)
Theorem gate_is_twenty_candles (v : variant) (ta : TaLibrary)
    (candles : gmap string (list Candle)) :
  (∀ tf, tf ∈ TIMEFRAMES → is_Some (candles !! tf)) →
  (∀ tf df, tf ∈ TIMEFRAMES → candles !! tf = Some df → (20 ≤ length df)%nat →
            ∃ entry, timeframe_entry v ta (close <$> df) = Returns entry) →
  ∃ indicators,
    calculate_indicators v ta candles = Returns indicators
    ∧ ∀ tf df, tf ∈ TIMEFRAMES → candles !! tf = Some df →
        ((length df < 20)%nat → tf ∉ indicators.*1)
        ∧ ((20 ≤ length df)%nat →
             ∃ entry, (tf, entry) ∈ indicators
                      ∧ timeframe_entry v ta (close <$> df) = Returns entry
                      ∧ entry.*1 = INDICATORS).
Proof.
  intros Hkeys Hret. exists (reported v ta candles TIMEFRAMES). split.
  - unfold calculate_indicators.
    by rewrite (calculate_loop_returns v ta candles TIMEFRAMES [] Hkeys Hret).
  - intros tf df Htf Hdf. split.
    + intros Hlen Hin. apply reported_names in Hin as [entry Hin].
      apply reported_elem in Hin as (_ & df' & Hdf' & Hlen' & _).
      rewrite Hdf in Hdf'. injection Hdf' as <-. lia.
    + intros Hlen. destruct (Hret tf df Htf Hdf Hlen) as [entry He].
      exists entry. split; [|split; [done|by eapply timeframe_entry_names]].
      apply reported_elem. split; [done|]. by exists df.
Qed.

(** C8, as the code has it. For a series that passes the gate of 20
    candles, every variant reports under BB the three numbers that the
    package returns for the closes, the web variant each of them rounded to
    two decimals on its own: the reported middle band is the moving average
    of the package, rounded in the web variant. The symmetry of the
    reported bands is the one of the package, and not exact: in the desktop
    and Kivy variants upper − middle and middle − lower differ by what the
    bands of the package differ, in the web variant by at most 0.02 more.
    By the formulas of the design the average is the one of exactly the
    last 20 closes and the bands of the package are at the same distance
    from it in exact arithmetic; the package evaluates them on binary64
    numbers, where they need not be ([binary64_bands_not_symmetric]). *)
Theorem bollinger_bands_reported (v : variant) (ta : TaLibrary)
    (candles : gmap string (list Candle))
    (indicators : list (string * list (string * IndicatorValue)))
    (tf : string) (df : list Candle) (u m l δ : Q) :
  calculate_indicators v ta candles = Returns indicators →
  tf ∈ TIMEFRAMES →
  candles !! tf = Some df →
  (20 ≤ length df)%nat →
  let closes := close <$> df in
  bollinger_hband ta 20 2 closes = Returns u →
  bollinger_mavg ta 20 2 closes = Returns m →
  bollinger_lband ta 20 2 closes = Returns l →
  Qabs ((u - m) - (m - l)) <= δ →
  ∃ entry upper middle lower,
    (tf, entry) ∈ indicators
    ∧ ("BB"%string, Bands [("upper", upper); ("middle", middle);
                           ("lower", lower)]%string) ∈ entry
    ∧ upper = rounded v u ∧ middle = rounded v m ∧ lower = rounded v l
    ∧ (v ≠ web →
       middle = m
       ∧ (upper - middle) - (middle - lower) == (u - m) - (m - l))
    ∧ Qabs ((upper - middle) - (middle - lower)) <= δ + (2 # 100)
    ∧ length (BollingerModel.lastn 20 closes) = 20%nat
    ∧ BollingerModel.middle_band 20 2 closes
      == BollingerModel.sum (BollingerModel.lastn 20 closes) / 20
    ∧ BollingerModel.upper_band 20 2 closes
      - BollingerModel.middle_band 20 2 closes
      == BollingerModel.middle_band 20 2 closes
         - BollingerModel.lower_band 20 2 closes.
Proof.
  intros Hret Htf Hdf Hlen closes Hu Hm Hl Hsym.
  unfold calculate_indicators in Hret.
  destruct (calculate_loop_entries _ _ _ _ _ _ Hret tf Htf)
    as (df' & Hdf' & Hentry).
  rewrite Hdf in Hdf'. injection Hdf' as <-.
  destruct (Hentry Hlen) as [entry He]. fold closes in He.
  apply calculate_loop_inv in Hret.
  exists entry, (rounded v u), (rounded v m), (rounded v l).
  split.
  { rewrite Hret. apply elem_of_app. right. apply reported_elem.
    split; [done|]. by exists df. }
  split; [by eapply timeframe_entry_bands|].
  split; [done|]. split; [done|]. split; [done|]. split.
  { intros Hv. assert (∀ x, rounded v x = x) as Hr by (by destruct v).
    rewrite !Hr. split; [done|]. reflexivity. }
  split.
  { pose proof (rounded_close v u) as Hru.
    pose proof (rounded_close v m) as Hrm.
    pose proof (rounded_close v l) as Hrl.
    apply Qabs_Qle_condition in Hru, Hrm, Hrl, Hsym.
    apply Qabs_Qle_condition. split; lra. }
  assert (length (BollingerModel.lastn 20 closes) = 20%nat) as Hlast.
  { apply lastn_length. unfold closes. by rewrite length_fmap. }
  split; [done|]. split.
  - unfold BollingerModel.middle_band, BollingerModel.mean. by rewrite Hlast.
  - unfold BollingerModel.upper_band, BollingerModel.lower_band. ring.
Qed.


End Claims_indicators.

(** ** Instances of the statements above, and inputs on which the claims
    of the specification fail as they are written *)

Section Instances.
Import BinanceWebSocket CandleAggregator Indicators.

Lemma ingest_opens_or_updates_witness :
  (timeframe_keys Examples.candles1
   ∧ ∀ tf cs c, Examples.candles1 !! tf = Some cs → last cs = Some c →
                extremes_rounded web c)
  ∧ ∃ candles',
      on_message web Examples.candles1 101.237 1800000
      = (101.24, Some candles')
      ∧ length <$> Examples.candles1 !! "30m"%string = Some 1%nat
      ∧ length <$> candles' !! "30m"%string = Some 2%nat
      ∧ length <$> Examples.candles1 !! "1h"%string = Some 1%nat
      ∧ length <$> candles' !! "1h"%string = Some 1%nat.
Proof.
  split; [exact (conj (proj1 candles1_ok) candles1_last_rounded)|].
  destruct (ingest_opens_or_updates web Examples.candles1 101.237 1800000
              (proj1 candles1_ok) candles1_last_rounded)
    as (candles' & Hmsg & _ & _ & Hseries).
  exists candles'. split; [exact Hmsg|].
  destruct (Hseries "30m"%string _ eq_refl)
    as (secs30 & Hsecs30 & _ & _ & Hnew30 & _).
  injection Hsecs30 as <-.
  destruct (Hseries "1h"%string _ eq_refl)
    as (secs1h & Hsecs1h & _ & _ & _ & Hupd1h).
  injection Hsecs1h as <-.
  split; [done|]. split.
  - rewrite Hnew30; [done|]. right. eexists. split; [done|].
    apply Z.leb_le. by vm_compute.
  - split; [done|].
    destruct (Hupd1h _ eq_refl) as (init & c' & Hinit & -> & _);
      [apply Z.ltb_lt; by vm_compute|].
    simpl. rewrite length_app. simpl.
    apply (f_equal length) in Hinit. rewrite length_app in Hinit.
    simpl in Hinit. f_equal. lia.
Defined.

Lemma candles_stay_ordered_and_keep_open_witness :
  aggregator_ok web Examples.candles1
  ∧ ∃ candles',
      feed web Examples.candles1 [(98.5, 70000%Z); (103, 130000%Z)]
      = Some candles'.
Proof.
  split; [exact candles1_ok|].
  destruct (candles_stay_ordered_and_keep_open web Examples.candles1
              candles1_ok) as [Hfeed _].
  destruct (Hfeed [(98.5, 70000%Z); (103, 130000%Z)]) as (candles' & H & _).
  exists candles'. exact H.
Defined.

Lemma series_bounded_and_fifo_witness :
  aggregator_ok web Examples.candles1
  ∧ ∃ candles',
      feed web Examples.candles1 [(98.5, 70000%Z); (103, 130000%Z)]
      = Some candles'
      ∧ ∀ tf cs, candles' !! tf = Some cs → (length cs ≤ 250)%nat.
Proof.
  split; [exact candles1_ok|].
  destruct (series_bounded_and_fifo web Examples.candles1 candles1_ok)
    as (_ & Hfeed & _).
  destruct (Hfeed [(98.5, 70000%Z); (103, 130000%Z)]) as (candles' & H & Hlen).
  exists candles'. split; [exact H|].
  intros tf cs Hcs. by destruct (Hlen tf cs Hcs).
Defined.

Lemma out_of_order_tick_updates_in_place_witness :
  (timeframe_keys Examples.candles1
   ∧ Examples.candles1 !! "1m"%string
     = Some [mkCandle 0 100.13 101.50 100.13 101.50;
             mkCandle 61000 99.75 99.75 99.75 99.75]
   ∧ (60500 < 61000)%Z)
  ∧ ∃ candles',
      on_message web Examples.candles1 98.4 60500 = (98.40, Some candles')
      ∧ candles' !! "1m"%string
        = Some [mkCandle 0 100.13 101.50 100.13 101.50;
                mkCandle 61000 99.75 99.75 98.40 98.40].
Proof.
  assert (Examples.candles1 !! "1m"%string
          = Some [mkCandle 0 100.13 101.50 100.13 101.50;
                  mkCandle 61000 99.75 99.75 99.75 99.75]) as Hcs
    by (vm_compute; reflexivity).
  assert (60500 < 61000)%Z as Hlt by lia.
  split; [split; [exact (proj1 candles1_ok)|split; [exact Hcs|exact Hlt]]|].
  destruct (out_of_order_tick_updates_in_place web Examples.candles1
              98.4 60500 "1m" _ (mkCandle 61000 99.75 99.75 99.75 99.75)
              (proj1 candles1_ok) Hcs eq_refl Hlt)
    as (candles' & init & secs & Hmsg & Hinit & Hlook & _).
  exists candles'. split; [exact Hmsg|].
  rewrite Hlook. f_equal.
  change [mkCandle 0 100.13 101.50 100.13 101.50;
          mkCandle 61000 99.75 99.75 99.75 99.75]
    with ([mkCandle 0 100.13 101.50 100.13 101.50]
            ++ [mkCandle 61000 99.75 99.75 99.75 99.75]) in Hinit.
  apply app_inj_tail in Hinit as [<- _]. vm_compute. reflexivity.
Defined.

Lemma gate_is_twenty_candles_witness :
  (∀ tf, tf ∈ TIMEFRAMES → is_Some (Examples.candles20 !! tf))
  ∧ ∃ indicators,
      calculate_indicators web Examples.ta Examples.candles20
      = Returns indicators
      ∧ "30m"%string ∉ indicators.*1.
Proof.
  split; [exact candles20_keys|].
  destruct (gate_is_twenty_candles web Examples.ta Examples.candles20
              candles20_keys
              (λ tf df _ _ _, examples_ta_returns web (close <$> df)))
    as (indicators & Hret & Hgate).
  exists indicators. split; [exact Hret|].
  assert ("30m"%string ∈ TIMEFRAMES) as Htf by (right; by left).
  destruct (Hgate "30m"%string [] Htf eq_refl) as [Hshort _].
  apply Hshort. simpl. lia.
Defined.

(** C7 as written fails: twenty candles are fewer than the largest window,
    200, and the timeframe is reported with its five indicators. *)
Lemma largest_window_is_not_the_gate :
  length <$> Examples.candles20 !! "1m"%string = Some 20%nat
  ∧ (20 < 200)%nat
  ∧ match calculate_indicators web Examples.ta Examples.candles20 with
    | Returns indicators => (λ '(tf, entry), (tf, entry.*1)) <$> indicators
    | Raises _ => []
    end = [("1m"%string, INDICATORS)].
Proof. split; [by vm_compute|]. split; [lia|]. by vm_compute. Qed.

Lemma bollinger_bands_reported_witness :
  ∃ indicators entry,
    calculate_indicators web Examples.ta Examples.candles20 = Returns indicators
    ∧ "1m"%string ∈ TIMEFRAMES
    ∧ (20 ≤ length (default [] (Examples.candles20 !! "1m"%string)))%nat
    ∧ Qabs ((BollingerModel.upper_band 20 2 Examples.closes20
             - BollingerModel.middle_band 20 2 Examples.closes20)
            - (BollingerModel.middle_band 20 2 Examples.closes20
               - BollingerModel.lower_band 20 2 Examples.closes20)) <= 0
    ∧ ("1m"%string, entry) ∈ indicators
    ∧ ("BB"%string, Bands [("upper", 100.03); ("middle", 100.00);
                           ("lower", 99.98)]%string) ∈ entry.
Proof.
  destruct (calculate_indicators web Examples.ta Examples.candles20)
    as [indicators|e] eqn:Hcalc; [|by vm_compute in Hcalc].
  assert ("1m"%string ∈ TIMEFRAMES) as Htf by (by left).
  assert (20 ≤ length (default [] (Examples.candles20 !! "1m"%string)))%nat
    as Hlen by (vm_compute; lia).
  assert (close <$> default [] (Examples.candles20 !! "1m"%string)
          = Examples.closes20) as Hcloses by (by vm_compute).
  assert (Qabs ((BollingerModel.upper_band 20 2 Examples.closes20
                 - BollingerModel.middle_band 20 2 Examples.closes20)
                - (BollingerModel.middle_band 20 2 Examples.closes20
                   - BollingerModel.lower_band 20 2 Examples.closes20)) <= 0)
    as Hsym by (by vm_compute).
  assert (Examples.candles20 !! "1m"%string
          = Some (default [] (Examples.candles20 !! "1m"%string))) as Hdf
    by (by vm_compute).
  destruct (bollinger_bands_reported web Examples.ta Examples.candles20
              indicators "1m" (default [] (Examples.candles20 !! "1m"%string))
              (BollingerModel.upper_band 20 2 Examples.closes20)
              (BollingerModel.middle_band 20 2 Examples.closes20)
              (BollingerModel.lower_band 20 2 Examples.closes20) 0
              Hcalc Htf Hdf Hlen
              (f_equal (λ c, Returns (BollingerModel.upper_band 20 2 c)) Hcloses)
              (f_equal (λ c, Returns (BollingerModel.middle_band 20 2 c)) Hcloses)
              (f_equal (λ c, Returns (BollingerModel.lower_band 20 2 c)) Hcloses)
              Hsym)
    as (entry & upper & middle & lower & Hentry & Hbb & -> & -> & -> & _).
  exists indicators, entry. repeat (split; [done|]).
  assert (rounded web (BollingerModel.upper_band 20 2 Examples.closes20) = 100.03)
    as <- by (by vm_compute).
  assert (rounded web (BollingerModel.middle_band 20 2 Examples.closes20) = 100.00)
    as <- by (by vm_compute).
  assert (rounded web (BollingerModel.lower_band 20 2 Examples.closes20) = 99.98)
    as <- by (by vm_compute).
  exact Hbb.
Defined.

(** C8 as written fails at the rounded values: for eighteen closes at
    100.00 and two at 100.04 the average is 100.004 and the deviation
    0.012; the web variant reports 100.03, 100.00 and 99.98. The middle
    band is not the average, and the upper band is 0.03 above it while the
    lower one is 0.02 below. *)
Lemma rounded_bands_are_not_symmetric :
  bollinger_entry web Examples.ta Examples.closes20
  = Returns (Bands [("upper", 100.03); ("middle", 100.00);
                    ("lower", 99.98)]%string)
  ∧ BollingerModel.mean (BollingerModel.lastn 20 Examples.closes20) == 100.004
  ∧ ¬ 100.00 == 100.004
  ∧ ¬ 100.03 - 100.00 == 100.00 - 99.98.
Proof.
  split; [by vm_compute|]. split; [by vm_compute|]. split; by vm_compute.
Qed.


End Instances.

(** * Part IV: further properties of the code *)

Section Extras_aggregator.
Import BinanceWebSocket CandleAggregator.
Implicit Types (v : variant) (candles : gmap string (list Candle)).

(** X1 ([process_trade], [update_candles], [add_candle],
    [update_last_candle]): after a trade message no series is empty, and the
    last candle of every series closes at the recorded price, which lies
    between its low and its high. *)
Theorem last_candle_closes_at_the_price v candles p T :
  timeframe_keys candles →
  ∃ candles',
    on_message v candles p T = (rounded v p, Some candles')
    ∧ ∀ tf, is_Some (candles !! tf) →
        ∃ cs' c, candles' !! tf = Some cs' ∧ last cs' = Some c
                 ∧ close c = rounded v p
                 ∧ low c <= rounded v p ∧ rounded v p <= high c.
Proof.
  intros Hkeys.
  destruct (on_message_step v candles p T Hkeys)
    as (candles' & Hmsg & _ & Hstep & _).
  exists candles'. split; [done|].
  intros tf [cs Hcs]. destruct (Hstep _ _ Hcs) as (secs & _ & Hcs').
  destruct (series_step_last v secs cs (rounded v p) T (rounded_idem v p))
    as (c & Hlast & Hc).
  by exists (series_step v secs cs (rounded v p) T), c.
Qed.

Lemma last_candle_closes_at_the_price_witness :
  timeframe_keys Examples.candles1
  ∧ ∃ candles', on_message web Examples.candles1 101.237 62000
                = (101.24, Some candles').
Proof.
  split; [exact (proj1 candles1_ok)|].
  destruct (last_candle_closes_at_the_price web Examples.candles1 101.237 62000
              (proj1 candles1_ok)) as (candles' & Hmsg & _).
  exists candles'. exact Hmsg.
Defined.

(** X2 ([update_candles], [get_seconds]): the open times of two consecutive
    candles of a series are at least one bucket of its timeframe apart, and
    every feed keeps it so; [update_candles] never opens a candle inside the
    bucket of the one before it. *)
Theorem candles_are_a_bucket_apart v trades : ∀ candles,
  timeframe_keys candles →
  (∀ tf cs secs, candles !! tf = Some cs → get_seconds tf = Some secs →
     spaced (secs * 1000) cs) →
  ∃ candles',
    feed v candles trades = Some candles'
    ∧ ∀ tf cs secs, candles' !! tf = Some cs → get_seconds tf = Some secs →
        spaced (secs * 1000) cs.
Proof.
  induction trades as [|[p T] trades IH]; intros candles Hkeys Hsp; simpl.
  - by exists candles.
  - destruct (on_message_step v candles p T Hkeys)
      as (candles1 & Hmsg & Hkeys1 & Hstep & Hdom).
    unfold on_message in Hmsg. injection Hmsg as Hmsg.
    unfold on_message. simpl. rewrite Hmsg. simpl.
    apply IH; [done|].
    intros tf cs1 secs Hcs1 Hsecs. destruct (Hdom _ _ Hcs1) as [cs Hcs].
    destruct (Hstep _ _ Hcs) as (secs' & Hsecs' & Hcs1').
    rewrite Hcs1 in Hcs1'. injection Hcs1' as ->.
    rewrite Hsecs in Hsecs'. injection Hsecs' as <-.
    apply series_step_spaced. by eapply Hsp.
Qed.

Lemma candles_are_a_bucket_apart_witness :
  (timeframe_keys init_candles
   ∧ ∀ tf cs secs, init_candles !! tf = Some cs → get_seconds tf = Some secs →
       spaced (secs * 1000) cs)
  ∧ ∃ candles', feed web init_candles Examples.trades1 = Some candles'.
Proof.
  assert (∀ tf cs secs, init_candles !! tf = Some cs →
            get_seconds tf = Some secs → spaced (secs * 1000) cs) as Hsp.
  { intros tf cs secs H _. unfold init_candles, TIMEFRAMES in H. simpl in H.
    repeat (apply lookup_insert_Some in H as [[_ <-]|[_ H]]; [exact I|]).
    by rewrite lookup_empty in H. }
  split; [exact (conj (proj1 (init_candles_ok web)) Hsp)|].
  destruct (candles_are_a_bucket_apart web Examples.trades1 init_candles
              (proj1 (init_candles_ok web)) Hsp) as (candles' & Hfeed & _).
  exists candles'. exact Hfeed.
Defined.

(** X3 ([update_candles]): the only ways [update_candles] can raise are the
    [KeyError] of a timeframe that [self.candles] does not have, and the
    [KeyError] of [get_seconds] on a key that is no timeframe, which is only
    looked up when the series has a candle. *)
Theorem update_candles_raises_only_on_unknown_keys v candles tf ts price :
  update_candles v candles tf ts price = None
  ↔ candles !! tf = None
    ∨ ∃ cs, candles !! tf = Some cs ∧ cs ≠ [] ∧ tf ∉ TIMEFRAMES.
Proof.
  unfold update_candles, add_candle. split.
  - destruct (candles !! tf) as [cs|] eqn:Hcs; [|by left]. simpl.
    intros H. right. exists cs. split; [done|].
    destruct (last cs) as [c|] eqn:Hlast; [|done].
    split; [by intros ->|].
    rewrite get_seconds_timeframes. intros [secs Hsecs].
    rewrite Hsecs in H. simpl in H.
    by destruct (Qle_bool _ _).
  - intros [->|(cs & -> & Hne & Htf)]; [done|]. simpl.
    destruct (last cs) as [c|] eqn:Hlast.
    + destruct (get_seconds tf) as [secs|] eqn:Hsecs; [|done].
      destruct Htf. apply get_seconds_timeframes. by eexists.
    + by apply last_None in Hlast.
Qed.

End Extras_aggregator.

Section Extras_alerts.
Import Alerts.
Implicit Types (self : AlertManager) (key tf : string).

(** X4 ([check_single_alert], [trigger_alert]): whatever the key, a call
    that notifies has read an enabled rule, found the value within the
    threshold, and the key was not active; the threshold and the price then
    have the same sign, so that a rule with a negative threshold never
    fires at a positive price. *)
Theorem notification_needs_an_enabled_rule self price value key self' out k :
  check_single_alert self price value key = Some (self', out) →
  k ∈ out →
  out = [key] ∧ k = key ∧ (key ∉ active_alerts self)
  ∧ ∃ tf indicator cfg,
      Py.split1 "_" key = [tf; indicator]
      ∧ Rules.rule self tf (hd EmptyString (Py.split "_" indicator)) = Some cfg
      ∧ enabled cfg = true
      ∧ Qabs (price - value) <= threshold cfg / 100 * price
      ∧ 0 <= threshold cfg * price.
Proof.
  unfold check_single_alert, Rules.rule.
  destruct (Py.split1 "_" key) as [|tf [|indicator [|]]]; try done.
  destruct (alerts self !! tf) as [row|] eqn:Hrow; [|done].
  cbn [mbind option_bind].
  destruct (row !! _) as [cfg|] eqn:Hcfg; [|done]. cbn [mbind option_bind].
  destruct (enabled cfg) eqn:He; [|by intros [= <- <-] ?%elem_of_nil].
  destruct (Qle_bool (Py.abs (price - value)) (threshold cfg / 100 * price))
    eqn:Hle; [|by intros [= <- <-] ?%elem_of_nil].
  unfold trigger_alert. case_decide as Hin; [by intros [= <- <-] ?%elem_of_nil|].
  intros [= <- <-] ->%list_elem_of_singleton.
  split; [done|]. split; [done|]. split; [done|].
  exists tf, indicator, cfg. split; [done|].
  split; [by rewrite Hrow|]. split; [done|].
  apply Qle_bool_iff in Hle. unfold Py.abs in Hle. split; [done|].
  pose proof (Qabs_nonneg (price - value)) as Habs.
  assert (threshold cfg / 100 * price == threshold cfg * price * (1 # 100))
    as Heq by field.
  rewrite Heq in Hle. lra.
Qed.

Lemma notification_needs_an_enabled_rule_witness :
  check_single_alert Web.init_manager 100 100.05 "1m_RSI"
  = Some ((trigger_alert Web.init_manager "1m_RSI").1, ["1m_RSI"%string])
  ∧ "1m_RSI"%string ∉ active_alerts Web.init_manager.
Proof.
  assert (check_single_alert Web.init_manager 100 100.05 "1m_RSI"
          = Some ((trigger_alert Web.init_manager "1m_RSI").1, ["1m_RSI"%string]))
    as Hcall by (by vm_compute).
  split; [exact Hcall|].
  exact (proj1 (proj2 (proj2
    (notification_needs_an_enabled_rule Web.init_manager 100 100.05 "1m_RSI"
       _ _ "1m_RSI"%string Hcall (list_elem_of_here _ _))))).
Defined.

(** X5 (web route [/set_alert]): on a timeframe or an indicator without a
    rule the route raises [KeyError] and changes nothing; otherwise it
    stores the flag and the threshold rounded to two decimals in that rule,
    and leaves every other rule and the active alerts alone. The flag is
    stored first: a threshold that is no number raises but leaves the new
    flag in the rule, beside the old threshold. *)
Theorem set_alert_writes_one_rule self tf indicator e t :
  match Rules.rule self tf indicator with
  | None => Routes.set_alert self tf indicator e t = (self, Some "KeyError"%string)
  | Some cfg =>
      ∃ self',
        Routes.set_alert self tf indicator e t
        = (self', match t with
                  | Some _ => None
                  | None => Some "ValueError"%string
                  end)
        ∧ Rules.rule self' tf indicator
          = Some {| enabled := e;
                    threshold := match t with
                                 | Some x => Py.round2 x
                                 | None => threshold cfg
                                 end |}
        ∧ (∀ tf' ind', (tf', ind') ≠ (tf, indicator) →
             Rules.rule self' tf' ind' = Rules.rule self tf' ind')
        ∧ active_alerts self' = active_alerts self
  end.
Proof.
  unfold Routes.set_alert.
  pose proof (set_enabled_rule self tf indicator e) as H1.
  destruct (Rules.rule self tf indicator) as [cfg|] eqn:Hcfg; [|by rewrite H1].
  destruct H1 as (self1 & -> & Heq1 & Hne1 & Hact1).
  destruct t as [x|]; [|by exists self1].
  pose proof (set_threshold_rule self1 tf indicator (Py.round2 x)) as H2.
  rewrite Heq1 in H2. destruct H2 as (self2 & -> & Heq2 & Hne2 & Hact2).
  exists self2. split; [done|]. split; [done|].
  split; [|congruence]. intros tf' ind' Hne. by rewrite Hne2, Hne1.
Qed.

(** X6 ([/set_alert], then [check_single_alert]): once the route has stored
    a flag and a threshold for a rule, a call on a key of that rule fires
    exactly when the flag is set and the value is within the rounded
    threshold of the price; after the rule was switched off it is silent
    and leaves the manager as it is. *)
Theorem check_follows_set_alert self tf name rest e t price value :
  tf ∈ TIMEFRAMES →
  name ∈ INDICATORS →
  (rest = EmptyString ∨ ∃ band, rest = ("_" +:+ band)%string) →
  is_Some (Rules.rule self tf name) →
  ∃ self',
    Routes.set_alert self tf name e (Some t) = (self', None)
    ∧ check_single_alert self' price value (tf +:+ "_" +:+ name +:+ rest)
      = Some (if e && Qle_bool (Py.abs (price - value))
                               (Py.round2 t / 100 * price)
              then trigger_alert self' (tf +:+ "_" +:+ name +:+ rest)
              else (self', [])).
Proof.
  intros Htf Hname Hrest [cfg Hcfg].
  unfold Routes.set_alert.
  pose proof (set_enabled_rule self tf name e) as H1. rewrite Hcfg in H1.
  destruct H1 as (self1 & -> & Heq1 & _).
  pose proof (set_threshold_rule self1 tf name (Py.round2 t)) as H2.
  rewrite Heq1 in H2. destruct H2 as (self2 & -> & Heq2 & _).
  exists self2. split; [done|].
  by rewrite (check_single_alert_of_rule self2 price value tf name rest _
                (timeframes_no_underscore _ Htf)
                (indicators_no_underscore _ Hname) Hrest Heq2).
Qed.

Lemma check_follows_set_alert_witness :
  ("4h" ∈ TIMEFRAMES ∧ "BB" ∈ INDICATORS
   ∧ is_Some (Rules.rule Web.init_manager "4h" "BB"))
  ∧ ∃ self',
      Routes.set_alert Web.init_manager "4h" "BB" false (Some 0.256)
      = (self', None)
      ∧ check_single_alert self' 100 100 "4h_BB_upper" = Some (self', []).
Proof.
  assert ("4h" ∈ TIMEFRAMES) as Htf by (unfold TIMEFRAMES; repeat first [by left|right]).
  assert ("BB" ∈ INDICATORS) as Hname by (unfold INDICATORS; repeat first [by left|right]).
  assert (is_Some (Rules.rule Web.init_manager "4h" "BB")) as Hrule
    by (by eexists).
  split; [done|].
  destruct (check_follows_set_alert Web.init_manager "4h" "BB" "_upper"
              false 0.256 100 100 Htf Hname
              (or_intror (ex_intro _ "upper"%string eq_refl)) Hrule)
    as (self' & Hset & Hcheck).
  exists self'. split; [exact Hset|exact Hcheck].
Defined.

(** X7 (Kivy [AlertControls.on_threshold_change]): a number typed in the
    threshold field of an indicator becomes the threshold of that indicator
    in every timeframe, as it is, and nothing else changes: the flags, the
    rules of the other indicators and the active alerts stay. *)
Theorem on_threshold_change_sets_every_timeframe self x ind :
  rules_total self →
  ind ∈ INDICATORS →
  ∃ self',
    AlertControls.on_threshold_change self (Some x) ind = (self', None)
    ∧ active_alerts self' = active_alerts self
    ∧ ∀ tf ind',
        Rules.rule self' tf ind'
        = if decide (tf ∈ TIMEFRAMES ∧ ind' = ind)
          then (λ cfg, {| enabled := enabled cfg; threshold := x |})
                 <$> Rules.rule self tf ind'
          else Rules.rule self tf ind'.
Proof.
  intros Hrules Hind. unfold AlertControls.on_threshold_change.
  apply set_threshold_each_rules. intros tf Htf.
  by apply rules_total_rule.
Qed.

Lemma on_threshold_change_sets_every_timeframe_witness :
  (rules_total Kivy.init_manager ∧ "EMA50" ∈ INDICATORS)
  ∧ ∃ self',
      AlertControls.on_threshold_change Kivy.init_manager (Some 1.5) "EMA50"
      = (self', None)
      ∧ Rules.rule self' "1h" "EMA50" = Some {| enabled := false; threshold := 1.5 |}.
Proof.
  assert ("EMA50" ∈ INDICATORS) as Hind by (unfold INDICATORS; repeat first [by left|right]).
  split; [exact (conj (init_alerts_total false 0.5) Hind)|].
  destruct (on_threshold_change_sets_every_timeframe Kivy.init_manager 1.5
              "EMA50" (init_alerts_total false 0.5) Hind)
    as (self' & Hset & _ & Hrule).
  exists self'. split; [exact Hset|]. by rewrite Hrule.
Defined.

(** X8 (desktop [setup_alert_controls]): building the controls switches
    every rule on, whatever [__init__] stored, and keeps the thresholds:
    the desktop variant starts with all twenty rules enabled at 0.5 %. *)
Theorem setup_alert_controls_enables_every_rule self :
  rules_total self →
  ∃ self',
    BTCAlertDashboard.setup_alert_controls self = Some self'
    ∧ active_alerts self' = active_alerts self
    ∧ rules_total self'
    ∧ ∀ tf ind, tf ∈ TIMEFRAMES → ind ∈ INDICATORS →
        ∃ cfg, Rules.rule self tf ind = Some cfg
               ∧ Rules.rule self' tf ind
                 = Some {| enabled := true; threshold := threshold cfg |}.
Proof.
  intros Hrules. unfold BTCAlertDashboard.setup_alert_controls.
  set (pairs := INDICATORS ≫= _).
  assert (∀ ind tf, (ind, tf) ∈ pairs ↔ ind ∈ INDICATORS ∧ tf ∈ TIMEFRAMES)
    as Hpairs.
  { intros ind tf. unfold pairs. rewrite list_elem_of_bind. split.
    - intros (ind' & Hin & Hind).
      by apply list_elem_of_fmap in Hin as (tf' & [= -> ->] & Htf).
    - intros [Hind Htf]. exists ind. split; [|done].
      apply list_elem_of_fmap. by exists tf. }
  destruct (enable_each_rules pairs self) as (self' & -> & Hact & Hrule).
  { intros ind tf [Hind Htf]%Hpairs. by apply rules_total_rule. }
  assert (∀ tf ind, tf ∈ TIMEFRAMES → ind ∈ INDICATORS →
            ∃ cfg, Rules.rule self tf ind = Some cfg
                   ∧ Rules.rule self' tf ind
                     = Some {| enabled := true; threshold := threshold cfg |})
    as Hall.
  { intros tf ind Htf Hind.
    destruct (proj1 (rules_total_rule self) Hrules tf ind Htf Hind) as [cfg Hcfg].
    exists cfg. split; [done|]. rewrite Hrule, decide_True by by apply Hpairs.
    by rewrite Hcfg. }
  exists self'. split; [done|]. split; [done|]. split; [|done].
  apply rules_total_rule. intros tf ind Htf Hind.
  destruct (Hall tf ind Htf Hind) as (cfg & _ & ->). by eexists.
Qed.

Lemma setup_alert_controls_enables_every_rule_witness :
  rules_total Desktop.init_manager
  ∧ ∃ self', BTCAlertDashboard.setup_alert_controls Desktop.init_manager
             = Some self'
             ∧ Rules.rule self' "30m" "RSI"
               = Some {| enabled := true; threshold := 0.5 |}.
Proof.
  split; [exact (init_alerts_total false 0.5)|].
  destruct (setup_alert_controls_enables_every_rule Desktop.init_manager
              (init_alerts_total false 0.5)) as (self' & Hsetup & _ & _ & Hall).
  exists self'. split; [exact Hsetup|].
  destruct (Hall "30m"%string "RSI"%string) as (cfg & Hcfg & ->).
  - unfold TIMEFRAMES. repeat first [by left|right].
  - unfold INDICATORS. by left.
  - by injection Hcfg as <-.
Defined.

(** X9 (desktop [trigger_alert], [close_alert]): closing the pop-up of an
    alert takes its message out of the active set and gives back the
    manager as it was before the alert, so that the same alert can fire
    again; closing a message that is not active raises [KeyError]. *)
Theorem close_alert_undoes_trigger_alert self message :
  message ∉ active_alerts self →
  ∃ self1,
    trigger_alert self message = (self1, [message])
    ∧ trigger_alert self1 message = (self1, [])
    ∧ close_alert self1 message = Some self
    ∧ close_alert self message = None.
Proof.
  intros Hnin. rewrite (trigger_alert_emits _ _ Hnin). eexists. split; [done|].
  assert (message ∈ active_alerts self ∪ {[message]}) as Hin.
  { apply elem_of_union. right. by apply elem_of_singleton. }
  split; [by apply trigger_alert_silent|].
  unfold close_alert. simpl. rewrite decide_True by done.
  rewrite decide_False by done. split; [|done].
  destruct self as [rules active]. simpl in *. do 2 f_equal.
  apply set_eq. intros k.
  rewrite elem_of_difference, elem_of_union, elem_of_singleton. split.
  - by intros [[?|?] ?].
  - intros Hk. split; [by left|]. by intros ->.
Qed.

Lemma close_alert_undoes_trigger_alert_witness :
("1m_RSI"%string ∉ active_alerts Desktop.init_manager)
  ∧ ∃ self1,
      trigger_alert Desktop.init_manager "1m_RSI" = (self1, ["1m_RSI"%string])
      ∧ close_alert self1 "1m_RSI" = Some Desktop.init_manager.
Proof.
  assert ("1m_RSI"%string ∉ active_alerts Desktop.init_manager) as Hnin
    by apply not_elem_of_empty.
  split; [exact Hnin|].
  destruct (close_alert_undoes_trigger_alert Desktop.init_manager "1m_RSI" Hnin)
    as (self1 & Htrigger & _ & Hclose & _).
  exists self1. split; [exact Htrigger|exact Hclose].
Defined.

(** X10 ([check_alerts]): a cycle that returned can be run again on the
    same indicators at the same price: the second run returns, notifies
    nothing and leaves the manager as it is. What the first run notified is
    what it added to the active alerts, each key once. *)
Theorem second_check_is_silent self price indicators self1 out1 :
  check_alerts self price indicators = Some (self1, out1) →
  check_alerts self1 price indicators = Some (self1, [])
  ∧ active_alerts self1 = active_alerts self ∪ list_to_set out1
  ∧ NoDup out1.
Proof.
  unfold check_alerts.
  destruct (mapM calls_of_timeframe indicators) as [calls|]; [|done]. simpl.
  intros H1.
  pose proof (check_each_grows _ _ _ _ _ H1) as (Ha & Hsub & Hout).
  pose proof (check_each_emits _ _ _ _ _ H1) as [Hnd Hiff].
  pose proof (check_each_reads _ _ _ _ _ H1) as Hreads.
  split; [|split; [by eapply check_each_active|done]].
  destruct (check_each_returns price (concat calls) self1) as [[self2 out2] H2].
  { intros value key Hin. rewrite Ha. by eapply Hreads. }
  assert (out2 = []) as ->.
  { destruct out2 as [|k out2]; [done|]. exfalso.
    destruct (proj1 (proj2 (check_each_emits _ _ _ _ _ H2) k))
      as (Hnin & value & Hin & Hfires); [by left|].
    rewrite Ha in Hfires. apply Hnin.
    destruct (decide (k ∈ active_alerts self)) as [Hk|Hk]; [by apply Hsub|].
    apply Hout, Hiff. split; [done|]. by exists value. }
  by rewrite H2, (check_each_silent _ _ _ _ H2).
Qed.

Lemma second_check_is_silent_witness :
  ∃ self1,
    check_alerts Web.init_manager 100 [("1m", [("RSI", Num 100.05)])]%string
    = Some (self1, ["1m_RSI"%string])
    ∧ check_alerts self1 100 [("1m", [("RSI", Num 100.05)])]%string
      = Some (self1, []).
Proof.
  exists (trigger_alert Web.init_manager "1m_RSI").1.
  assert (check_alerts Web.init_manager 100 [("1m", [("RSI", Num 100.05)])]%string
          = Some ((trigger_alert Web.init_manager "1m_RSI").1, ["1m_RSI"%string]))
    as Hcall by (by vm_compute).
  split; [exact Hcall|].
  exact (proj1 (second_check_is_silent _ _ _ _ _ Hcall)).
Defined.

(** X11 (Kivy [check_alerts], [check_single_alert]): on the output of
    [calculate_indicators] and a manager with all its rules, the alert
    check of the Kivy variant, which splits the key at every underscore and
    maps any name that starts with BB to the rule BB, returns what the
    check of the other two variants returns. *)
Theorem kivy_check_alerts_agrees self price indicators :
  rules_total self →
  indicators_shaped indicators →
  KivyAlerts.check_alerts self price indicators
  = check_alerts self price indicators.
Proof.
  intros Hrules Hshape. unfold KivyAlerts.check_alerts, check_alerts.
  destruct indicators as [|item indicators]; [done|].
  destruct (mapM calls_of_timeframe (item :: indicators)) as [calls|] eqn:Hcalls;
    [|done].
  simpl. apply kivy_check_each_agrees; [done|].
  by apply calls_of_shaped with (item :: indicators).
Qed.

Lemma kivy_check_alerts_agrees_witness :
  (rules_total Kivy.init_manager
   ∧ indicators_shaped [("1m", [("RSI", Num 100.05)])]%string)
  ∧ KivyAlerts.check_alerts Kivy.init_manager 100
      [("1m", [("RSI", Num 100.05)])]%string
    = Some (Kivy.init_manager, []).
Proof.
  assert (indicators_shaped [("1m", [("RSI", Num 100.05)])]%string) as Hshape.
  { intros tf entry [= -> ->]%list_elem_of_singleton.
    split; [by left|]. intros name value [= -> ->]%list_elem_of_singleton.
    split; [by left|]. split; [done|]. by intros [bands [=]]. }
  split; [exact (conj (init_alerts_total false 0.5) Hshape)|].
  rewrite (kivy_check_alerts_agrees Kivy.init_manager 100 _
             (init_alerts_total false 0.5) Hshape).
  by vm_compute.
Defined.

(** X12 ([check_single_alert], web and desktop against Kivy): on a key
    whose indicator has no rule in its timeframe the web and desktop
    variants raise [KeyError]; the Kivy variant, which reads the rule with
    [.get], returns without a notification. *)
Theorem unknown_indicator_raises_except_in_kivy self price value tf name row :
  Py.contains "_" tf = false →
  Py.contains "_" name = false →
  Py.startswith name "BB" = false →
  alerts self !! tf = Some row →
  row !! name = None →
  check_single_alert self price value (tf +:+ "_" +:+ name) = None
  ∧ Kivy.check_single_alert self price value (tf +:+ "_" +:+ name)
    = Some (self, []).
Proof.
  intros Htf Hname Hbb Hrow Hcfg. split.
  - unfold check_single_alert.
    rewrite (split1_prefix _ _ Htf), Hrow. simpl.
    rewrite (split_no_separator _ Hname). simpl. by rewrite Hcfg.
  - unfold Kivy.check_single_alert.
    rewrite (split_prefix _ _ Htf), (split_no_separator _ Hname), Hbb, Hrow.
    simpl. by rewrite Hcfg.
Qed.

Lemma unknown_indicator_raises_except_in_kivy_witness :
  check_single_alert Kivy.init_manager 100 100 "1m_MACD" = None
  ∧ Kivy.check_single_alert Kivy.init_manager 100 100 "1m_MACD"
    = Some (Kivy.init_manager, []).
Proof.
  exact (unknown_indicator_raises_except_in_kivy Kivy.init_manager 100 100
           "1m" "MACD"
           (list_to_map ((λ ind, (ind, mkAlertConfig false 0.5)) <$> INDICATORS))
           eq_refl eq_refl eq_refl eq_refl eq_refl).
Defined.

End Extras_alerts.

Section Extras_price_alerts.
Import PriceAlerts Alerts.
Implicit Types (self manager : AlertManager) (pending : list Q).

(** X13 (web [check_price_alerts]): a check leaves pending exactly the
    targets that are not within 0.1 % of the rounded price, and notifies
    each message once: a reached target is reported only if its message is
    not among the active alerts, which the web variant never clears, so a
    target set again at a price that was reported before is consumed
    without a notification. The rules are not touched. *)
Theorem web_price_alerts_notify_once self pending current_price :
  ∃ self' out,
    Web.check_price_alerts self pending current_price
    = Some (self', filter (far 0.001 (Py.round2 current_price)) pending, out)
    ∧ alerts self' = alerts self
    ∧ active_alerts self' = active_alerts self ∪ list_to_set out
    ∧ NoDup out
    ∧ ∀ k, k ∈ out
           ↔ (k ∉ active_alerts self)
             ∧ ∃ a, a ∈ pending
                    ∧ near 0.001 (Py.round2 current_price) a = true
                    ∧ ("Price reached " +:+ Py.format_2f a)%string = k.
Proof.
  unfold Web.check_price_alerts.
  destruct (scan_copy_filter 0.001 (Py.round2 current_price)
              (λ self alert_price,
                 trigger_alert self ("Price reached " +:+ Py.format_2f alert_price))
              pending [] self) as (self' & out & Hscan).
  { by intros a ?%elem_of_nil. }
  simpl in Hscan. exists self', out. split; [exact Hscan|].
  exact (scan_copy_notifies 0.001 (Py.round2 current_price)
           (λ a, ("Price reached " +:+ Py.format_2f a)%string)
           pending self pending self' _ out Hscan).
Qed.

(** X14 (price-alert step of [update_ui] and [background_thread] before the
    first trade): with the price still at its initial 0 the web and desktop
    variants skip the scan, while the Kivy variant, whose scan has no guard,
    runs it: it consumes the targets equal to 0 and keeps all others. *)
Theorem kivy_scans_before_the_first_trade manager pending :
  Web.background_price_alerts manager pending 0 = Some (manager, pending, [])
  ∧ Desktop.update_ui_price_alerts manager pending 0
    = Some (manager, pending, [])
  ∧ ∃ manager' out,
      Kivy.update_ui_price_alerts manager pending 0
      = Some (manager', filter (λ a, negb (Qeq_bool a 0)) pending, out).
Proof.
  split; [done|]. split; [done|].
  unfold Kivy.update_ui_price_alerts.
  destruct (scan_copy_filter 0.01 0
              (λ manager alert_price,
                 trigger_alert manager
                   ("Price near " +:+ Py.format_2f alert_price +:+ "!"))
              pending [] manager) as (manager' & out & Hscan).
  { by intros a ?%elem_of_nil. }
  simpl in Hscan. exists manager', out. rewrite Hscan. do 3 f_equal.
  apply list_filter_iff. intros a.
  assert (near 0.01 0 a = Qeq_bool a 0) as Hnear.
  { apply eq_iff_eq_true. unfold near, Py.abs.
    rewrite Qle_bool_iff, Qeq_bool_iff.
    assert (0.01 * 0 == 0) as -> by reflexivity.
    assert (0 - a == - a) as -> by ring. rewrite Qabs_opp.
    pose proof (Qabs_nonneg a) as Hnn. split.
    - intros Hle. assert (Qabs a == 0) as H0 by lra.
      apply (Qabs_case a (λ x, x == 0 → a == 0)); [intros; lra|intros; lra|done].
    - intros ->. by vm_compute. }
  unfold far. by rewrite Hnear.
Qed.

(** X15 (desktop price-alert loop of [update_ui]): when no pending target
    within the tolerance is directly followed by another one, the loop over
    the live list does what the loops over a copy do: it leaves pending
    exactly the targets that are not within 0.01 % of the price. *)
Theorem desktop_scan_is_exact_on_separated_targets manager pending price :
  0 < price →
  near_apart 0.0001 price pending →
  ∃ manager' out,
    Desktop.update_ui_price_alerts manager pending price
    = Some (manager', filter (far 0.0001 price) pending, out).
Proof.
  intros Hprice Hapart. unfold Desktop.update_ui_price_alerts.
  destruct (Qlt_le_dec 0 price) as [_|Hle]; [|lra].
  destruct (scan_live_apart 0.0001 price Desktop.trigger_price_alert
              (S (length pending)) [] pending manager)
    as (manager' & out & Hscan); [lia|by intros a ?%elem_of_nil|done|].
  by exists manager', out.
Qed.

Lemma desktop_scan_is_exact_on_separated_targets_witness :
  (0 < 50000 ∧ near_apart 0.0001 50000 [50000; 49000; 50001])
  ∧ ∃ manager' out,
      Desktop.update_ui_price_alerts Desktop.init_manager
        [50000; 49000; 50001] 50000
      = Some (manager', [49000], out).
Proof.
  assert (0 < 50000) as Hprice by reflexivity.
  assert (near_apart 0.0001 50000 [50000; 49000; 50001]) as Hapart.
  { simpl. repeat split; try done. }
  split; [exact (conj Hprice Hapart)|].
  exact (desktop_scan_is_exact_on_separated_targets Desktop.init_manager
           [50000; 49000; 50001] 50000 Hprice Hapart).
Defined.

(** X16 (web [add_price_alert], then [check_price_alerts]): a target added
    at the current price is stored rounded and is consumed by the next
    check at that price, provided the rounded price is not negative; the
    targets left are the far ones among those that were pending before. *)
Theorem added_price_alert_is_consumed_at_its_price self pending price :
  0 <= Py.round2 price →
  ∃ self' out,
    Web.check_price_alerts self (Web.add_price_alert pending price) price
    = Some (self', filter (far 0.001 (Py.round2 price)) pending, out).
Proof.
  intros Hprice.
  unfold Web.check_price_alerts, Web.add_price_alert.
  destruct (scan_copy_filter 0.001 (Py.round2 price)
              (λ self alert_price,
                 trigger_alert self ("Price reached " +:+ Py.format_2f alert_price))
              (pending ++ [Py.round2 price]) [] self) as (self' & out & Hscan).
  { by intros a ?%elem_of_nil. }
  simpl in Hscan. exists self', out. rewrite Hscan. do 3 f_equal.
  rewrite filter_app, filter_far_cons.
  assert (near 0.001 (Py.round2 price) (Py.round2 price) = true) as ->.
  { unfold near, Py.abs. apply Qle_bool_iff.
    assert (Py.round2 price - Py.round2 price == 0) as -> by ring.
    assert (Qabs 0 == 0) as -> by reflexivity.
    assert (0.001 * Py.round2 price == Py.round2 price * (1 # 1000)) as ->
      by ring.
    lra. }
  by rewrite filter_nil, app_nil_r.
Qed.

Lemma added_price_alert_is_consumed_at_its_price_witness :
  0 <= Py.round2 50000.126
  ∧ ∃ self' out,
      Web.check_price_alerts Web.init_manager
        (Web.add_price_alert [40000] 50000.126) 50000.126
      = Some (self', [40000], out).
Proof.
  assert (0 <= Py.round2 50000.126) as Hprice by (by vm_compute).
  split; [exact Hprice|].
  exact (added_price_alert_is_consumed_at_its_price Web.init_manager [40000]
           50000.126 Hprice).
Defined.

End Extras_price_alerts.

Section Extras_position.
Import SLTP.
Implicit Types (v : variant) (self : SLTPCalculator).

(** X17 ([set_position] of the three front ends, then [calculate_sl] and
    [calculate_tp]): once a position is submitted with an entry price and
    percentages that are not negative, the stop and the target bracket the
    entry price, the stop below and the target above it for a LONG, the
    other way round for any other position type; the rounding of the web
    variant keeps the order. *)
Theorem stop_and_target_bracket_the_entry v self e side sl tp flags cp :
  0 <= e → 0 <= sl → 0 <= tp →
  ∃ self',
    Position.submit v self (Some e) side (Some sl) (Some tp) flags
    = (self', false)
    ∧ entry_price self' = rounded v e
    ∧ if String.eqb side "LONG"
      then calculate_sl v self' cp <= entry_price self'
           ∧ entry_price self' <= calculate_tp v self' cp
      else calculate_tp v self' cp <= entry_price self'
           ∧ entry_price self' <= calculate_sl v self' cp.
Proof.
  intros He Hsl Htp.
  assert (∀ x, 0 <= x → 0 <= rounded v x) as Hnn.
  { intros x Hx. apply (rounded_mono v) in Hx.
    assert (rounded v 0 == 0) as H0 by (by destruct v). lra. }
  assert (∀ p, 0 <= p →
            rounded v (rounded v e * (1 - p / 100)) <= rounded v e
            ∧ rounded v e <= rounded v (rounded v e * (1 + p / 100))) as Hbracket.
  { intros p Hp. pose proof (Hnn e He) as Hre.
    pose proof (Qmult_le_0_compat _ _ Hre Hp) as Hprod.
    rewrite <-(rounded_idem v e) at 2 3.
    split; apply rounded_mono.
    - assert (rounded v e * (1 - p / 100)
              == rounded v e - rounded v e * p * (1 # 100)) as -> by field.
      lra.
    - assert (rounded v e * (1 + p / 100)
              == rounded v e + rounded v e * p * (1 # 100)) as -> by field.
      lra. }
  set (self3 := Position.set_tp_percent
                  (Position.set_sl_percent (set_position v self e side)
                                           (rounded v sl))
                  (rounded v tp)).
  exists (match flags with
          | Some (a, b) => Position.set_trailing self3 a b
          | None => self3
          end).
  split; [done|].
  assert (entry_price (match flags with
                       | Some (a, b) => Position.set_trailing self3 a b
                       | None => self3
                       end) = rounded v e) as Hentry
    by (by destruct flags as [[a b]|]).
  split; [done|]. rewrite Hentry.
  assert (∀ x, calculate_sl v (match flags with
                               | Some (a, b) => Position.set_trailing self3 a b
                               | None => self3
                               end) x
               = calculate_sl v self3 x) as ->
    by (by destruct flags as [[a b]|]).
  assert (∀ x, calculate_tp v (match flags with
                               | Some (a, b) => Position.set_trailing self3 a b
                               | None => self3
                               end) x
               = calculate_tp v self3 x) as ->
    by (by destruct flags as [[a b]|]).
  unfold calculate_sl, calculate_tp, self3.
  cbn [Position.set_tp_percent Position.set_sl_percent set_position
       entry_price position_type sl_percent tp_percent].
  destruct (Hbracket _ (Hnn _ Hsl)) as [Hsl1 Hsl2].
  destruct (Hbracket _ (Hnn _ Htp)) as [Htp1 Htp2].
  by destruct (String.eqb side "LONG").
Qed.

Lemma stop_and_target_bracket_the_entry_witness :
  (0 <= 27123.456 ∧ 0 <= 1.5 ∧ 0 <= 3)
  ∧ ∃ self',
      Routes.set_position init (Some 27123.456) "SHORT" (Some 1.5) (Some 3)
                          (true, false)
      = (self', false)
      ∧ entry_price self' = 27123.46.
Proof.
  assert (0 <= 27123.456) as He by (by vm_compute).
  assert (0 <= 1.5) as Hsl by (by vm_compute).
  assert (0 <= 3) as Htp by (by vm_compute).
  split; [done|].
  destruct (stop_and_target_bracket_the_entry web init 27123.456 "SHORT" 1.5 3
              (Some (true, false)) 0 He Hsl Htp) as (self' & Hsubmit & Hentry & _).
  exists self'. split; [exact Hsubmit|]. rewrite Hentry. by vm_compute.
Defined.

(** X18 ([set_position] of the three front ends): the handler parses and
    stores its fields one after the other, so text that is no number stops
    it half way: the entry price and the position type are stored when the
    entry price parses, each percentage only when everything before it
    parsed as well, and the trailing flags only when all three did. A
    rejected percentage therefore leaves the new entry price beside the old
    percentages, and the error is reported exactly when a field did not
    parse. *)
Theorem set_position_stops_at_the_first_bad_field v self entry_text side
    sl_text tp_text flags :
  let '(self', raised) :=
    Position.submit v self entry_text side sl_text tp_text flags in
  raised = negb (bool_decide (is_Some entry_text ∧ is_Some sl_text
                              ∧ is_Some tp_text))
  ∧ entry_price self' = from_option (rounded v) (entry_price self) entry_text
  ∧ position_type self' = match entry_text with
                          | Some _ => side
                          | None => position_type self
                          end
  ∧ sl_percent self'
    = from_option (rounded v) (sl_percent self) (entry_text ≫= λ _, sl_text)
  ∧ tp_percent self'
    = from_option (rounded v) (tp_percent self)
        (entry_text ≫= λ _, sl_text ≫= λ _, tp_text)
  ∧ (trailing_sl self', trailing_tp self')
    = default (trailing_sl self, trailing_tp self)
        (entry_text ≫= λ _, sl_text ≫= λ _, tp_text ≫= λ _, flags).
Proof.
  unfold Position.submit.
  destruct entry_text as [e|], sl_text as [sl|], tp_text as [tp|];
    try destruct flags as [[a b]|]; simpl; repeat split; try done.
Qed.

End Extras_position.

Section Extras_indicators.
Import Indicators Alerts.
Implicit Types (v : variant) (ta : TaLibrary).
Implicit Types (candles : gmap string (list Candle)).

(** X19 ([calculate_indicators]): whenever the computation returns, its
    output is the entries of the timeframes that have at least twenty
    candles, in the order of [TIMEFRAMES] and each timeframe at most once,
    whatever the package computes. *)
Theorem indicators_follow_the_timeframes v ta candles indicators :
  calculate_indicators v ta candles = Returns indicators →
  indicators = reported v ta candles TIMEFRAMES
  ∧ indicators.*1 `sublist_of` TIMEFRAMES
  ∧ NoDup indicators.*1.
Proof.
  intros ->%calculate_loop_inv. simpl.
  pose proof (reported_sublist v ta candles TIMEFRAMES) as Hsub.
  split; [done|]. split; [done|].
  refine (sublist_NoDup _ _ _ Hsub).
  unfold TIMEFRAMES. apply (bool_decide_unpack _). by vm_compute.
Qed.

Lemma indicators_follow_the_timeframes_witness :
  ∃ indicators,
    calculate_indicators web Examples.ta Examples.flat20 = Returns indicators
    ∧ indicators.*1 = ["1m"%string].
Proof.
  destruct (calculate_indicators web Examples.ta Examples.flat20)
    as [indicators|e] eqn:Hcalc; [|by vm_compute in Hcalc].
  exists indicators. split; [done|].
  destruct (indicators_follow_the_timeframes web Examples.ta Examples.flat20
              indicators Hcalc) as [-> _].
  by vm_compute.
Defined.

(** X20 (web [calculate_indicators]): every number that the web variant
    reports, the three bands included, is one that [round(_, 2)] returns
    as it is: the variant never reports more than two decimals. *)
Theorem web_reports_two_decimals ta candles indicators tf entry name value :
  calculate_indicators web ta candles = Returns indicators →
  (tf, entry) ∈ indicators →
  (name, value) ∈ entry →
  match value with
  | Num x => two_decimals x
  | Bands bands => ∀ band x, (band, x) ∈ bands → two_decimals x
  end.
Proof.
  intros ->%calculate_loop_inv Hentry Hvalue.
  change ([] ++ reported web ta candles TIMEFRAMES)
    with (reported web ta candles TIMEFRAMES) in Hentry.
  apply reported_elem in Hentry as (_ & df & _ & _ & Hret).
  by eapply web_entry_two_decimals.
Qed.

Lemma web_reports_two_decimals_witness :
  ∃ indicators entry x,
    calculate_indicators web Examples.ta Examples.candles20 = Returns indicators
    ∧ ("1m"%string, entry) ∈ indicators
    ∧ ("EMA20"%string, Num x) ∈ entry
    ∧ two_decimals x.
Proof.
  destruct (calculate_indicators web Examples.ta Examples.candles20)
    as [indicators|e] eqn:Hcalc; [|by vm_compute in Hcalc].
  assert (∃ entry x rest1 rest2, indicators = [("1m"%string, entry)]
            ∧ entry = rest1 ++ ("EMA20"%string, Num x) :: rest2)
    as (entry & x & rest1 & rest2 & Hind & Hentry).
  { vm_compute in Hcalc. injection Hcalc as <-.
    eexists _, _, [_], _. split; reflexivity. }
  assert (("1m"%string, entry) ∈ indicators) as Hin1
    by (rewrite Hind; by left).
  assert (("EMA20"%string, Num x) ∈ entry) as Hin2.
  { rewrite Hentry. apply elem_of_app. right. by left. }
  exists indicators, entry, x. split; [done|]. split; [done|]. split; [done|].
  exact (web_reports_two_decimals Examples.ta Examples.candles20 indicators
           "1m" entry "EMA20" (Num x) Hcalc Hin1 Hin2).
Defined.

(** X21 ([calculate_indicators], [get_ohlc_data]): the indicators depend on
    the closes of the candles only; two aggregators whose series have the
    same closes give the same output, whatever their opens, highs, lows and
    times are. *)
Theorem indicators_read_the_closes_only v ta candles1 candles2 :
  (∀ tf, tf ∈ TIMEFRAMES →
     fmap close <$> candles1 !! tf = fmap close <$> candles2 !! tf) →
  calculate_indicators v ta candles1 = calculate_indicators v ta candles2.
Proof. intros Hsame. by apply calculate_loop_closes. Qed.

Lemma indicators_read_the_closes_only_witness :
  calculate_indicators desktop Examples.ta Examples.flat20
  = calculate_indicators desktop Examples.ta
      ((λ cs : list Candle,
          (λ c, {| time := time c + 7; open := 99; high := 101; low := 98;
                   close := close c |}) <$> cs) <$> Examples.flat20).
Proof.
  apply indicators_read_the_closes_only.
  intros tf Htf. unfold TIMEFRAMES in Htf.
  each_element Htf ltac:(by vm_compute).
Defined.

(** X22 (Kivy [calculate_indicators], then [check_single_alert]): the 0
    that the Kivy variant reports for an indicator whose computation failed
    fires no alert at a positive price, as long as the threshold of the
    rule is below 100 %. *)
Theorem failed_indicator_fires_no_alert self price tf name rest cfg :
  tf ∈ TIMEFRAMES →
  name ∈ INDICATORS →
  (name ≠ "BB"%string ∧ rest = EmptyString)
  ∨ (name = "BB"%string ∧ ∃ band, rest = ("_" +:+ band)%string) →
  Rules.rule self tf name = Some cfg →
  0 < price →
  threshold cfg < 100 →
  Kivy.check_single_alert self price 0 (tf +:+ "_" +:+ name +:+ rest)
  = Some (self, []).
Proof.
  intros Htf Hname Hrest Hrule Hprice Hlt.
  unfold Rules.rule in Hrule.
  destruct (alerts self !! tf) as [row|] eqn:Hrow; [|done]. simpl in Hrule.
  rewrite (kivy_check_single_alert_agrees self price 0 tf name rest row
             Htf Hname Hrest Hrow) by by eexists.
  rewrite (check_single_alert_rule self price 0 tf name rest row cfg);
    [|by apply timeframes_no_underscore|by apply indicators_no_underscore
     | |done|done].
  2:{ destruct Hrest as [[_ ->]|[_ [band ->]]]; eauto. }
  assert (Qle_bool (Py.abs (price - 0)) (threshold cfg / 100 * price) = false)
    as ->; [|by rewrite andb_false_r].
  apply not_true_is_false. rewrite Qle_bool_iff. unfold Py.abs.
  assert (price - 0 == price) as -> by ring.
  rewrite Qabs_pos by lra.
  assert (threshold cfg / 100 * price == threshold cfg * price * (1 # 100))
    as -> by field.
  intros Hle.
  assert (0 < (100 - threshold cfg) * price) as Hpos
    by (apply Qmult_lt_0_compat; lra).
  assert ((100 - threshold cfg) * price
          == 100 * price - threshold cfg * price) as Heq by ring.
  rewrite Heq in Hpos. lra.
Qed.

Lemma failed_indicator_fires_no_alert_witness :
  ("1m" ∈ TIMEFRAMES ∧ "RSI" ∈ INDICATORS
   ∧ Rules.rule Kivy.init_manager "1m" "RSI" = Some (mkAlertConfig false 0.5)
   ∧ 0 < 27000 ∧ 0.5 < 100)
  ∧ Kivy.check_single_alert Kivy.init_manager 27000 0 "1m_RSI"
    = Some (Kivy.init_manager, []).
Proof.
  assert ("1m" ∈ TIMEFRAMES) as Htf by (by left).
  assert ("RSI" ∈ INDICATORS) as Hname by (by left).
  assert (0 < 27000) as Hprice by reflexivity.
  assert (0.5 < 100) as Hlt by reflexivity.
  assert ("RSI"%string ≠ "BB"%string) as Hne by done.
  split; [done|].
  exact (failed_indicator_fires_no_alert Kivy.init_manager 27000 "1m" "RSI"
           EmptyString (mkAlertConfig false 0.5) Htf Hname
           (or_introl (conj Hne eq_refl))
           eq_refl Hprice Hlt).
Defined.

End Extras_indicators.

Section Extras_cycle.
Import Indicators Alerts PriceAlerts Evaluation.
Implicit Types (v : variant) (ta : TaLibrary) (manager : AlertManager).
Implicit Types (candles : gmap string (list Candle)) (pending : list Q).

(** X23 ([background_thread], [update_ui]): with the four series there and
    a rule for every timeframe and indicator, a cycle can only be left by
    an exception of the indicator package: it returns whenever
    [calculate_indicators] does, and in the Kivy variant, which guards
    every indicator, it always returns. *)
Theorem cycle_returns v ta candles current_price manager pending :
  (∀ tf, tf ∈ TIMEFRAMES → is_Some (candles !! tf)) →
  rules_total manager →
  v = kivy ∨ (∃ indicators, calculate_indicators v ta candles = Returns indicators) →
  is_Some (cycle v ta candles current_price manager pending).
Proof.
  intros Hkeys Hrules Hcalc. unfold cycle.
  assert (∃ indicators, calculate_indicators v ta candles = Returns indicators)
    as [indicators Hind].
  { destruct Hcalc as [->|Hcalc]; [|done].
    eexists. by apply kivy_calculate_indicators_returns. }
  rewrite Hind.
  pose proof (calculate_indicators_shaped v ta candles indicators Hkeys Hind)
    as Hshape.
  assert (∃ manager1 out1,
            indicator_alerts v manager current_price indicators
            = Some (manager1, out1)) as (manager1 & out1 & ->).
  { assert (∀ price, ∃ manager1 out1,
              check_alerts manager price indicators = Some (manager1, out1))
      as Hcheck.
    { intros price.
      destruct (check_alerts_returns manager price indicators Hrules Hshape)
        as [[manager1 out1] H].
      by exists manager1, out1. }
    destruct v; simpl; [apply Hcheck| |apply Hcheck].
    unfold KivyAlerts.check_alerts.
    destruct indicators as [|item indicators]; [by eexists _, _|].
    destruct (Hcheck current_price) as (manager1 & out1 & H).
    unfold check_alerts in H.
    destruct (mapM calls_of_timeframe (item :: indicators)) as [calls|] eqn:Hcalls;
      [|done].
    simpl in *. exists manager1, out1. rewrite <-H.
    apply kivy_check_each_agrees; [done|].
    by apply calls_of_shaped with (item :: indicators). }
  cbn [mbind option_bind].
  assert (is_Some (price_alerts v manager1 pending current_price))
    as [[[manager2 pending2] out2] ->]; [|by eexists].
  destruct v; simpl.
  - unfold Desktop.update_ui_price_alerts.
    destruct (Qlt_le_dec 0 current_price); [|by eexists].
    apply scan_live_returns. lia.
  - unfold Kivy.update_ui_price_alerts.
    destruct (scan_copy_filter 0.01 current_price
                (λ manager alert_price,
                   trigger_alert manager
                     ("Price near " +:+ Py.format_2f alert_price +:+ "!"))
                pending [] manager1) as (m & o & H);
      [by intros a ?%elem_of_nil|].
    simpl in H. rewrite H. by eexists.
  - unfold Web.background_price_alerts, Web.check_price_alerts.
    destruct (Qlt_le_dec 0 current_price); [|by eexists].
    destruct (scan_copy_filter 0.001 (Py.round2 current_price)
                (λ self alert_price,
                   trigger_alert self ("Price reached " +:+ Py.format_2f alert_price))
                pending [] manager1) as (m & o & H);
      [by intros a ?%elem_of_nil|].
    simpl in H. rewrite H. by eexists.
Qed.

Lemma cycle_returns_witness :
  ((∀ tf, tf ∈ TIMEFRAMES → is_Some (Examples.flat20 !! tf))
   ∧ rules_total Kivy.init_manager)
  ∧ is_Some (cycle kivy Examples.ta_rsi_raises Examples.flat20 100
               Kivy.init_manager [100; 200]).
Proof.
  split; [exact (conj flat20_keys (init_alerts_total false 0.5))|].
  exact (cycle_returns kivy Examples.ta_rsi_raises Examples.flat20 100
           Kivy.init_manager [100; 200] flat20_keys
           (init_alerts_total false 0.5) (or_introl eq_refl)).
Defined.

(** X24 ([background_thread], [update_ui]): a cycle never changes a rule;
    its notifications, those of the indicator rules and those of the price
    alerts together, are exactly the messages it adds to the active alerts,
    each of them once and none that was active before; and it adds no
    pending price alert, it only takes some away. *)
Theorem cycle_notifies_what_it_activates v ta candles current_price manager
    pending manager' pending' out :
  cycle v ta candles current_price manager pending
  = Some (manager', pending', out) →
  alerts manager' = alerts manager
  ∧ active_alerts manager' = active_alerts manager ∪ list_to_set out
  ∧ NoDup out
  ∧ (∀ k, k ∈ out → k ∉ active_alerts manager)
  ∧ pending' `sublist_of` pending.
Proof.
  unfold cycle.
  destruct (calculate_indicators v ta candles) as [indicators|]; [|done].
  destruct (indicator_alerts v manager current_price indicators)
    as [[manager1 out1]|] eqn:H1; [|done].
  cbn [mbind option_bind].
  destruct (price_alerts v manager1 pending current_price)
    as [[[manager2 pending2] out2]|] eqn:H2; [|done].
  cbn [mbind option_bind]. intros [= <- <- <-].
  assert (notified manager manager1 out1) as Hn1.
  { assert (∀ price, check_alerts manager price indicators = Some (manager1, out1) →
              notified manager manager1 out1) as Hcheck.
    { intros price. unfold check_alerts.
      destruct (mapM calls_of_timeframe indicators) as [calls|]; [|done].
      apply check_each_notified. }
    destruct v; simpl in H1; [by eapply Hcheck| |by eapply Hcheck].
    unfold KivyAlerts.check_alerts in H1.
    destruct indicators as [|item indicators].
    { injection H1 as <- <-. apply notified_refl. }
    destruct (mapM calls_of_timeframe (item :: indicators)) as [calls|]; [|done].
    simpl in H1. revert H1. generalize (concat calls). clear.
    intros calls. revert manager manager1 out1.
    induction calls as [|[value key] calls IH]; intros manager manager1 out1;
      cbn [KivyAlerts.check_each].
    - intros [= <- <-]. apply notified_refl.
    - destruct (Kivy.check_single_alert manager current_price value key)
        as [[m1 o1]|] eqn:Hk; [|done].
      cbn [mbind option_bind].
      destruct (KivyAlerts.check_each m1 current_price calls)
        as [[m2 o2]|] eqn:Hrec; [|done].
      cbn [mbind option_bind]. intros [= <- <-].
      eapply notified_app; [|by eapply IH].
      unfold Kivy.check_single_alert in Hk.
      destruct (Py.split "_" key) as [|tf [|part1 parts]]; try done.
      destruct (alerts manager !! tf) as [row|]; [|done].
      cbn [mbind option_bind] in Hk.
      destruct (row !! _) as [cfg|];
        [|injection Hk as <- <-; apply notified_refl].
      destruct (enabled cfg); [|injection Hk as <- <-; apply notified_refl].
      destruct (Qle_bool _ _); [|injection Hk as <- <-; apply notified_refl].
      injection Hk as Hk.
      pose proof (trigger_alert_notified manager key) as Hn.
      by rewrite Hk in Hn. }
  assert (notified manager1 manager2 out2 ∧ pending2 `sublist_of` pending)
    as [Hn2 Hsub].
  { destruct v; simpl in H2.
    - unfold Desktop.update_ui_price_alerts in H2.
      destruct (Qlt_le_dec 0 current_price).
      + split.
        * eapply scan_live_notified; [|exact H2].
          intros m a. apply trigger_alert_notified.
        * by eapply scan_live_keeps_far.
      + injection H2 as <- <- <-. split; [apply notified_refl|done].
    - unfold Kivy.update_ui_price_alerts in H2. split.
      + eapply scan_copy_notified; [|exact H2].
        intros m a. apply trigger_alert_notified.
      + by eapply scan_copy_sublist.
    - unfold Web.background_price_alerts, Web.check_price_alerts in H2.
      destruct (Qlt_le_dec 0 current_price).
      + split.
        * eapply scan_copy_notified; [|exact H2].
          intros m a. apply trigger_alert_notified.
        * by eapply scan_copy_sublist.
      + injection H2 as <- <- <-. split; [apply notified_refl|done]. }
  destruct (notified_app _ _ _ _ _ Hn1 Hn2) as (Ha & Hs & Hnd & Hout).
  done.
Qed.

Lemma cycle_notifies_what_it_activates_witness :
  ∃ manager' pending' out,
    cycle web Examples.ta Examples.flat20 100 Web.init_manager [100; 200]
    = Some (manager', pending', out)
    ∧ NoDup out.
Proof.
  destruct (cycle web Examples.ta Examples.flat20 100 Web.init_manager
              [100; 200]) as [[[manager' pending'] out]|] eqn:Hcycle;
    [|by vm_compute in Hcycle].
  exists manager', pending', out. split; [done|].
  exact (proj1 (proj2 (proj2
    (cycle_notifies_what_it_activates web Examples.ta Examples.flat20 100
       Web.init_manager [100; 200] manager' pending' out Hcycle)))).
Defined.

End Extras_cycle.

Section Extras_bucket.
Import BinanceWebSocket CandleAggregator.
Implicit Types (v : variant) (candles : gmap string (list Candle)).

(** X25 ([on_message], [process_trade], [update_candles], [add_candle],
    [update_last_candle]): a candle is the summary of the trades of its
    bucket. When a trade opens a candle of a timeframe and the trades after
    it fall short of the end of its bucket, the last candle of that series
    has the time and the price of the first trade as its time and open, the
    highest and the lowest of the recorded prices as its high and low, and
    the last recorded price as its close. *)
Theorem candle_summarises_its_bucket v candles tf cs secs p1 t1 trades :
  timeframe_keys candles →
  candles !! tf = Some cs →
  get_seconds tf = Some secs →
  (cs = [] ∨ ∃ c, last cs = Some c ∧ (secs * 1000 ≤ t1 - time c)%Z) →
  (∀ trade, trade ∈ trades → (trade.2 - t1 < secs * 1000)%Z) →
  ∃ candles' cs',
    feed v candles ((p1, t1) :: trades) = Some candles'
    ∧ candles' !! tf = Some cs'
    ∧ last cs'
      = Some {| time := t1;
                open := rounded v p1;
                high := highest (rounded v p1) (rounded v <$> trades.*1);
                low := lowest (rounded v p1) (rounded v <$> trades.*1);
                close := default (rounded v p1)
                           (last (rounded v <$> trades.*1)) |}.
Proof.
  intros Hkeys Hcs Hsecs Hnew Hin.
  destruct (feed_series v ((p1, t1) :: trades) candles Hkeys)
    as (candles' & Hfeed & _ & Hseries).
  destruct (Hseries _ _ Hcs) as (secs' & Hsecs' & Hcs').
  rewrite Hsecs in Hsecs'. injection Hsecs' as <-.
  exists candles', (series_feed v secs cs ((p1, t1) :: trades)).
  split; [done|]. split; [done|].
  unfold series_feed. cbn [foldl fst snd].
  rewrite (series_step_new v secs cs (rounded v p1) t1 Hnew), rounded_idem.
  fold (series_feed v secs
          (evict (capacity v) (cs ++ [new_candle (rounded v p1) t1])) trades).
  rewrite (series_feed_bucket v secs trades _ (new_candle (rounded v p1) t1));
    [done| |by simpl; rewrite rounded_idem|by simpl; rewrite rounded_idem|done].
  rewrite evict_last by apply capacity_pos. by rewrite last_snoc.
Qed.

Lemma candle_summarises_its_bucket_witness :
  (timeframe_keys init_candles
   ∧ init_candles !! "1m"%string = Some []
   ∧ get_seconds "1m" = Some 60%Z
   ∧ ∀ trade, trade ∈ [(101.5, 1000%Z); (99.754, 59000%Z)] →
       (trade.2 - 0 < 60 * 1000)%Z)
  ∧ ∃ candles' cs',
      feed web init_candles [(100.126, 0%Z); (101.5, 1000%Z); (99.754, 59000%Z)]
      = Some candles'
      ∧ candles' !! "1m"%string = Some cs'
      ∧ last cs' = Some {| time := 0; open := Py.round2 100.126;
                           high := Py.round2 101.5; low := Py.round2 99.754;
                           close := Py.round2 99.754 |}.
Proof.
  assert (∀ trade : Q * Z, trade ∈ [(101.5, 1000%Z); (99.754, 59000%Z)] →
            (trade.2 - 0 < 60 * 1000)%Z) as Hin.
  { intros trade H. each_element H ltac:(simpl; lia). }
  split; [exact (conj (proj1 (init_candles_ok web))
                   (conj eq_refl (conj eq_refl Hin)))|].
  destruct (candle_summarises_its_bucket web init_candles "1m" [] 60 100.126 0
              [(101.5, 1000%Z); (99.754, 59000%Z)]
              (proj1 (init_candles_ok web)) eq_refl eq_refl (or_introl eq_refl)
              Hin) as (candles' & cs' & Hfeed & Hcs' & Hlast).
  exists candles', cs'. split; [exact Hfeed|]. split; [exact Hcs'|].
  rewrite Hlast. by vm_compute.
Defined.

End Extras_bucket.

Section Extras_cycles.
Import Alerts.

(** X26 ([check_alerts], [check_single_alert], [trigger_alert], cycle after
    cycle): over any number of evaluation cycles, at any prices and on any
    calls, no key is notified twice and none that was active at the start;
    the notifications are what the cycles added to the active alerts. In
    the web and Kivy variants, which never remove a key, a rule therefore
    notifies at most once in the life of the process. *)
Theorem no_key_is_notified_twice cycles : ∀ self self' out,
  check_cycles self cycles = Some (self', out) →
  NoDup out
  ∧ (∀ k, k ∈ out → k ∉ active_alerts self)
  ∧ active_alerts self' = active_alerts self ∪ list_to_set out
  ∧ alerts self' = alerts self.
Proof.
  assert (∀ self self' out,
            check_cycles self cycles = Some (self', out) →
            notified self self' out) as Hnotified.
  { induction cycles as [|[price calls] cycles IH]; intros self self' out;
      cbn [check_cycles].
    - intros [= <- <-]. apply notified_refl.
    - destruct (check_each self price calls) as [[self1 out1]|] eqn:H1; [|done].
      cbn [mbind option_bind].
      destruct (check_cycles self1 cycles) as [[self2 out2]|] eqn:H2; [|done].
      cbn [mbind option_bind]. intros [= <- <-].
      eapply notified_app; [by eapply check_each_notified|by apply IH]. }
  intros self self' out H.
  destruct (Hnotified _ _ _ H) as (Ha & Hs & Hnd & Hout). done.
Qed.

Lemma no_key_is_notified_twice_witness :
  ∃ self',
    check_cycles Web.init_manager
      [(100, [(100.05, "1m_RSI"%string)]); (100, [(100.05, "1m_RSI"%string)]);
       (200, [(200, "1m_RSI"%string); (200.1, "4h_BB_upper"%string)])]
    = Some (self', ["1m_RSI"; "4h_BB_upper"]%string)
    ∧ NoDup ["1m_RSI"; "4h_BB_upper"]%string.
Proof.
  destruct (check_cycles Web.init_manager
      [(100, [(100.05, "1m_RSI"%string)]); (100, [(100.05, "1m_RSI"%string)]);
       (200, [(200, "1m_RSI"%string); (200.1, "4h_BB_upper"%string)])])
    as [[self' out]|] eqn:Hcycles; [|by vm_compute in Hcycles].
  assert (out = ["1m_RSI"; "4h_BB_upper"]%string) as Hout.
  { vm_compute in Hcycles. by injection Hcycles as _ <-. }
  exists self'. rewrite <-Hout. split; [done|].
  exact (proj1 (no_key_is_notified_twice _ _ _ _ Hcycles)).
Defined.

End Extras_cycles.

Section Extras_unguarded.
Import Indicators.

(** X27 (web and desktop [calculate_indicators], [background_thread],
    [update_ui]): the web and desktop variants call the package without a
    guard. If one of the seven calls for a timeframe with at least 20
    candles raises, [calculate_indicators] raises, nothing is reported for
    any timeframe, and the cycle is left before any alert is checked. *)
Theorem unguarded_call_aborts_the_cycle (v : variant) (ta : TaLibrary)
    (candles : gmap string (list Candle)) (tf : string) (df : list Candle)
    (current_price : Q) (manager : AlertManager) (pending : list Q) :
  v ≠ kivy →
  (∀ tf, tf ∈ TIMEFRAMES → is_Some (candles !! tf)) →
  tf ∈ TIMEFRAMES →
  candles !! tf = Some df →
  (20 ≤ length df)%nat →
  call_raises ta (close <$> df) →
  (∃ e, calculate_indicators v ta candles = Raises e)
  ∧ Evaluation.cycle v ta candles current_price manager pending = None.
Proof.
  intros Hv Hkeys Htf Hdf Hlen Hraise.
  destruct (indicator_set_raises v ta _ Hraise) as [e He].
  assert (timeframe_entry v ta (close <$> df) = Raises e) as Hentry
    by (by destruct v).
  destruct (calculate_loop_raises v ta candles TIMEFRAMES [] tf df e
              Hkeys Htf Hdf Hlen Hentry) as [e' He'].
  fold (calculate_indicators v ta candles) in He'.
  split; [by exists e'|]. unfold Evaluation.cycle. by rewrite He'.
Qed.

Lemma unguarded_call_aborts_the_cycle_witness :
  (web ≠ kivy
   ∧ (∀ tf, tf ∈ TIMEFRAMES → is_Some (Examples.flat20 !! tf))
   ∧ "1m"%string ∈ TIMEFRAMES
   ∧ call_raises Examples.ta_rsi_raises (replicate 20 100))
  ∧ Evaluation.cycle web Examples.ta_rsi_raises Examples.flat20 100
      Web.init_manager [100] = None.
Proof.
  assert (web ≠ kivy) as Hv by done.
  assert ("1m"%string ∈ TIMEFRAMES) as Htf by (by left).
  assert (call_raises Examples.ta_rsi_raises (replicate 20 100)) as Hraise
    by (left; by eexists).
  split; [exact (conj Hv (conj flat20_keys (conj Htf Hraise)))|].
  assert (Examples.flat20 !! "1m"%string
          = Some (default [] (Examples.flat20 !! "1m"%string))) as Hdf
    by (by vm_compute).
  assert (20 ≤ length (default [] (Examples.flat20 !! "1m"%string)))%nat
    as Hlen by (vm_compute; lia).
  assert (close <$> default [] (Examples.flat20 !! "1m"%string)
          = replicate 20 100) as Hcloses by (by vm_compute).
  rewrite <-Hcloses in Hraise.
  exact (proj2 (unguarded_call_aborts_the_cycle web Examples.ta_rsi_raises
                  Examples.flat20 "1m" _ 100 Web.init_manager [100]
                  Hv flat20_keys Htf Hdf Hlen Hraise)).
Defined.

End Extras_unguarded.
